(** * Mython: the runtime object model, the tree-walking evaluator and the lexer

    A shallow embedding of [mython/runtime.cpp], [mython/statement.cpp] and of
    the lexer, followed by the properties of the specification that are
    settled against it and by further properties of the code: method
    lookup and calls, comparison, the statements, the output stream, the
    scanners of the lexer and its token stream.

    Conventions of the embedding.
    - A [std::shared_ptr<Object>] to an immutable object ([Number], [String],
      [Bool], [Class]) is the object itself; a pointer to a [ClassInstance],
      the only mutable object, is an address into a store of instances.
    - [Closure&] and [Context&] are threaded through a state monad.
    - Behaviour the C++ standard leaves undefined (dereferencing the null
      result of [TryAs], signed overflow of [int]) is the outcome
      [Undefined]; it is never identified with a return or with a thrown
      exception.
    - Unbounded recursion of the evaluator (method calls) is cut by a fuel
      argument; running out of it is the outcome [OutOfFuel]. *)

From Stdlib Require Import ZArith Ascii String Lia.
From stdpp Require Import gmap strings list fin_maps pretty.

Set Warnings "-register-all".

(** Addresses of the objects that have an identity: the [ClassInstance]
    embedded in a [NewInstance] node and the [cls_] holder of a
    [ClassDefinition] node. *)
Abbreviation addr := positive (only parsing).

(* ===================================================================== *)
(** ** namespace runtime: objects, holders, classes *)
(* ===================================================================== *)

Module runtime.

(** The comparators of [runtime.cpp] a [Comparison] node can carry. *)
Inductive Comparator : Type :=
| Equal | Less | NotEqual | Greater | LessOrEqual | GreaterOrEqual.

(** [Executable] (the statement tree of [statement.cpp]), [Method], [Class]
    and [Object] refer to each other: a method owns its body, a
    [ClassDefinition] owns a holder, an object may be a class.  The classes
    are declared in [runtime.h] and [statement.h]; their members are the
    ones the methods of [runtime.cpp] and [statement.cpp] use, under the
    names they have there.  The statement classes that [statement.h]
    defines in full (the constants) have no [Execute] in [statement.cpp]
    and are not part of the tree here.

    A [std::unique_ptr<Statement>] that the source tests against null before
    use is an [option Statement]; the others are dereferenced
    unconditionally by the source and are taken to be non-null.  The
    [ClassInstance] that a [NewInstance] holds as the member [class_inst_],
    and the holder [cls_] of a [ClassDefinition], which [Execute] moves
    from, are objects with an identity: the nodes carry their address. *)
Inductive Statement : Type :=
| Assignment (var_ : string) (rv_ : Statement)
| VariableValue (dotted_ids_ : list string)
| Print (args_ : list Statement)
| MethodCall (object_ : option Statement) (method_ : string)
             (args_ : list Statement)
| Stringify (argument_ : Statement)
| Add (lhs_ rhs_ : option Statement)
| Sub (lhs_ rhs_ : option Statement)
| Mult (lhs_ rhs_ : option Statement)
| Div (lhs_ rhs_ : option Statement)
| Compound (stmt_ : list Statement)
| Return (statement_ : Statement)
| ClassDefinition (cls_ : addr)
| FieldAssignment (object_ : list string) (field_name_ : string)
                  (rv_ : Statement)
| IfElse (condition_ if_body_ : Statement) (else_body_ : option Statement)
| Or (lhs_ rhs_ : option Statement)
| And (lhs_ rhs_ : option Statement)
| Not (argument_ : option Statement)
| Comparison (cmp_ : Comparator) (lhs_ rhs_ : option Statement)
| NewInstance (class_inst_ : addr) (args_ : list Statement)
| MethodBody (body_ : Statement)
with Method : Type :=
| mkMethod (name : string) (formal_params : list string) (body : Statement)
with Class : Type :=
| mkClass (name_ : string) (methods_ : list Method) (parent_ : option Class)
          (names_methods_ : gmap string Method)
with Object : Type :=
| Number (value : Z)
| String (value : string)
| Bool (value : bool)
| ClassObject (cls : Class)
| ClassInstanceAt (a : addr).

Definition Method_name (m : Method) : string :=
  let 'mkMethod n _ _ := m in n.
Definition Method_formal_params (m : Method) : list string :=
  let 'mkMethod _ ps _ := m in ps.
Definition Method_body (m : Method) : Statement :=
  let 'mkMethod _ _ b := m in b.

Definition Class_name_ (c : Class) : string :=
  let 'mkClass n _ _ _ := c in n.
Definition Class_methods_ (c : Class) : list Method :=
  let 'mkClass _ ms _ _ := c in ms.
Definition Class_parent_ (c : Class) : option Class :=
  let 'mkClass _ _ p _ := c in p.
Definition Class_names_methods_ (c : Class) : gmap string Method :=
  let 'mkClass _ _ _ idx := c in idx.

(** [ObjectHolder]: a possibly empty handle; the empty one is [None]. *)
Abbreviation ObjectHolder := (option Object) (only parsing).

(** [ObjectHolder::Share] and [ObjectHolder::None], and [ObjectHolder::Own],
    which [runtime.h] defines: it makes a holder that owns a new object.
    Owning and non-owning holders differ in their deleter only; nothing is
    ever deallocated in the model, so both are the plain handle. *)
Definition Own (o : Object) : ObjectHolder := Some o.
Definition Share (a : addr) : ObjectHolder := Some (ClassInstanceAt a).
Definition ObjectHolder_None : ObjectHolder := None.

(** Modelled from the spec: [ObjectHolder::TryAs<T>] is a template of
    [runtime.h], which is not among the sources; it is the query on the
    dynamic type of the object held ("every try-as query becomes a variant
    match"), null on an empty holder.  The null pointer is [None]. *)
Definition TryAs_Number (h : ObjectHolder) : option Z :=
  match h with Some (Number v) => Some v | _ => None end.
Definition TryAs_String (h : ObjectHolder) : option string :=
  match h with Some (String s) => Some s | _ => None end.
Definition TryAs_Bool (h : ObjectHolder) : option bool :=
  match h with Some (Bool b) => Some b | _ => None end.
Definition TryAs_Class (h : ObjectHolder) : option Class :=
  match h with Some (ClassObject c) => Some c | _ => None end.
Definition TryAs_ClassInstance (h : ObjectHolder) : option addr :=
  match h with Some (ClassInstanceAt a) => Some a | _ => None end.

(** [std::string::empty]. *)
Definition string_empty (s : string) : bool :=
  match s with EmptyString => true | _ => false end.

(** [bool IsTrue(const ObjectHolder&)]. *)
Definition IsTrue (object : ObjectHolder) : bool :=
  match object with
  | None => false
  | Some _ =>
      match TryAs_Bool object with
      | Some v => Bool.eqb v true
      | None =>
          match TryAs_Number object with
          | Some v => negb (Z.eqb v 0)
          | None =>
              match TryAs_String object with
              | Some s => negb (string_empty s)
              | None => false
              end
          end
      end
  end.

(** [Class::Class]: the index is filled from the methods the parent itself
    declares ([parent_->methods_]) and then from the class's own, a later
    insertion under a name replacing an earlier one. *)
Definition index_methods (idx : gmap string Method) (ms : list Method)
  : gmap string Method :=
  foldl (fun acc method => <[Method_name method := method]> acc) idx ms.

Definition Class_new (name : string) (methods : list Method)
    (parent : option Class) : Class :=
  let from_parent :=
    match parent with
    | Some p => index_methods ∅ (Class_methods_ p)
    | None => ∅
    end in
  mkClass name methods parent (index_methods from_parent methods).

(** [Class::GetMethod]: [nullptr] is [None]. *)
Definition GetMethod (c : Class) (name : string) : option Method :=
  Class_names_methods_ c !! name.

(** [Class::GetName]. *)
Definition GetName (c : Class) : string := Class_name_ c.

(** [Closure]: a map from names to holders. *)
Abbreviation Closure := (gmap string (option Object)) (only parsing).

(** [ClassInstance]: the class it was built for and its field map. *)
Record ClassInstance : Type := mkClassInstance {
  cls_ : Class;
  fields_ : Closure
}.

(** [ClassInstance::ClassInstance(const Class&)]. *)
Definition ClassInstance_new (cls : Class) : ClassInstance :=
  mkClassInstance cls ∅.

(** [ClassInstance::HasMethod]. *)
Definition HasMethod (self : ClassInstance) (method : string)
    (argument_count : nat) : bool :=
  match GetMethod (cls_ self) method with
  | Some m => Nat.eqb (length (Method_formal_params m)) argument_count
  | None => false
  end.

(** *** The evaluation monad

    What a call of [Execute] can reach and change: the [Closure&] it is
    given, the output stream of its [Context&], the [ClassInstance] objects
    embedded in the [NewInstance] nodes of the tree and the [cls_] holders
    of its [ClassDefinition] nodes. *)
Record World : Type := mkWorld {
  closure : Closure;
  output : string;
  instances : gmap addr ClassInstance;
  holders : gmap addr ObjectHolder
}.

Definition set_closure (c : Closure) (w : World) : World :=
  mkWorld c (output w) (instances w) (holders w).
Definition set_output (o : string) (w : World) : World :=
  mkWorld (closure w) o (instances w) (holders w).
Definition set_instances (i : gmap addr ClassInstance) (w : World) : World :=
  mkWorld (closure w) (output w) i (holders w).
Definition set_holders (h : gmap addr ObjectHolder) (w : World) : World :=
  mkWorld (closure w) (output w) (instances w) h.

(** What the source throws: an [ObjectHolder] (by [Return]) or a
    [std::runtime_error]. *)
Inductive Exception : Type :=
| thrown_holder (result : ObjectHolder)
| runtime_error (what : string).

(** How a call ends.  [Undefined]: the program has no defined result (a
    null pointer was dereferenced, a signed operation overflowed, an
    [assert] failed). *)
Inductive Outcome (A : Type) : Type :=
| Normal (a : A)
| Thrown (e : Exception)
| Undefined
| OutOfFuel.
Arguments Normal {A} a.
Arguments Thrown {A} e.
Arguments Undefined {A}.
Arguments OutOfFuel {A}.

Definition M (A : Type) : Type := World -> Outcome A * World.

Definition ret {A} (a : A) : M A := fun w => (Normal a, w).
Definition throw {A} (e : Exception) : M A := fun w => (Thrown e, w).
Definition undefined {A} : M A := fun w => (Undefined, w).
Definition out_of_fuel {A} : M A := fun w => (OutOfFuel, w).

Definition bind {A B} (m : M A) (k : A -> M B) : M B :=
  fun w =>
    match m w with
    | (Normal a, w') => k a w'
    | (Thrown e, w') => (Thrown e, w')
    | (Undefined, w') => (Undefined, w')
    | (OutOfFuel, w') => (OutOfFuel, w')
    end.

Declare Scope eval_scope.
Delimit Scope eval_scope with eval.
Notation "x <~ m ;; k" := (bind m (fun x => k))
  (at level 100, m at next level, right associativity) : eval_scope.
Notation "m ;;; k" := (bind m (fun _ => k))
  (at level 100, right associativity) : eval_scope.
Local Open Scope eval_scope.

Definition get {A} (f : World -> A) : M A := fun w => (Normal (f w), w).
Definition modify (f : World -> World) : M unit := fun w => (Normal tt, f w).

(** [os << s] on the output stream of the context. *)
Definition write (s : string) : M unit :=
  modify (fun w => set_output (output w +:+ s) w).

(** Runs [m] on a closure of its own, as a callee does on its local
    [Closure]; the caller's closure is back in place afterwards, however
    [m] ends. *)
Definition with_closure {A} (c : Closure) (m : M A) : M A :=
  fun w =>
    let '(r, w') := m (set_closure c w) in
    (r, set_closure (closure w) w').

(** Runs [m] on a [DummyContext] and hands back what it wrote there. *)
Definition with_dummy_context {A} (m : M A) : M (A * string) :=
  fun w =>
    match m (set_output "" w) with
    | (Normal a, w') => (Normal (a, output w'), set_output (output w) w')
    | (Thrown e, w') => (Thrown e, set_output (output w) w')
    | (Undefined, w') => (Undefined, set_output (output w) w')
    | (OutOfFuel, w') => (OutOfFuel, set_output (output w) w')
    end.

(** Dereferences a pointer to a [ClassInstance]. *)
Definition instance_at (a : addr) : M ClassInstance :=
  fun w =>
    match instances w !! a with
    | Some inst => (Normal inst, w)
    | None => (Undefined, w)
    end.

(** Runs the statements or expressions of a vector in order, collecting
    what they return. *)
Fixpoint for_each {A B} (f : A -> M B) (l : list A) : M (list B) :=
  match l with
  | [] => ret []
  | x :: l' => v <~ f x ;; vs <~ for_each f l' ;; ret (v :: vs)
  end.

(** Arithmetic on [int]: a result outside of the 32 bits is undefined. *)
Definition int_min : Z := - 2 ^ 31.
Definition int_max : Z := 2 ^ 31 - 1.
Definition int_result (z : Z) : M Z :=
  if bool_decide (int_min ≤ z ≤ int_max)%Z then ret z else undefined.

(** [operator<] of [std::string]: lexicographic on the bytes. *)
Fixpoint string_less (a b : string) : bool :=
  match a, b with
  | _, EmptyString => false
  | EmptyString, String.String _ _ => true
  | String.String x a', String.String y b' =>
      if (nat_of_ascii x <? nat_of_ascii y)%nat then true
      else if (nat_of_ascii y <? nat_of_ascii x)%nat then false
      else string_less a' b'
  end.

(** *** Calls, printing and comparison

    Each takes [exec], the virtual [Executable::Execute] it calls method
    bodies with. *)
Section with_execute.
Variable exec : Statement -> M ObjectHolder.

(** The loop of [ClassInstance::Call] that binds the formal parameters:
    [closure[formal_params[i]] = actual_args[i]]. *)
Definition bind_params (c : Closure) (formal_params : list string)
    (actual_args : list ObjectHolder) : Closure :=
  foldl (fun acc p => <[p.1 := p.2]> acc) c (zip formal_params actual_args).

(** [ClassInstance::Call]. *)
Definition Call (this : addr) (method : string)
    (actual_args : list ObjectHolder) : M ObjectHolder :=
  self <~ instance_at this ;;
  if negb (HasMethod self method (length actual_args)) then
    throw (runtime_error "Not implemented")
  else
    match GetMethod (cls_ self) method with
    | None => undefined
    | Some method_ptr =>
        with_closure
          (bind_params {[ "self" := Share this ]}
                       (Method_formal_params method_ptr) actual_args)
          (exec (Method_body method_ptr))
    end.

(** [os << this]: how a pointer is written is left to the
    implementation. *)
Definition show_pointer (a : addr) : string := "0x" +:+ pretty (Z.pos a).

(** [Object::Print], by the dynamic type of the object; [print] is the
    same method, called on the result of [__str__].  [Bool::Print],
    [Class::Print] and [ClassInstance::Print] are those of [runtime.cpp];
    a [Number] and a [String] write their value ([os << value_] of the
    [ValueObject] template in [runtime.h]). *)
Definition Print_object (print : Object -> M unit) (o : Object) : M unit :=
  match o with
  | Number v => write (pretty v)
  | String s => write s
  | Bool v => write (if v then "True" else "False")
  | ClassObject c => write ("Class " +:+ GetName c)
  | ClassInstanceAt this =>
      self <~ instance_at this ;;
      if HasMethod self "__str__" 0 then
        r <~ Call this "__str__" [] ;;
        match r with
        | Some o' => print o'
        | None => undefined
        end
      else write (show_pointer this)
  end.

(** [lhs.TryAs<ClassInstance>() && lhs.TryAs<ClassInstance>()->HasMethod(m, 1)]. *)
Definition has_unary_method (lhs : ObjectHolder) (m : string) : M (option addr) :=
  match TryAs_ClassInstance lhs with
  | None => ret None
  | Some a =>
      self <~ instance_at a ;;
      ret (if HasMethod self m 1 then Some a else None)
  end.

(** [Call(m, {rhs}, context).TryAs<Bool>()->GetValue()]. *)
Definition call_for_bool (a : addr) (m : string) (rhs : ObjectHolder) : M bool :=
  r <~ Call a m [rhs] ;;
  match TryAs_Bool r with
  | Some b => ret b
  | None => undefined
  end.

(** [bool Equal(lhs, rhs, context)]. *)
Definition Equal_ (lhs rhs : ObjectHolder) : M bool :=
  match TryAs_Number lhs, TryAs_Number rhs with
  | Some l, Some r => ret (Z.eqb l r)
  | _, _ =>
    match TryAs_String lhs, TryAs_String rhs with
    | Some l, Some r => ret (bool_decide (l = r))
    | _, _ =>
      match TryAs_Bool lhs, TryAs_Bool rhs with
      | Some l, Some r => ret (Bool.eqb l r)
      | _, _ =>
        match lhs, rhs with
        | None, None => ret true
        | _, _ =>
          target <~ has_unary_method lhs "__eq__" ;;
          match target with
          | Some a => call_for_bool a "__eq__" rhs
          | None => throw (runtime_error "Cannot compare objects for equality")
          end
        end
      end
    end
  end.

(** [bool Less(lhs, rhs, context)]. *)
Definition Less_ (lhs rhs : ObjectHolder) : M bool :=
  match TryAs_Number lhs, TryAs_Number rhs with
  | Some l, Some r => ret (Z.ltb l r)
  | _, _ =>
    match TryAs_String lhs, TryAs_String rhs with
    | Some l, Some r => ret (string_less l r)
    | _, _ =>
      match TryAs_Bool lhs, TryAs_Bool rhs with
      | Some l, Some r => ret (negb l && r)
      | _, _ =>
        target <~ has_unary_method lhs "__lt__" ;;
        match target with
        | Some a => call_for_bool a "__lt__" rhs
        | None => throw (runtime_error "Cannot compare objects for less")
        end
      end
    end
  end.

(** [NotEqual], [Greater], [LessOrEqual], [GreaterOrEqual]; [&&] does not
    evaluate its right side when the left one is false. *)
Definition NotEqual_ (lhs rhs : ObjectHolder) : M bool :=
  b <~ Equal_ lhs rhs ;; ret (negb b).
Definition Greater_ (lhs rhs : ObjectHolder) : M bool :=
  l <~ Less_ lhs rhs ;;
  if negb l then (e <~ Equal_ lhs rhs ;; ret (negb e)) else ret false.
Definition LessOrEqual_ (lhs rhs : ObjectHolder) : M bool :=
  g <~ Greater_ lhs rhs ;; ret (negb g).
Definition GreaterOrEqual_ (lhs rhs : ObjectHolder) : M bool :=
  l <~ Less_ lhs rhs ;; ret (negb l).

(** Calling a [Comparator]. *)
Definition compare (cmp : Comparator) (lhs rhs : ObjectHolder) : M bool :=
  match cmp with
  | Equal => Equal_ lhs rhs
  | Less => Less_ lhs rhs
  | NotEqual => NotEqual_ lhs rhs
  | Greater => Greater_ lhs rhs
  | LessOrEqual => LessOrEqual_ lhs rhs
  | GreaterOrEqual => GreaterOrEqual_ lhs rhs
  end.
End with_execute.

End runtime.

(* ===================================================================== *)
(** ** namespace ast: [Execute] of every statement class *)
(* ===================================================================== *)

Module ast.
Import runtime.
Local Open Scope eval_scope.

Definition ADD_METHOD : string := "__add__".
Definition INIT_METHOD : string := "__init__".

(** [std::endl]. *)
Definition endl : string := String.String (ascii_of_nat 10) EmptyString.

(** The loop of [VariableValue::Execute]: [current_closure] is what
    [current_closure_ptr] points to, [result] the holder found last.  The
    pointer moves into the fields of the value just found when that value is
    a [ClassInstance], and stays where it is when it is not. *)
Fixpoint VariableValue_loop (current_closure : Closure) (result : ObjectHolder)
    (dotted_ids : list string) : M ObjectHolder :=
  match dotted_ids with
  | [] => ret result
  | var_name :: rest =>
      match current_closure !! var_name with
      | None => throw (runtime_error "Invalid argument name")
      | Some found =>
          match TryAs_ClassInstance found with
          | Some next_dotted_var =>
              inst <~ instance_at next_dotted_var ;;
              VariableValue_loop (fields_ inst) found rest
          | None => VariableValue_loop current_closure found rest
          end
      end
  end.

(** [VariableValue::Execute]. *)
Definition VariableValue_Execute (dotted_ids_ : list string) : M ObjectHolder :=
  if (0 <? length dotted_ids_)%nat then
    c <~ get closure ;;
    VariableValue_loop c None dotted_ids_
  else throw (runtime_error "No arguments specified").

Section with_execute.
Variable exec : Statement -> M ObjectHolder.
Variable print : Object -> M unit.

(** [Assignment::Execute]; the right side of [=] is evaluated before
    [closure[var_]]. *)
Definition Assignment_Execute (var_ : string) (rv_ : Statement) : M ObjectHolder :=
  v <~ exec rv_ ;;
  modify (fun w => set_closure (<[var_ := v]> (closure w)) w) ;;;
  ret v.

(** The loop of [Print::Execute]; [first] tells whether [arg] is
    [args_.front()]. *)
Fixpoint Print_loop (first : bool) (result : ObjectHolder)
    (args : list Statement) : M ObjectHolder :=
  match args with
  | [] => ret result
  | arg :: rest =>
      (if first then ret tt else write " ") ;;;
      r <~ exec arg ;;
      match r with
      | Some o => print o
      | None => write "None"
      end ;;;
      Print_loop false r rest
  end.

(** [Print::Execute]. *)
Definition Print_Execute (args_ : list Statement) : M ObjectHolder :=
  result <~ Print_loop true None args_ ;;
  write endl ;;;
  ret result.

(** [MethodCall::Execute]. *)
Definition MethodCall_Execute (object_ : option Statement) (method_ : string)
    (args_ : list Statement) : M ObjectHolder :=
  match object_ with
  | None => ret ObjectHolder_None
  | Some object =>
      obj <~ exec object ;;
      let obj_ptr := TryAs_ClassInstance obj in
      args_values <~ for_each exec args_ ;;
      match obj_ptr with
      | Some this => Call exec this method_ args_values
      | None => undefined
      end
  end.

(** [Stringify::Execute]. *)
Definition Stringify_Execute (argument_ : Statement) : M ObjectHolder :=
  obj <~ exec argument_ ;;
  match obj with
  | None => ret (Own (String "None"))
  | Some o =>
      r <~ with_dummy_context (print o) ;;
      ret (Own (String r.2))
  end.

(** [Add::Execute]. *)
Definition Add_Execute (lhs_ rhs_ : option Statement) : M ObjectHolder :=
  match rhs_, lhs_ with
  | Some rhs, Some lhs =>
      lhs_res <~ exec lhs ;;
      rhs_res <~ exec rhs ;;
      match TryAs_Number lhs_res, TryAs_Number rhs_res with
      | Some l, Some r => z <~ int_result (l + r) ;; ret (Own (Number z))
      | _, _ =>
        match TryAs_String lhs_res, TryAs_String rhs_res with
        | Some l, Some r => ret (Own (String (l +:+ r)))
        | _, _ =>
          match TryAs_ClassInstance lhs_res with
          | Some lhs_class_inst =>
              self <~ instance_at lhs_class_inst ;;
              if HasMethod self ADD_METHOD 1 then
                Call exec lhs_class_inst ADD_METHOD [rhs_res]
              else throw (runtime_error "Wrong types for add operation")
          | None => throw (runtime_error "Wrong types for add operation")
          end
        end
      end
  | _, _ => throw (runtime_error "null operands are not supported")
  end.

(** [Sub::Execute]. *)
Definition Sub_Execute (lhs_ rhs_ : option Statement) : M ObjectHolder :=
  match rhs_, lhs_ with
  | Some rhs, Some lhs =>
      lhs_res <~ exec lhs ;;
      rhs_res <~ exec rhs ;;
      match TryAs_Number lhs_res, TryAs_Number rhs_res with
      | Some l, Some r => z <~ int_result (l - r) ;; ret (Own (Number z))
      | _, _ => throw (runtime_error "Wrong types for sub operation")
      end
  | _, _ => throw (runtime_error "null operands are not supported")
  end.

(** [Mult::Execute]. *)
Definition Mult_Execute (lhs_ rhs_ : option Statement) : M ObjectHolder :=
  match rhs_, lhs_ with
  | Some rhs, Some lhs =>
      lhs_res <~ exec lhs ;;
      rhs_res <~ exec rhs ;;
      match TryAs_Number lhs_res, TryAs_Number rhs_res with
      | Some l, Some r => z <~ int_result (l * r) ;; ret (Own (Number z))
      | _, _ => throw (runtime_error "Wrong types for mult operation")
      end
  | _, _ => throw (runtime_error "null operands are not supported")
  end.

(** [Div::Execute]; [/] on [int] truncates towards zero. *)
Definition Div_Execute (lhs_ rhs_ : option Statement) : M ObjectHolder :=
  match rhs_, lhs_ with
  | Some rhs, Some lhs =>
      lhs_res <~ exec lhs ;;
      rhs_res <~ exec rhs ;;
      match TryAs_Number lhs_res, TryAs_Number rhs_res with
      | Some l, Some r =>
          if Z.eqb r 0 then throw (runtime_error "Division by zero")
          else z <~ int_result (Z.quot l r) ;; ret (Own (Number z))
      | _, _ => throw (runtime_error "Wrong types for div operation")
      end
  | _, _ => throw (runtime_error "null operands are not supported")
  end.

(** [Compound::Execute]. *)
Definition Compound_Execute (stmt_ : list Statement) : M ObjectHolder :=
  for_each exec stmt_ ;;;
  ret ObjectHolder_None.

(** [Return::Execute]: [throw statement_->Execute(closure, context)]. *)
Definition Return_Execute (statement_ : Statement) : M ObjectHolder :=
  result <~ exec statement_ ;;
  throw (thrown_holder result).

(** [ClassDefinition::Execute]; [std::move(cls_)] leaves the node's own
    holder empty. *)
Definition ClassDefinition_Execute (cls_ : addr) : M ObjectHolder :=
  hs <~ get holders ;;
  match hs !! cls_ with
  | None => undefined
  | Some holder =>
      match TryAs_Class holder with
      | None => undefined
      | Some obj =>
          modify (fun w => set_closure (<[GetName obj := holder]> (closure w)) w) ;;;
          modify (fun w => set_holders (<[cls_ := None]> (holders w)) w) ;;;
          ret ObjectHolder_None
      end
  end.

(** [FieldAssignment::Execute]; the right side of [=] is evaluated before
    [obj_ptr->Fields()], where [obj_ptr] is dereferenced. *)
Definition FieldAssignment_Execute (object_ : list string)
    (field_name_ : string) (rv_ : Statement) : M ObjectHolder :=
  obj <~ VariableValue_Execute object_ ;;
  let obj_ptr := TryAs_ClassInstance obj in
  v <~ exec rv_ ;;
  match obj_ptr with
  | None => undefined
  | Some a =>
      inst <~ instance_at a ;;
      modify (fun w =>
        set_instances
          (<[a := mkClassInstance (runtime.cls_ inst)
                    (<[field_name_ := v]> (fields_ inst))]> (instances w)) w) ;;;
      ret v
  end.

(** [IfElse::Execute]. *)
Definition IfElse_Execute (condition_ if_body_ : Statement)
    (else_body_ : option Statement) : M ObjectHolder :=
  condition_result <~ exec condition_ ;;
  if IsTrue condition_result then exec if_body_
  else
    match else_body_ with
    | Some else_body => exec else_body
    | None => ret ObjectHolder_None
    end.

(** [Or::Execute]. *)
Definition Or_Execute (lhs_ rhs_ : option Statement) : M ObjectHolder :=
  match rhs_, lhs_ with
  | Some rhs, Some lhs =>
      lhs_res <~ exec lhs ;;
      rhs_res <~ exec rhs ;;
      if IsTrue lhs_res then ret (Own (Bool true))
      else if IsTrue rhs_res then ret (Own (Bool true))
      else ret (Own (Bool false))
  | _, _ => throw (runtime_error "null operands are not supported")
  end.

(** [And::Execute]. *)
Definition And_Execute (lhs_ rhs_ : option Statement) : M ObjectHolder :=
  match rhs_, lhs_ with
  | Some rhs, Some lhs =>
      lhs_res <~ exec lhs ;;
      rhs_res <~ exec rhs ;;
      if IsTrue lhs_res && IsTrue rhs_res then ret (Own (Bool true))
      else ret (Own (Bool false))
  | _, _ => throw (runtime_error "null operands are not supported")
  end.

(** [Not::Execute]. *)
Definition Not_Execute (argument_ : option Statement) : M ObjectHolder :=
  match argument_ with
  | None => throw (runtime_error "null operands are not supported")
  | Some argument =>
      obj <~ exec argument ;;
      let res := IsTrue obj in
      ret (Own (Bool (negb res)))
  end.

(** [Comparison::Execute]. *)
Definition Comparison_Execute (cmp_ : Comparator)
    (lhs_ rhs_ : option Statement) : M ObjectHolder :=
  match rhs_, lhs_ with
  | Some rhs, Some lhs =>
      lhs_res <~ exec lhs ;;
      rhs_res <~ exec rhs ;;
      res <~ compare exec cmp_ lhs_res rhs_res ;;
      ret (Own (Bool res))
  | _, _ => throw (runtime_error "null operands are not supported")
  end.

(** [NewInstance::Execute]; [class_inst_] is the address of the
    [ClassInstance] the node embeds. *)
Definition NewInstance_Execute (class_inst_ : addr)
    (args_ : list Statement) : M ObjectHolder :=
  args_values <~ for_each exec args_ ;;
  self <~ instance_at class_inst_ ;;
  (if HasMethod self INIT_METHOD (length args_) then
     Call exec class_inst_ INIT_METHOD args_values ;;; ret tt
   else ret tt) ;;;
  ret (Share class_inst_).

(** [MethodBody::Execute]: the one [try] of the evaluator. *)
Definition MethodBody_Execute (body_ : Statement) : M ObjectHolder :=
  fun w =>
    match exec body_ w with
    | (Normal _, w') => (Normal ObjectHolder_None, w')
    | (Thrown (thrown_holder result), w') => (Normal result, w')
    | (Thrown e, w') => (Thrown e, w')
    | (Undefined, w') => (Undefined, w')
    | (OutOfFuel, w') => (OutOfFuel, w')
    end.

(** The virtual call [statement->Execute(closure, context)]. *)
Definition Statement_Execute (s : Statement) : M ObjectHolder :=
  match s with
  | Assignment var_ rv_ => Assignment_Execute var_ rv_
  | VariableValue dotted_ids_ => VariableValue_Execute dotted_ids_
  | Print args_ => Print_Execute args_
  | MethodCall object_ method_ args_ => MethodCall_Execute object_ method_ args_
  | Stringify argument_ => Stringify_Execute argument_
  | Add lhs_ rhs_ => Add_Execute lhs_ rhs_
  | Sub lhs_ rhs_ => Sub_Execute lhs_ rhs_
  | Mult lhs_ rhs_ => Mult_Execute lhs_ rhs_
  | Div lhs_ rhs_ => Div_Execute lhs_ rhs_
  | Compound stmt_ => Compound_Execute stmt_
  | Return statement_ => Return_Execute statement_
  | ClassDefinition cls_ => ClassDefinition_Execute cls_
  | FieldAssignment object_ field_name_ rv_ =>
      FieldAssignment_Execute object_ field_name_ rv_
  | IfElse condition_ if_body_ else_body_ =>
      IfElse_Execute condition_ if_body_ else_body_
  | Or lhs_ rhs_ => Or_Execute lhs_ rhs_
  | And lhs_ rhs_ => And_Execute lhs_ rhs_
  | Not argument_ => Not_Execute argument_
  | Comparison cmp_ lhs_ rhs_ => Comparison_Execute cmp_ lhs_ rhs_
  | NewInstance class_inst_ args_ => NewInstance_Execute class_inst_ args_
  | MethodBody body_ => MethodBody_Execute body_
  end.
End with_execute.

(** [Execute] and [Object::Print] with the recursion closed; [fuel] bounds
    the depth of nested calls. *)
Fixpoint Execute (fuel : nat) (s : Statement) : M ObjectHolder :=
  match fuel with
  | O => out_of_fuel
  | S n => Statement_Execute (Execute n) (Object_Print n) s
  end
with Object_Print (fuel : nat) (o : Object) : M unit :=
  match fuel with
  | O => out_of_fuel
  | S n => Print_object (Execute n) (Object_Print n) o
  end.

(** The constructors of the nodes that own an object with an identity
    allocate it: [NewInstance::NewInstance] builds [class_inst_(class_)],
    [ClassDefinition::ClassDefinition] takes the holder of the class. *)
Definition NewInstance_new (class_ : Class) (args : list Statement)
    (w : World) : Statement * World :=
  let a := fresh (dom (instances w)) in
  (NewInstance a args,
   set_instances (<[a := ClassInstance_new class_]> (instances w)) w).

Definition ClassDefinition_new (cls : ObjectHolder) (w : World)
    : Statement * World :=
  let a := fresh (dom (holders w)) in
  (ClassDefinition a, set_holders (<[a := cls]> (holders w)) w).

End ast.

(* ===================================================================== *)
(** ** namespace parse: the lexer *)
(* ===================================================================== *)

Module parse.

(** *** Tokens *)
Module token_type.

(** The alternatives of [Token], as [operator<<] lists them: four with a
    value, twenty without. *)
Inductive Token : Type :=
| Number (value : Z)
| Id (value : string)
| String (value : string)
| Char (value : ascii)
| Class | Return | If | Else | Def | Newline | Print | Indent | Dedent
| And | Or | Not | Eq | NotEq | LessOrEq | GreaterOrEq
| None | True | False | Eof.

End token_type.

Abbreviation Token := token_type.Token (only parsing).

(** [Token::index()]: which alternative of the variant a token holds; only
    whether two indices agree is ever used. *)
Definition index (t : Token) : nat :=
  match t with
  | token_type.Number _ => 0 | token_type.Id _ => 1
  | token_type.Char _ => 2 | token_type.String _ => 3
  | token_type.Class => 4 | token_type.Return => 5 | token_type.If => 6
  | token_type.Else => 7 | token_type.Def => 8 | token_type.Newline => 9
  | token_type.Print => 10 | token_type.Indent => 11
  | token_type.Dedent => 12 | token_type.And => 13 | token_type.Or => 14
  | token_type.Not => 15 | token_type.Eq => 16 | token_type.NotEq => 17
  | token_type.LessOrEq => 18 | token_type.GreaterOrEq => 19
  | token_type.None => 20 | token_type.True => 21 | token_type.False => 22
  | token_type.Eof => 23
  end.

(** [bool operator==(const Token&, const Token&)]. *)
Definition Token_eq (lhs rhs : Token) : bool :=
  if negb (Nat.eqb (index lhs) (index rhs)) then false
  else
    match lhs, rhs with
    | token_type.Char a, token_type.Char b => Ascii.eqb a b
    | token_type.Number a, token_type.Number b => Z.eqb a b
    | token_type.String a, token_type.String b => String.eqb a b
    | token_type.Id a, token_type.Id b => String.eqb a b
    | _, _ => true
    end.

(** [bool operator!=(const Token&, const Token&)]. *)
Definition Token_ne (lhs rhs : Token) : bool := negb (Token_eq lhs rhs).

(** *** Characters *)
Definition newline : ascii := ascii_of_nat 10.
Definition carriage_return : ascii := ascii_of_nat 13.
Definition tab : ascii := ascii_of_nat 9.
Definition space : ascii := ascii_of_nat 32.
Definition double_quote : ascii := ascii_of_nat 34.
Definition single_quote : ascii := ascii_of_nat 39.
Definition backslash : ascii := ascii_of_nat 92.
Definition hash : ascii := ascii_of_nat 35.
Definition underscore : ascii := ascii_of_nat 95.

(** [<cctype>] in the "C" locale; a [char] above 127 is in none of the
    classes. *)
Definition between (lo hi : nat) (c : ascii) : bool :=
  (lo <=? nat_of_ascii c)%nat && (nat_of_ascii c <=? hi)%nat.
Definition isdigit (c : ascii) : bool := between 48 57 c.
Definition isalpha (c : ascii) : bool := between 65 90 c || between 97 122 c.
Definition isalnum (c : ascii) : bool := isalpha c || isdigit c.
Definition ispunct (c : ascii) : bool :=
  between 33 47 c || between 58 64 c || between 91 96 c || between 123 126 c.

(** [str.push_back(c)]. *)
Definition push_back (str : string) (c : ascii) : string :=
  str +:+ String.String c EmptyString.

(** *** The input stream

    A [std::istream] over a buffer held in memory: the characters already
    extracted ([behind], the last one first), the ones still to come
    ([ahead]) and the state bits.  The member functions are those of
    [std::basic_istream] since C++11: each first builds a sentry, which
    sets [failbit] on a stream that is not good, and [putback] clears
    [eofbit] before it does. *)
Record istream : Type := mkIstream {
  behind : list ascii;
  ahead : list ascii;
  eofbit : bool;
  failbit : bool;
  badbit : bool
}.

Definition istream_of (s : list ascii) : istream :=
  mkIstream [] s false false false.

Definition good (input : istream) : bool :=
  negb (eofbit input || failbit input || badbit input).

(** [rdstate() == std::ios_base::eofbit]. *)
Definition rdstate_is_eofbit (input : istream) : bool :=
  eofbit input && negb (failbit input) && negb (badbit input).

Definition set_failbit (input : istream) : istream :=
  mkIstream (behind input) (ahead input) (eofbit input) true (badbit input).
Definition set_eofbit (input : istream) : istream :=
  mkIstream (behind input) (ahead input) true (failbit input) (badbit input).
Definition set_badbit (input : istream) : istream :=
  mkIstream (behind input) (ahead input) (eofbit input) (failbit input) true.
Definition clear_eofbit (input : istream) : istream :=
  mkIstream (behind input) (ahead input) false (failbit input) (badbit input).

(** [input.get(c)] and [input.get()]: [None] when nothing was extracted,
    which is when the stream tests false afterwards. *)
Definition get (input : istream) : option ascii * istream :=
  if good input then
    match ahead input with
    | c :: rest =>
        (Some c, mkIstream (c :: behind input) rest false false false)
    | [] => (None, set_failbit (set_eofbit input))
    end
  else (None, set_failbit input).

(** [input.peek()]: [None] is [Traits::eof()]. *)
Definition peek (input : istream) : option ascii * istream :=
  if good input then
    match ahead input with
    | c :: _ => (Some c, input)
    | [] => (None, set_eofbit input)
    end
  else (None, set_failbit input).

(** [input.putback(c)]: clears [eofbit] first, then needs a good stream and
    a character to step back over. *)
Definition putback (c : ascii) (input : istream) : istream :=
  let input := clear_eofbit input in
  if good input then
    match behind input with
    | _ :: before => mkIstream before (c :: ahead input) false false false
    | [] => set_badbit input
    end
  else set_failbit input.

(** The conversion of the [int] a [peek()] or [get()] returns to [char]:
    [Traits::eof()] becomes the character 255. *)
Definition to_char (c : option ascii) : ascii :=
  match c with Some c => c | None => ascii_of_nat 255 end.

(** What stands for a [char] that a failed [get(c)] left unset where the
    embedding hands one to a [putback]: the stream has failed then, and
    [putback] ignores its argument. *)
Definition indeterminate : ascii := ascii_of_nat 0.

(** *** The lexer *)
Inductive exception : Type :=
| logic_error (what : string)
| out_of_range (what : string).

Record Lexer : Type := mkLexer {
  tokens_ : list Token;
  space_count_ : Z;
  input_ : istream
}.

Definition set_input (i : istream) (l : Lexer) : Lexer :=
  mkLexer (tokens_ l) (space_count_ l) i.
Definition set_space_count (n : Z) (l : Lexer) : Lexer :=
  mkLexer (tokens_ l) n (input_ l).

(** [tokens_.emplace_back(t)]. *)
Definition emplace_back (t : Token) (l : Lexer) : Lexer :=
  mkLexer (tokens_ l ++ [t]) (space_count_ l) (input_ l).

(** [!tokens_.empty() && tokens_.back() != t]. *)
Definition back_is_not (t : Token) (l : Lexer) : bool :=
  match last (tokens_ l) with
  | Some b => Token_ne b t
  | None => false
  end.

(** How a method of the lexer ends.  [Undefined]: it read a [char] that was
    never set. *)
Inductive Outcome : Type :=
| Done (l : Lexer)
| Throw (e : exception)
| Undefined
| OutOfFuel.

Definition then_ (f g : Lexer -> Outcome) : Lexer -> Outcome :=
  fun l => match f l with Done l' => g l' | r => r end.
Infix ">>" := then_ (at level 61, left associativity).

Definition INDENT_SPACES_COUNT : Z := 2.

(** Modelled from the spec: the keyword table [keywords_] of the lexer's
    header, which is not among the sources:
    [class return if else def print and or not None True False]. *)
Definition keywords_ : gmap string Token :=
  list_to_map
    [("class", token_type.Class); ("return", token_type.Return);
     ("if", token_type.If); ("else", token_type.Else);
     ("def", token_type.Def); ("print", token_type.Print);
     ("and", token_type.And); ("or", token_type.Or);
     ("not", token_type.Not); ("None", token_type.None);
     ("True", token_type.True); ("False", token_type.False)].

(** [std::getline(input, comment, delim)], the line itself dropped: the
    characters up to and with the first [delim] are extracted; reaching the
    end of the buffer sets [eofbit], and extracting nothing sets
    [failbit]. *)
Fixpoint getline_scan (delim : ascii) (behind ahead : list ascii) : istream :=
  match ahead with
  | [] => mkIstream behind [] true false false
  | c :: rest =>
      if Ascii.eqb c delim then mkIstream (c :: behind) rest false false false
      else getline_scan delim (c :: behind) rest
  end.

Definition getline (delim : ascii) (input : istream) : istream :=
  if good input then
    match ahead input with
    | [] => set_failbit (set_eofbit input)
    | _ => getline_scan delim (behind input) (ahead input)
    end
  else set_failbit input.

(** [std::stoi] on a non-empty string of decimal digits: the value, or
    [std::out_of_range] when it does not fit an [int]. *)
Definition digit_value (c : ascii) : Z := Z.of_nat (nat_of_ascii c) - 48.

Fixpoint decimal (acc : Z) (num : string) : Z :=
  match num with
  | EmptyString => acc
  | String.String c rest => decimal (10 * acc + digit_value c) rest
  end.

Definition stoi (num : string) : exception + Z :=
  let v := decimal 0 num in
  if (v <=? 2 ^ 31 - 1)%Z then inr v else inl (out_of_range "stoi").

(** What a loop of a scanner hands back: the value it built and the stream
    behind it, an exception, or [Starved] when [fuel] did not cover its
    iterations. *)
Inductive Scan (A : Type) : Type :=
| Finished (a : A) (input : istream)
| Raised (e : exception)
| Starved.
Arguments Finished {A} a input.
Arguments Raised {A} e.
Arguments Starved {A}.

(** [Lexer::SkipSpaces]: [while (input.peek() == ' ') input.get();]. *)
Fixpoint SkipSpaces_loop (fuel : nat) (input : istream) : Scan unit :=
  match fuel with
  | O => Starved
  | S fuel' =>
      match peek input with
      | (Some c, input) =>
          if Ascii.eqb c space then SkipSpaces_loop fuel' (get input).2
          else Finished tt input
      | (None, input) => Finished tt input
      end
  end.

Definition SkipSpaces (fuel : nat) (l : Lexer) : Outcome :=
  match SkipSpaces_loop fuel (input_ l) with
  | Finished _ input => Done (set_input input l)
  | Raised e => Throw e
  | Starved => OutOfFuel
  end.

(** [Lexer::SkipComment]. *)
Definition SkipComment (l : Lexer) : Outcome :=
  match get (input_ l) with
  | (Some current_char, input) =>
      if Ascii.eqb current_char hash then
        let input := getline newline input in
        if negb (rdstate_is_eofbit input) then
          Done (set_input (putback newline input) l)
        else Done (set_input input l)
      else Done (set_input (putback current_char input) l)
  | (None, input) => Undefined
  end.

(** [Lexer::ParseChar]. *)
Definition ParseChar (l : Lexer) : Outcome :=
  let '(peeked, input) := peek (input_ l) in
  let current_char := to_char peeked in
  let l := set_input input l in
  if ispunct current_char then
    if Ascii.eqb current_char hash then SkipComment l
    else
      match get (input_ l) with
      | (Some current_char, input) =>
          Done (emplace_back (token_type.Char current_char) (set_input input l))
      | (None, input) =>
          Done (emplace_back (token_type.Char current_char) (set_input input l))
      end
  else Done l.

(** [Lexer::ParseComparisonOperators].  When [get] fails, [current_char] is
    unset, and the source still compares it, as the left operand of each
    [&&].  That read is not followed here: the comparison is taken as
    false.  [peek] fails as well then and [next_char] is not ['='], so the
    last branch is taken whatever the char holds
    ([ParseComparisonOperators_reading] below has it explicit), and its
    [putback] acts on a failed stream. *)
Definition ParseComparisonOperators (l : Lexer) : Outcome :=
  let '(current_char, input) := get (input_ l) in
  let '(peeked, input) := peek input in
  let next_char := to_char peeked in
  let current_is c :=
    match current_char with
    | Some current_char => Ascii.eqb current_char c
    | None => false
    end in
  let emit t := Done (emplace_back t (set_input (get input).2 l)) in
  if current_is "="%char && Ascii.eqb next_char "="%char then emit token_type.Eq
  else if current_is ">"%char && Ascii.eqb next_char "="%char then
    emit token_type.GreaterOrEq
  else if current_is "<"%char && Ascii.eqb next_char "="%char then
    emit token_type.LessOrEq
  else if current_is "!"%char && Ascii.eqb next_char "="%char then
    emit token_type.NotEq
  else
    Done (set_input (putback (default indeterminate current_char) input) l).

(** [Lexer::ParseComparisonOperators] with what the unset [current_char]
    holds made explicit: [unset] is the content of the [char] when [get]
    fails and leaves it as it was. *)
Definition ParseComparisonOperators_reading (unset : ascii) (l : Lexer)
    : Outcome :=
  let '(got, input) := get (input_ l) in
  let current_char := default unset got in
  let '(peeked, input) := peek input in
  let next_char := to_char peeked in
  let emit t := Done (emplace_back t (set_input (get input).2 l)) in
  if Ascii.eqb current_char "="%char && Ascii.eqb next_char "="%char then
    emit token_type.Eq
  else if Ascii.eqb current_char ">"%char && Ascii.eqb next_char "="%char then
    emit token_type.GreaterOrEq
  else if Ascii.eqb current_char "<"%char && Ascii.eqb next_char "="%char then
    emit token_type.LessOrEq
  else if Ascii.eqb current_char "!"%char && Ascii.eqb next_char "="%char then
    emit token_type.NotEq
  else Done (set_input (putback current_char input) l).

(** The loop of [Lexer::ParseIndent] that counts the leading spaces; it
    hands back the count and [current_char]. *)
Fixpoint ParseIndent_loop (fuel : nat) (spaces_count : Z) (input : istream)
    : Scan (Z * option ascii) :=
  match fuel with
  | O => Starved
  | S fuel' =>
      match get input with
      | (Some current_char, input) =>
          if Ascii.eqb current_char space then
            ParseIndent_loop fuel' (spaces_count + 1) input
          else Finished (spaces_count, Some current_char) input
      | (None, input) => Finished (spaces_count, None) input
      end
  end.

(** [Lexer::ParseIndent]; [/] on [int] truncates towards zero. *)
Definition ParseIndent (fuel : nat) (l : Lexer) : Outcome :=
  match ParseIndent_loop fuel 0 (input_ l) with
  | Finished (spaces_count, current_char) input =>
      let input :=
        if negb (rdstate_is_eofbit input) then
          putback (default indeterminate current_char) input
        else input in
      let '(peeked, input) := peek input in
      let next_char := to_char peeked in
      let l := set_input input l in
      if Ascii.eqb next_char newline || Ascii.eqb next_char hash then Done l
      else
        let indents_count :=
          Z.quot (spaces_count - space_count_ l) INDENT_SPACES_COUNT in
        let l := set_space_count spaces_count l in
        let indent_type :=
          if (0 <? indents_count)%Z then token_type.Indent
          else token_type.Dedent in
        Done (mkLexer
                (tokens_ l ++ replicate (Z.to_nat (Z.abs indents_count)) indent_type)
                (space_count_ l) (input_ l))
  | Raised e => Throw e
  | Starved => OutOfFuel
  end.

(** [Lexer::ParseNewLine]. *)
Definition ParseNewLine (fuel : nat) (l : Lexer) : Outcome :=
  match get (input_ l) with
  | (Some current_char, input) =>
      let l := set_input input l in
      if Ascii.eqb current_char newline then
        let l :=
          if back_is_not token_type.Newline l then
            emplace_back token_type.Newline l
          else l in
        ParseIndent fuel l
      else Done (set_input (putback current_char input) l)
  | (None, input) => Undefined
  end.

(** The [switch] of [Lexer::ParseStrings] over the character after a
    backslash; [None] is its [default]. *)
Definition escape (esc_char : ascii) : option ascii :=
  if Ascii.eqb esc_char "n"%char then Some newline
  else if Ascii.eqb esc_char "t"%char then Some tab
  else if Ascii.eqb esc_char "r"%char then Some carriage_return
  else if Ascii.eqb esc_char double_quote then Some double_quote
  else if Ascii.eqb esc_char single_quote then Some single_quote
  else if Ascii.eqb esc_char backslash then Some backslash
  else None.

(** The loop of [Lexer::ParseStrings]. *)
Fixpoint ParseStrings_loop (fuel : nat) (open_char : ascii) (str : string)
    (input : istream) : Scan string :=
  match fuel with
  | O => Starved
  | S fuel' =>
      match get input with
      | (Some current_char, input) =>
          if Ascii.eqb current_char open_char then Finished str input
          else if Ascii.eqb current_char backslash then
            match get input with
            | (Some esc_char, input) =>
                match escape esc_char with
                | Some c =>
                    ParseStrings_loop fuel' open_char (push_back str c) input
                | None =>
                    Raised (logic_error
                      (push_back "Unrecognized escape sequence \" esc_char))
                end
            | (None, input) => ParseStrings_loop fuel' open_char str input
            end
          else if Ascii.eqb current_char newline
                  || Ascii.eqb current_char carriage_return then
            Raised (logic_error "Unexpected end of line")
          else
            ParseStrings_loop fuel' open_char (push_back str current_char) input
      | (None, input) => Finished str input
      end
  end.

(** [Lexer::ParseStrings]. *)
Definition ParseStrings (fuel : nat) (l : Lexer) : Outcome :=
  let '(got, input) := get (input_ l) in
  let open_char := to_char got in
  if Ascii.eqb open_char single_quote || Ascii.eqb open_char double_quote then
    match ParseStrings_loop fuel open_char "" input with
    | Finished str input =>
        Done (emplace_back (token_type.String str) (set_input input l))
    | Raised e => Throw e
    | Starved => OutOfFuel
    end
  else Done (set_input (putback open_char input) l).

(** The loops of [Lexer::ParseNumbers] and [Lexer::ParseId], which differ
    in the class of characters they keep: [while (input.get(c))], push [c]
    when it is in the class, else put it back and stop. *)
Fixpoint scan_while (fuel : nat) (keep : ascii -> bool) (str : string)
    (input : istream) : Scan string :=
  match fuel with
  | O => Starved
  | S fuel' =>
      match get input with
      | (Some current_char, input) =>
          if keep current_char then
            scan_while fuel' keep (push_back str current_char) input
          else Finished str (putback current_char input)
      | (None, input) => Finished str input
      end
  end.

(** [Lexer::ParseNumbers]. *)
Definition ParseNumbers (fuel : nat) (l : Lexer) : Outcome :=
  let '(peeked, input) := peek (input_ l) in
  let current_char := to_char peeked in
  if isdigit current_char then
    match scan_while fuel isdigit "" input with
    | Finished num input =>
        match stoi num with
        | inr result_num =>
            Done (emplace_back (token_type.Number result_num) (set_input input l))
        | inl e => Throw e
        end
    | Raised e => Throw e
    | Starved => OutOfFuel
    end
  else Done (set_input input l).

(** [Lexer::ParseId]. *)
Definition ParseId (fuel : nat) (l : Lexer) : Outcome :=
  let '(peeked, input) := peek (input_ l) in
  let current_char := to_char peeked in
  if isalpha current_char || Ascii.eqb current_char underscore then
    match scan_while fuel (fun c => isalnum c || Ascii.eqb c underscore) "" input with
    | Finished id input =>
        match keywords_ !! id with
        | Some keyword => Done (emplace_back keyword (set_input input l))
        | None => Done (emplace_back (token_type.Id id) (set_input input l))
        end
    | Raised e => Throw e
    | Starved => OutOfFuel
    end
  else Done (set_input input l).

(** One turn of the loop of [Lexer::ParseTokens]. *)
Definition ParseTokens_body (fuel : nat) : Lexer -> Outcome :=
  ParseNewLine fuel >> ParseStrings fuel >> ParseId fuel
  >> ParseComparisonOperators >> ParseChar >> ParseNumbers fuel
  >> SkipSpaces fuel.

(** The loop of [Lexer::ParseTokens]; [turns] bounds how often it runs. *)
Fixpoint ParseTokens_loop (fuel turns : nat) (l : Lexer) : Outcome :=
  match turns with
  | O => OutOfFuel
  | S turns' =>
      match get (input_ l) with
      | (Some current_char, input) =>
          match ParseTokens_body fuel (set_input (putback current_char input) l) with
          | Done l => ParseTokens_loop fuel turns' l
          | r => r
          end
      | (None, input) => Done (set_input input l)
      end
  end.

(** [Lexer::ParseTokens]. *)
Definition ParseTokens (fuel : nat) (l : Lexer) : Outcome :=
  let l := mkLexer [] (space_count_ l) (input_ l) in
  match ParseTokens_loop fuel fuel l with
  | Done l =>
      let l :=
        if back_is_not token_type.Newline l && back_is_not token_type.Dedent l
        then emplace_back token_type.Newline l
        else l in
      Done (emplace_back token_type.Eof l)
  | r => r
  end.

(** Modelled from the spec: the initial value of [space_count_], the
    "current indent" of the lexer, which its header sets and which is not
    among the sources: no indentation. *)
Definition initial_space_count : Z := 0.

(** [Lexer::Lexer(std::istream&)]. *)
Definition Lexer_new (fuel : nat) (input : istream) : Outcome :=
  ParseTokens fuel (mkLexer [] initial_space_count input).

(** A lex pass over a text: the tokens, when the lexer is built. *)
Definition lex (fuel : nat) (text : string) : option (list Token) :=
  match Lexer_new fuel (istream_of (list_ascii_of_string text)) with
  | Done l => Some (tokens_ l)
  | _ => None
  end.

(** *** The cursor over the tokens *)

(** [current_token_] is an iterator into [tokens_]; it is held as its
    distance from [tokens_.begin()], which is where [ParseTokens] leaves
    it.  [Lexer::CurrentToken]: [None] when the iterator is not one of an
    element. *)
Definition CurrentToken (l : Lexer) (current_token_ : nat) : option Token :=
  tokens_ l !! current_token_.

(** [Lexer::NextToken]: the token, [None] as for [CurrentToken], and
    where [current_token_] is afterwards. *)
Definition NextToken (l : Lexer) (current_token_ : nat) : option Token * nat :=
  if Nat.eqb (current_token_ + 1) (length (tokens_ l)) then
    (Some token_type.Eof, current_token_)
  else (tokens_ l !! (current_token_ + 1), current_token_ + 1).

End parse.

(* ===================================================================== *)
(** * The terms the properties are stated in *)
(* ===================================================================== *)

Section EvaluatorTerms.
Import runtime ast.

(** The method a list declares under a name: the last one of that name, as
    later insertions replace earlier ones. *)
Fixpoint declared_in (ms : list Method) (x : string) : option Method :=
  match ms with
  | [] => None
  | m :: ms' =>
      match declared_in ms' x with
      | Some m' => Some m'
      | None => if decide (Method_name m = x) then Some m else None
      end
  end.

(** A class [A] with one method [get()], which returns [self], and an
    instance of it at address 1, bound to [a]. *)
Definition example_class : Class :=
  Class_new "A" [mkMethod "get" [] (MethodBody (Return (VariableValue ["self"])))]
            None.

Definition example_instance_world : World :=
  mkWorld (<["a" := Share 1%positive]> (<["x" := Own (Number 1)]>
             (<["none" := ObjectHolder_None]> ∅)))
          "" (<[1%positive := ClassInstance_new example_class]> ∅) ∅.

(** A world to run examples in: [x] is bound to [1], [y] to [2], [none] to
    the empty holder. *)
Definition example_world : World :=
  mkWorld (<["x" := Own (Number 1)]> (<["y" := Own (Number 2)]>
             (<["none" := ObjectHolder_None]> ∅))) "" ∅ ∅.

(** An instance of [A] at address 1 with the field [v = 10], bound to
    [p]; [x] and [y] are numbers. *)
Definition example_fields_world : World :=
  mkWorld (<["p" := Share 1%positive]> (<["x" := Own (Number 1)]>
             (<["y" := Own (Number 2)]> ∅)))
          ""
          (<[1%positive := mkClassInstance example_class
                             (<["v" := Own (Number 10)]> ∅)]> ∅)
          ∅.

(** A class [P] whose [__init__(v)] stores [v] in the field [v], and an
    instance of it at address 2, without fields yet. *)
Definition example_point_class : Class :=
  Class_new "P"
    [mkMethod "__init__" ["v"]
       (MethodBody (FieldAssignment ["self"] "v" (VariableValue ["v"])))]
    None.

Definition example_point_world : World :=
  mkWorld (<["x" := Own (Number 1)]> ∅) ""
          (<[2%positive := ClassInstance_new example_point_class]> ∅) ∅.

(** A class [C] with the method
    [def g(t, x, y): if t: return x  return y], an instance of it at
    address 3, and the call [C().g(yes, x, y)]. *)
Definition example_choice_class : Class :=
  Class_new "C"
    [mkMethod "g" ["t"; "x"; "y"]
       (MethodBody
          (Compound [IfElse (VariableValue ["t"]) (Return (VariableValue ["x"])) None;
                     Return (VariableValue ["y"])]))]
    None.

Definition example_choice_world : World :=
  mkWorld (<["yes" := Own (Bool true)]> (<["no" := Own (Bool false)]>
             (<["x" := Own (Number 42)]> (<["y" := Own (Number 0)]> ∅))))
          "" (<[3%positive := ClassInstance_new example_choice_class]> ∅) ∅.

Definition example_choice_call (t : string) : Statement :=
  MethodCall (Some (NewInstance 3%positive [])) "g"
             [VariableValue [t]; VariableValue ["x"]; VariableValue ["y"]].

(** The binary arithmetic and logical operators. *)
Definition binary_operators
    : list (option Statement → option Statement → Statement) :=
  [Add; Sub; Mult; Div; And; Or].

(** A holder points to something: if it holds an instance, the instance is
    there. *)
Definition points_to_instance (insts : gmap addr ClassInstance)
    (h : ObjectHolder) : Prop :=
  ∀ a, TryAs_ClassInstance h = Some a → is_Some (insts !! a).

(** Resolution of a dotted name as the specification words it: the first
    name is looked up in the closure, each later one in the field map of
    the instance the cursor holds. *)
Inductive resolves (insts : gmap addr ClassInstance)
    : Closure → list string → ObjectHolder → Prop :=
| resolves_last (c : Closure) (v : string) (r : ObjectHolder) :
    c !! v = Some r →
    points_to_instance insts r →
    resolves insts c [v] r
| resolves_field (c : Closure) (v : string) (a : addr) (inst : ClassInstance)
    (ids : list string) (r : ObjectHolder) :
    c !! v = Some (Share a) →
    insts !! a = Some inst →
    resolves insts (fields_ inst) ids r →
    resolves insts c (v :: ids) r.

(** A name is missing somewhere along such a chain of instances. *)
Inductive misses (insts : gmap addr ClassInstance)
    : Closure → list string → Prop :=
| misses_here (c : Closure) (v : string) (ids : list string) :
    c !! v = None →
    misses insts c (v :: ids)
| misses_field (c : Closure) (v : string) (a : addr) (inst : ClassInstance)
    (ids : list string) :
    c !! v = Some (Share a) →
    insts !! a = Some inst →
    misses insts (fields_ inst) ids →
    misses insts c (v :: ids).

End EvaluatorTerms.

Section LexerTerms.
Import parse.

(** The shape the specification asks of a token stream. *)
Definition ends_with_Eof (ts : list Token) : Prop :=
  ∃ before,
    ts = before ++ [token_type.Eof]
    ∧ (before = []
       ∨ last before = Some token_type.Newline
       ∨ last before = Some token_type.Dedent).

(** The stream is good and has [c], then [rest], to read. *)
Definition ready (input : istream) (c : ascii) (rest : list ascii) : Prop :=
  good input = true ∧ ahead input = c :: rest.

(** [within a r]: the outcome [r] is an exception or a lexer whose stream
    has a suffix of [a] still to read. *)
Definition scan_within {A} (a : list ascii) (r : Scan A) : Prop :=
  match r with
  | Finished _ input' => ahead input' `suffix_of` a
  | Raised _ => True
  | Starved => False
  end.

Definition within (a : list ascii) (r : Outcome) : Prop :=
  match r with
  | Done l' => ahead (input_ l') `suffix_of` a
  | Throw _ => True
  | Undefined | OutOfFuel => False
  end.

(** The characters the scanners know: the newline and the printable
    ones. *)
Definition lexable (c : ascii) : bool :=
  Ascii.eqb c newline || between 32 126 c.

(** A character that the loop of [ParseStrings] just appends. *)
Definition plain (open_char c : ascii) : Prop :=
  Ascii.eqb c open_char = false ∧ Ascii.eqb c backslash = false
  ∧ Ascii.eqb c newline = false ∧ Ascii.eqb c carriage_return = false.

End LexerTerms.

(** ** Terms of the further properties *)

Section ComparisonTerms.
Import runtime.

(** The kind of a value that is compared by value: [Number], [String] or
    [Bool]; nothing else has one. *)
Definition value_kind (h : ObjectHolder) : option nat :=
  match h with
  | Some (Number _) => Some 0
  | Some (String _) => Some 1
  | Some (Bool _) => Some 2
  | _ => None
  end.
End ComparisonTerms.

Section OutputTerms.
Import runtime ast.

(** The world [w] with the text [p] already on the output stream before
    what [w] has there. *)
Definition prepend (p : string) (w : World) : World :=
  set_output (p +:+ output w) w.

Definition shifted {A} (p : string) (r : Outcome A * World)
    : Outcome A * World :=
  (r.1, prepend p r.2).

(** [m] reads nothing of what is on the output stream, and only adds to
    its end. *)
Definition appends {A} (m : M A) : Prop :=
  ∀ p w, m (prepend p w) = shifted p (m w).

(** What [Print] writes for a value that is no [ClassInstance]. *)
Definition shown (v : ObjectHolder) : string :=
  match v with
  | None => "None"
  | Some (Number z) => pretty z
  | Some (String s) => s
  | Some (Bool b) => if b then "True" else "False"
  | Some (ClassObject c) => "Class " +:+ GetName c
  | Some (ClassInstanceAt a) => show_pointer a
  end.

(** The texts of [l], each after one space; and with one space between
    them. *)
Fixpoint spaced (l : list string) : string :=
  match l with
  | [] => ""
  | s :: l' => " " +:+ s +:+ spaced l'
  end.

Definition joined (l : list string) : string :=
  match l with
  | [] => ""
  | s :: l' => s +:+ spaced l'
  end.

(** The expressions [args] are evaluated one after the other from the
    world [w] on, each on an output stream that starts empty: the list
    holds, for each, its value and what its evaluation wrote; the last
    world is the one the last evaluation leaves.  The evaluations may
    change the closure and the instances. *)
Inductive evaluated (n : nat)
    : World → list Statement → list (ObjectHolder * string) → World → Prop :=
| evaluated_nil (w : World) : evaluated n w [] [] w
| evaluated_cons (w w1 w2 : World) (arg : Statement) (args : list Statement)
    (v : ObjectHolder) (vs : list (ObjectHolder * string)) :
    Execute n arg (set_output "" w) = (Normal v, w1) →
    evaluated n w1 args vs w2 →
    evaluated n w (arg :: args) ((v, output w1) :: vs) w2.

(** What [Print] puts on the stream for one argument: what its evaluation
    writes, then its value. *)
Definition printed (r : ObjectHolder * string) : string := r.2 +:+ shown r.1.
End OutputTerms.

Section CursorTerms.
Import parse.

(** Where [current_token_] is after [k] calls of [NextToken]. *)
Fixpoint advanced (l : Lexer) (k : nat) : nat :=
  match k with
  | O => 0
  | S k' => (NextToken l (advanced l k')).2
  end.
End CursorTerms.

Section ScannerTerms.
Import parse.

(** A character of an identifier. *)
Definition id_char (c : ascii) : bool := isalnum c || Ascii.eqb c underscore.

(** [rest] is the end of the text or begins with a character that is not
    in the class [keep]. *)
Definition stops (keep : ascii → bool) (rest : list ascii) : Prop :=
  match rest with
  | [] => True
  | c :: _ => keep c = false
  end.

End ScannerTerms.

Section OperatorTerms.
Import parse.

(** The comparison operator that begins with [a] and ends with [=]. *)
Definition comparison_token (a : ascii) : option Token :=
  if Ascii.eqb a "="%char then Some token_type.Eq
  else if Ascii.eqb a ">"%char then Some token_type.GreaterOrEq
  else if Ascii.eqb a "<"%char then Some token_type.LessOrEq
  else if Ascii.eqb a "!"%char then Some token_type.NotEq
  else None.
End OperatorTerms.

Section LiteralTerms.
Import parse.

(** How a string literal spells a character: the line ends, the tab, the
    backslash and both quotes by their escape sequence. *)
Definition spelled (c : ascii) : list ascii :=
  if Ascii.eqb c newline then [backslash; "n"%char]
  else if Ascii.eqb c tab then [backslash; "t"%char]
  else if Ascii.eqb c carriage_return then [backslash; "r"%char]
  else if Ascii.eqb c double_quote then [backslash; double_quote]
  else if Ascii.eqb c single_quote then [backslash; single_quote]
  else if Ascii.eqb c backslash then [backslash; backslash]
  else [c].

(** The string literal for the text [s], between two [open_char]. *)
Definition literal (open_char : ascii) (s : list ascii) : list ascii :=
  open_char :: flat_map spelled s ++ [open_char].
End LiteralTerms.

Section StreamTerms.
Import parse.

(** A letter or an underscore, then letters, digits and underscores. *)
Definition is_identifier (s : string) : bool :=
  match s with
  | EmptyString => false
  | String.String c w =>
      (isalpha c || Ascii.eqb c underscore)
      && forallb id_char (list_ascii_of_string w)
  end.

(** What holds of every token the loop of [ParseTokens] adds. *)
Definition token_ok (t : Token) : bool :=
  match t with
  | token_type.Id s => is_identifier s && bool_decide (keywords_ !! s = None)
  | token_type.Number v => (0 <=? v)%Z && (v <=? 2 ^ 31 - 1)%Z
  | token_type.Char c => ispunct c && negb (Ascii.eqb c hash)
  | token_type.Eof => false
  | _ => true
  end.

(** No [Newline] stands first, and none follows a [Newline]. *)
Definition lines (ts : list Token) : Prop :=
  head ts ≠ Some token_type.Newline
  ∧ ∀ i, ts !! i = Some token_type.Newline →
         ts !! S i ≠ Some token_type.Newline.

(** A token of the inside of a line. *)
Definition inline (t : Token) : Prop :=
  token_ok t = true ∧ t ≠ token_type.Newline.

(** Whenever [f] returns, it has added tokens of the inside of a line,
    if any. *)
Definition emits (f : Lexer → Outcome) : Prop :=
  ∀ l l', f l = Done l' →
    ∃ new, tokens_ l' = tokens_ l ++ new ∧ Forall inline new.
End StreamTerms.

(* ===================================================================== *)
(** * Properties *)
(* ===================================================================== *)

(** ** Truthiness *)
Section Truthiness.
Import runtime.

(** C8.  Truthiness: an empty holder is false; a [Bool] is its value; a
    [Number] is true exactly when it is not zero; a [String] exactly when it
    is not empty; a [ClassInstance] and a [Class] are false. *)
Theorem IsTrue_by_kind :
  IsTrue ObjectHolder_None = false
  ∧ (∀ b : bool, IsTrue (Own (Bool b)) = b)
  ∧ (∀ n : Z, IsTrue (Own (Number n)) = true ↔ n ≠ 0%Z)
  ∧ (∀ s : string, IsTrue (Own (String s)) = true ↔ s ≠ "")
  ∧ (∀ a : addr, IsTrue (Share a) = false)
  ∧ (∀ c : Class, IsTrue (Own (ClassObject c)) = false).
Proof.
  repeat split; try done.
  - by intros [].
  - cbn. intros Hn ->. discriminate Hn.
  - cbn. intros Hn. apply negb_true_iff, Z.eqb_neq, Hn.
  - cbn. by intros Hs ->.
  - cbn. by destruct s.
Qed.

End Truthiness.

(** ** The method index of a class *)
Section MethodIndex.
Import runtime.

Lemma index_methods_lookup (ms : list Method) (idx : gmap string Method)
    (x : string) :
  index_methods idx ms !! x
  = match declared_in ms x with Some m => Some m | None => idx !! x end.
Proof.
  revert idx. induction ms as [|m ms IH]; intros idx; [done|].
  cbn. unfold index_methods in IH. rewrite IH.
  destruct (declared_in ms x); [done|].
  destruct (decide (Method_name m = x)) as [->|Hne].
  - by rewrite lookup_insert_eq.
  - by rewrite lookup_insert_ne.
Qed.

(** What the constructor puts in the index: the class's own methods, and
    under the names it does not declare, the methods its parent declares
    itself. *)
Lemma GetMethod_Class_new (name : string) (ms : list Method)
    (parent : option Class) (x : string) :
  GetMethod (Class_new name ms parent) x
  = match declared_in ms x with
    | Some m => Some m
    | None =>
        match parent with
        | Some p => declared_in (Class_methods_ p) x
        | None => None
        end
    end.
Proof.
  unfold GetMethod, Class_new. cbn. rewrite index_methods_lookup.
  destruct (declared_in ms x); [done|].
  destruct parent as [p|]; [|done].
  rewrite index_methods_lookup. by destruct (declared_in _ x).
Qed.

(** A method declared in the class itself is the one found. *)
Lemma GetMethod_own (name : string) (ms : list Method) (parent : option Class)
    (x : string) (m : Method) :
  declared_in ms x = Some m → GetMethod (Class_new name ms parent) x = Some m.
Proof. intros H. by rewrite GetMethod_Class_new, H. Qed.

(** C1.  In a chain [C -> P -> G] where only the grandparent [G] declares
    [m], [G] and [P] resolve [m] to that definition and [C] does not resolve
    it at all: the constructor copies [parent_->methods_], what the parent
    declares itself, and not the parent's index. *)
Theorem GetMethod_grandparent_lost (g p c : string) (m : Method)
    (ancestor : option Class) :
  let G := Class_new g [m] ancestor in
  let P := Class_new p [] (Some G) in
  let C := Class_new c [] (Some P) in
  GetMethod G (Method_name m) = Some m
  ∧ GetMethod P (Method_name m) = Some m
  ∧ GetMethod C (Method_name m) = None.
Proof.
  cbn zeta. rewrite !GetMethod_Class_new. cbn.
  by rewrite decide_True.
Qed.

End MethodIndex.

(** ** The evaluator *)
Section Evaluator.
Import runtime ast.

Local Arguments Execute : simpl never.
Local Arguments Object_Print : simpl never.

Lemma Execute_S (n : nat) (s : Statement) :
  Execute (S n) s = Statement_Execute (Execute n) (Object_Print n) s.
Proof. reflexivity. Qed.

Lemma bind_Normal {A B} (m : M A) (k : A → M B) (w w' : World) (a : A) :
  m w = (Normal a, w') → bind m k w = k a w'.
Proof. unfold bind. by intros ->. Qed.

Lemma bind_Thrown {A B} (m : M A) (k : A → M B) (w w' : World) (e : Exception) :
  m w = (Thrown e, w') → bind m k w = (Thrown e, w').
Proof. unfold bind. by intros ->. Qed.

Lemma bind_Undefined {A B} (m : M A) (k : A → M B) (w w' : World) :
  m w = (Undefined, w') → bind m k w = (Undefined, w').
Proof. unfold bind. by intros ->. Qed.

Lemma bind_OutOfFuel {A B} (m : M A) (k : A → M B) (w w' : World) :
  m w = (OutOfFuel, w') → bind m k w = (OutOfFuel, w').
Proof. unfold bind. by intros ->. Qed.

(** *** Return and MethodBody *)

Lemma Return_throws (n : nat) (e : Statement) (w w' : World) (v : ObjectHolder) :
  Execute n e w = (Normal v, w') →
  Execute (S n) (Return e) w = (Thrown (thrown_holder v), w').
Proof.
  intros He. rewrite Execute_S. cbn. unfold Return_Execute.
  by rewrite (bind_Normal _ _ _ _ _ He).
Qed.

Lemma MethodBody_outcome (n : nat) (body : Statement) (w w' : World)
    (r : Outcome ObjectHolder) :
  Execute n body w = (r, w') →
  Execute (S n) (MethodBody body) w
  = (match r with
     | Normal _ => Normal ObjectHolder_None
     | Thrown (thrown_holder result) => Normal result
     | Thrown (runtime_error what) => Thrown (runtime_error what)
     | Undefined => Undefined
     | OutOfFuel => OutOfFuel
     end, w').
Proof.
  intros Hb. rewrite Execute_S. cbn. unfold MethodBody_Execute. rewrite Hb.
  by destruct r as [| [] | |].
Qed.

(** A statement of a [Compound] that does not return normally ends the
    [Compound] the same way, the statements after it not being run. *)
Lemma Compound_exit (n : nat) (s : Statement) (rest : list Statement)
    (w w' : World) (e : Exception) :
  Execute n s w = (Thrown e, w') →
  Execute (S n) (Compound (s :: rest)) w = (Thrown e, w').
Proof.
  intros Hs. rewrite Execute_S. cbn. unfold Compound_Execute.
  apply bind_Thrown. cbn. by apply bind_Thrown.
Qed.

(** C6.  [Return e] evaluates [e] and leaves by throwing the holder; the
    exit passes through the statements around it; the [MethodBody] next
    around it turns it into the value returned, so that a [MethodBody]
    further out sees a body that ended without a [Return]; a body that ends
    without a [Return] makes the method return [None]; a
    [std::runtime_error] passes through [MethodBody]. *)
Theorem Return_caught_by_MethodBody (n : nat) :
  (∀ e w w' v,
      Execute n e w = (Normal v, w') →
      Execute (S n) (Return e) w = (Thrown (thrown_holder v), w')
      ∧ (∀ rest, Execute (S (S n)) (Compound (Return e :: rest)) w
                 = (Thrown (thrown_holder v), w'))
      ∧ Execute (S (S n)) (MethodBody (Return e)) w = (Normal v, w')
      ∧ (∀ rest, Execute (S (S (S n))) (MethodBody (Compound (Return e :: rest))) w
                 = (Normal v, w'))
      ∧ Execute (S (S (S n))) (MethodBody (MethodBody (Return e))) w
        = (Normal ObjectHolder_None, w'))
  ∧ (∀ body w w' result,
      Execute n body w = (Thrown (thrown_holder result), w') →
      Execute (S n) (MethodBody body) w = (Normal result, w'))
  ∧ (∀ body w w' v,
      Execute n body w = (Normal v, w') →
      Execute (S n) (MethodBody body) w = (Normal ObjectHolder_None, w'))
  ∧ (∀ body w w' what,
      Execute n body w = (Thrown (runtime_error what), w') →
      Execute (S n) (MethodBody body) w = (Thrown (runtime_error what), w')).
Proof.
  split_and!.
  - intros e w w' v He.
    pose proof (Return_throws _ _ _ _ _ He) as Hr.
    pose proof (MethodBody_outcome _ _ _ _ _ Hr) as Hm. cbv beta iota in Hm.
    split_and!; try done.
    + intros rest. by apply Compound_exit.
    + intros rest.
      by rewrite (MethodBody_outcome _ _ _ _ _ (Compound_exit _ _ rest _ _ _ Hr)).
    + by rewrite (MethodBody_outcome _ _ _ _ _ Hm).
  - intros body w w' result Hb. by rewrite (MethodBody_outcome _ _ _ _ _ Hb).
  - intros body w w' v Hb. by rewrite (MethodBody_outcome _ _ _ _ _ Hb).
  - intros body w w' what Hb. by rewrite (MethodBody_outcome _ _ _ _ _ Hb).
Qed.

Lemma Return_caught_by_MethodBody_witness :
  Execute 3 (MethodBody (Return (VariableValue ["x"]))) example_world
  = (Normal (Own (Number 1)), example_world)
  ∧ Execute 4 (MethodBody (MethodBody (Return (VariableValue ["x"])))) example_world
    = (Normal ObjectHolder_None, example_world)
  ∧ Execute 3 (MethodBody (Return (VariableValue ["y"]))) example_world
    = (Normal (Own (Number 2)), example_world)
  ∧ Execute 2 (MethodBody (VariableValue ["x"])) example_world
    = (Normal ObjectHolder_None, example_world)
  ∧ Execute 2 (MethodBody (VariableValue ["z"])) example_world
    = (Thrown (runtime_error "Invalid argument name"), example_world).
Proof.
  destruct (Return_caught_by_MethodBody 1) as (H1 & _ & H3 & H4).
  destruct (Return_caught_by_MethodBody 2) as (_ & H2 & _).
  destruct (H1 (VariableValue ["x"]) example_world example_world
               (Own (Number 1))) as (_ & _ & Ha & _ & Hb);
    [vm_compute; reflexivity|].
  split_and!.
  - exact Ha.
  - exact Hb.
  - apply H2. vm_compute. reflexivity.
  - apply (H3 _ _ _ (Own (Number 1))). vm_compute. reflexivity.
  - apply H4. vm_compute. reflexivity.
Defined.

(** A [return] inside an [if] of a method leaves the method with its
    value and skips the [return] after it; the caller's closure and the
    instance are as before. *)
Example Return_leaves_the_method :
  Execute 8 (example_choice_call "yes") example_choice_world
  = (Normal (Own (Number 42)), example_choice_world)
  ∧ Execute 8 (example_choice_call "no") example_choice_world
    = (Normal (Own (Number 0)), example_choice_world).
Proof. split; vm_compute; reflexivity. Qed.

(** *** And, Or and the null operands of the binary operators *)

Lemma And_Execute_both (n : nat) (lhs rhs : Statement) (w w1 w2 : World)
    (v1 : ObjectHolder) (r2 : Outcome ObjectHolder) :
  Execute n lhs w = (Normal v1, w1) →
  Execute n rhs w1 = (r2, w2) →
  Execute (S n) (And (Some lhs) (Some rhs)) w
  = (match r2 with
     | Normal v2 => Normal (Own (Bool (IsTrue v1 && IsTrue v2)))
     | Thrown e => Thrown e
     | Undefined => Undefined
     | OutOfFuel => OutOfFuel
     end, w2).
Proof.
  intros Hl Hr. rewrite Execute_S. cbn. unfold And_Execute.
  rewrite (bind_Normal _ _ _ _ _ Hl). unfold bind. rewrite Hr.
  destruct r2 as [v2| | |]; try done.
  unfold ret. by destruct (IsTrue v1), (IsTrue v2).
Qed.

Lemma Or_Execute_both (n : nat) (lhs rhs : Statement) (w w1 w2 : World)
    (v1 : ObjectHolder) (r2 : Outcome ObjectHolder) :
  Execute n lhs w = (Normal v1, w1) →
  Execute n rhs w1 = (r2, w2) →
  Execute (S n) (Or (Some lhs) (Some rhs)) w
  = (match r2 with
     | Normal v2 => Normal (Own (Bool (IsTrue v1 || IsTrue v2)))
     | Thrown e => Thrown e
     | Undefined => Undefined
     | OutOfFuel => OutOfFuel
     end, w2).
Proof.
  intros Hl Hr. rewrite Execute_S. cbn. unfold Or_Execute.
  rewrite (bind_Normal _ _ _ _ _ Hl). unfold bind. rewrite Hr.
  destruct r2 as [v2| | |]; try done.
  unfold ret. by destruct (IsTrue v1), (IsTrue v2).
Qed.

(** C7.  With both operands there, [And] and [Or] evaluate the left one and
    then, in the world it leaves, the right one, whatever the left one
    yielded: the result is the [Bool] of the conjunction (disjunction) of
    the two truth values in the world the right operand leaves, and an
    exception of the right operand is the exception of the whole. *)
Theorem And_Or_evaluate_both_operands (n : nat) (lhs rhs : Statement)
    (w w1 : World) (v1 : ObjectHolder) :
  Execute n lhs w = (Normal v1, w1) →
  (∀ v2 w2,
      Execute n rhs w1 = (Normal v2, w2) →
      Execute (S n) (And (Some lhs) (Some rhs)) w
      = (Normal (Own (Bool (IsTrue v1 && IsTrue v2))), w2)
      ∧ Execute (S n) (Or (Some lhs) (Some rhs)) w
        = (Normal (Own (Bool (IsTrue v1 || IsTrue v2))), w2))
  ∧ (∀ e w2,
      Execute n rhs w1 = (Thrown e, w2) →
      Execute (S n) (And (Some lhs) (Some rhs)) w = (Thrown e, w2)
      ∧ Execute (S n) (Or (Some lhs) (Some rhs)) w = (Thrown e, w2)).
Proof.
  intros Hl. split.
  - intros v2 w2 Hr.
    by rewrite (And_Execute_both _ _ _ _ _ _ _ _ Hl Hr),
               (Or_Execute_both _ _ _ _ _ _ _ _ Hl Hr).
  - intros e w2 Hr.
    by rewrite (And_Execute_both _ _ _ _ _ _ _ _ Hl Hr),
               (Or_Execute_both _ _ _ _ _ _ _ _ Hl Hr).
Qed.

(** The left operand is false (true), and the assignment on the right is
    carried out all the same; a failing right operand fails the whole. *)
Lemma And_Or_evaluate_both_operands_witness :
  let assign := Assignment "z" (VariableValue ["x"]) in
  let after :=
    set_closure (<["z" := Own (Number 1)]> (closure example_world))
                example_world in
  (Execute 3 (And (Some (VariableValue ["none"])) (Some assign)) example_world
   = (Normal (Own (Bool false)), after)
   ∧ Execute 3 (Or (Some (VariableValue ["x"])) (Some assign)) example_world
     = (Normal (Own (Bool true)), after))
  ∧ (Execute 3 (And (Some (VariableValue ["none"])) (Some (VariableValue ["q"])))
       example_world
     = (Thrown (runtime_error "Invalid argument name"), example_world)
     ∧ Execute 3 (Or (Some (VariableValue ["x"])) (Some (VariableValue ["q"])))
         example_world
       = (Thrown (runtime_error "Invalid argument name"), example_world)).
Proof.
  cbv zeta.
  pose proof (And_Or_evaluate_both_operands 2 (VariableValue ["none"])
    (Assignment "z" (VariableValue ["x"])) example_world example_world
    ObjectHolder_None eq_refl) as [Ha _].
  pose proof (And_Or_evaluate_both_operands 2 (VariableValue ["x"])
    (Assignment "z" (VariableValue ["x"])) example_world example_world
    (Own (Number 1)) eq_refl) as [Ho _].
  pose proof (And_Or_evaluate_both_operands 2 (VariableValue ["none"])
    (VariableValue ["q"]) example_world example_world
    ObjectHolder_None eq_refl) as [_ Hat].
  pose proof (And_Or_evaluate_both_operands 2 (VariableValue ["x"])
    (VariableValue ["q"]) example_world example_world
    (Own (Number 1)) eq_refl) as [_ Hot].
  split_and!.
  - refine (proj1 (Ha (Own (Number 1)) _ _)). vm_compute. reflexivity.
  - refine (proj2 (Ho (Own (Number 1)) _ _)). vm_compute. reflexivity.
  - refine (proj1 (Hat _ _ _)). vm_compute. reflexivity.
  - refine (proj2 (Hot _ _ _)). vm_compute. reflexivity.
Defined.

(** C5, as the code has it.  When the statement of either operand is
    absent (a null pointer in [lhs_] or [rhs_]), each of [Add], [Sub],
    [Mult], [Div], [And], [Or] fails with "null operands are not
    supported", before anything is evaluated. *)
Theorem null_operand_statement_rejected (n : nat)
    (op : option Statement → option Statement → Statement)
    (lhs rhs : option Statement) (w : World) :
  op ∈ binary_operators →
  lhs = None ∨ rhs = None →
  Execute (S n) (op lhs rhs) w
  = (Thrown (runtime_error "null operands are not supported"), w).
Proof.
  unfold binary_operators. rewrite !elem_of_cons, elem_of_nil.
  intros Hop Hnull. rewrite Execute_S.
  destruct Hop as [->|[->|[->|[->|[->|[->|[]]]]]]];
    destruct Hnull as [->| ->]; cbn;
    unfold Add_Execute, Sub_Execute, Mult_Execute, Div_Execute,
      And_Execute, Or_Execute;
    by repeat case_match.
Qed.

Lemma null_operand_statement_rejected_witness :
  Execute 1 (Add None (Some (VariableValue ["x"]))) example_world
  = (Thrown (runtime_error "null operands are not supported"), example_world)
  ∧ Execute 1 (Or (Some (VariableValue ["x"])) None) example_world
    = (Thrown (runtime_error "null operands are not supported"), example_world).
Proof.
  split.
  - apply (null_operand_statement_rejected 0 Add).
    + vm_compute. apply list_elem_of_here.
    + left. reflexivity.
  - apply (null_operand_statement_rejected 0 Or).
    + vm_compute. do 5 apply list_elem_of_further. apply list_elem_of_here.
    + right. reflexivity.
Defined.

(** C5, as stated, fails: an operand that evaluates to the empty holder is
    not a null operand.  [And] and [Or] take it as false and return a
    [Bool]; the arithmetic operators fail, but with their own message. *)
Lemma empty_operand_not_rejected :
  Execute 1 (VariableValue ["none"]) example_world
  = (Normal ObjectHolder_None, example_world)
  ∧ Execute 2 (And (Some (VariableValue ["none"])) (Some (VariableValue ["x"])))
      example_world
    = (Normal (Own (Bool false)), example_world)
  ∧ Execute 2 (Or (Some (VariableValue ["none"])) (Some (VariableValue ["x"])))
      example_world
    = (Normal (Own (Bool true)), example_world)
  ∧ Execute 2 (Add (Some (VariableValue ["none"])) (Some (VariableValue ["x"])))
      example_world
    = (Thrown (runtime_error "Wrong types for add operation"), example_world)
  ∧ (Execute 2 (And (Some (VariableValue ["none"])) (Some (VariableValue ["x"])))
       example_world).1
    ≠ Thrown (runtime_error "null operands are not supported").
Proof. split_and!; try (vm_compute; reflexivity). vm_compute. discriminate. Qed.

(** *** MethodCall *)

(** What [MethodCall] does on a receiver it can call.  A [MethodCall] whose
    receiver statement is absent returns [None] and evaluates nothing.
    Otherwise the receiver is evaluated, then the arguments from left to
    right; when the receiver evaluated to a [ClassInstance], the method is
    called on that instance, and the call fails with "Not implemented" when
    its class has no method of that name and number of parameters. *)
Lemma MethodCall_on_receiver (n : nat) (m : string) (args : list Statement) :
  (∀ w, Execute (S n) (MethodCall None m args) w = (Normal ObjectHolder_None, w))
  ∧ (∀ recv w w1 w2 this vs,
      Execute n recv w = (Normal (Share this), w1) →
      for_each (Execute n) args w1 = (Normal vs, w2) →
      Execute (S n) (MethodCall (Some recv) m args) w
      = Call (Execute n) this m vs w2
      ∧ (∀ self,
          instances w2 !! this = Some self →
          HasMethod self m (length vs) = false →
          Execute (S n) (MethodCall (Some recv) m args) w
          = (Thrown (runtime_error "Not implemented"), w2))).
Proof.
  split; [done|].
  intros recv w w1 w2 this vs Hrecv Hargs.
  assert (Execute (S n) (MethodCall (Some recv) m args) w
          = Call (Execute n) this m vs w2) as Hcall.
  { rewrite Execute_S. cbn. unfold MethodCall_Execute.
    rewrite (bind_Normal _ _ _ _ _ Hrecv).
    by rewrite (bind_Normal _ _ _ _ _ Hargs). }
  split; [done|].
  intros self Hself Hno. rewrite Hcall. unfold Call, bind, instance_at.
  by rewrite Hself, Hno.
Qed.

Lemma MethodCall_on_receiver_witness :
  Execute 5 (MethodCall (Some (VariableValue ["a"])) "get" []) example_instance_world
  = (Normal (Share 1%positive), example_instance_world)
  ∧ Execute 5 (MethodCall (Some (VariableValue ["a"])) "put" []) example_instance_world
    = (Thrown (runtime_error "Not implemented"), example_instance_world).
Proof.
  split.
  - destruct (MethodCall_on_receiver 4 "get" []) as [_ H].
    destruct (H (VariableValue ["a"]) example_instance_world
                example_instance_world example_instance_world 1%positive [])
      as [-> _]; vm_compute; reflexivity.
  - destruct (MethodCall_on_receiver 4 "put" []) as [_ H].
    destruct (H (VariableValue ["a"]) example_instance_world
                example_instance_world example_instance_world 1%positive [])
      as [_ Hno]; [vm_compute; reflexivity..|].
    apply (Hno (ClassInstance_new example_class)); vm_compute; reflexivity.
Defined.

(** C2.  The guard of [MethodCall::Execute] is on the receiver statement,
    not on what it evaluates to.  A receiver that evaluates to a holder that
    is no [ClassInstance], the empty holder among them, makes the call, once
    the arguments are evaluated, dereference the null result of
    [TryAs<ClassInstance>]: the call neither returns [None] nor fails with an
    exception. *)
Theorem MethodCall_on_non_instance (n : nat) (recv : Statement) (m : string)
    (args : list Statement) (w w1 w2 : World) (v : ObjectHolder)
    (vs : list ObjectHolder) :
  Execute n recv w = (Normal v, w1) →
  TryAs_ClassInstance v = None →
  for_each (Execute n) args w1 = (Normal vs, w2) →
  Execute (S n) (MethodCall (Some recv) m args) w = (Undefined, w2)
  ∧ (Execute (S n) (MethodCall (Some recv) m args) w).1
    ≠ Normal ObjectHolder_None
  ∧ ∀ e, (Execute (S n) (MethodCall (Some recv) m args) w).1 ≠ Thrown e.
Proof.
  intros Hrecv Hv Hargs.
  assert (Execute (S n) (MethodCall (Some recv) m args) w = (Undefined, w2))
    as ->.
  { rewrite Execute_S. cbn. unfold MethodCall_Execute.
    rewrite (bind_Normal _ _ _ _ _ Hrecv), (bind_Normal _ _ _ _ _ Hargs).
    by rewrite Hv. }
  by split_and!.
Qed.

Lemma MethodCall_on_non_instance_witness :
  Execute 1 (VariableValue ["none"]) example_world
  = (Normal ObjectHolder_None, example_world)
  ∧ Execute 2 (MethodCall (Some (VariableValue ["none"])) "f" []) example_world
    = (Undefined, example_world)
  ∧ (Execute 2 (MethodCall (Some (VariableValue ["none"])) "f" []) example_world).1
    ≠ Normal ObjectHolder_None
  ∧ Execute 2 (MethodCall (Some (VariableValue ["x"])) "f" []) example_world
    = (Undefined, example_world)
  ∧ ∀ e, (Execute 2 (MethodCall (Some (VariableValue ["x"])) "f" []) example_world).1
         ≠ Thrown e.
Proof.
  destruct (MethodCall_on_non_instance 1 (VariableValue ["none"]) "f" []
              example_world example_world example_world ObjectHolder_None [])
    as (Hnone & Hnot & _); [reflexivity..|].
  destruct (MethodCall_on_non_instance 1 (VariableValue ["x"]) "f" []
              example_world example_world example_world (Own (Number 1)) [])
    as (Hnumber & _ & Hthrown); [reflexivity..|].
  split_and!; [reflexivity|exact Hnone|exact Hnot|exact Hnumber|exact Hthrown].
Defined.

(** *** VariableValue *)

Lemma VariableValue_loop_resolves (w : World) (c : Closure)
    (ids : list string) (r result : ObjectHolder) :
  resolves (instances w) c ids r →
  VariableValue_loop c result ids w = (Normal r, w).
Proof.
  intros H. revert result.
  induction H as [c v r Hv Hr|c v a inst ids r Hv Ha _ IH]; intros result.
  - cbn. rewrite Hv. destruct (TryAs_ClassInstance r) as [a|] eqn:Hr'; [|done].
    destruct (Hr a Hr') as [inst Hinst].
    unfold bind, instance_at. by rewrite Hinst.
  - cbn. rewrite Hv. cbn. unfold bind, instance_at. rewrite Ha. apply IH.
Qed.

Lemma VariableValue_loop_misses (w : World) (c : Closure)
    (ids : list string) (result : ObjectHolder) :
  misses (instances w) c ids →
  VariableValue_loop c result ids w
  = (Thrown (runtime_error "Invalid argument name"), w).
Proof.
  intros H. revert result.
  induction H as [c v ids Hv|c v a inst ids Hv Ha _ IH]; intros result.
  - cbn. by rewrite Hv.
  - cbn. rewrite Hv. cbn. unfold bind, instance_at. rewrite Ha. apply IH.
Qed.

Lemma VariableValue_Execute_resolves (ids : list string) (w : World)
    (r : ObjectHolder) :
  resolves (instances w) (closure w) ids r →
  VariableValue_Execute ids w = (Normal r, w).
Proof.
  intros H. unfold VariableValue_Execute.
  destruct ids as [|v ids]; [inversion H|].
  cbn [length Nat.ltb Nat.leb]. unfold bind, get.
  by apply VariableValue_loop_resolves.
Qed.

(** C4, as the code has it.  [VariableValue] looks the first name up in the
    closure and, as long as the cursor holds a [ClassInstance], each later
    name in the field map of that instance, and returns the last value
    found; a name missing along such a chain fails with "Invalid argument
    name"; an empty list of names fails with "No arguments specified". *)
Theorem VariableValue_resolution (n : nat) (ids : list string) (w : World) :
  (ids = [] →
   Execute (S n) (VariableValue ids) w
   = (Thrown (runtime_error "No arguments specified"), w))
  ∧ (∀ r,
      resolves (instances w) (closure w) ids r →
      Execute (S n) (VariableValue ids) w = (Normal r, w))
  ∧ (misses (instances w) (closure w) ids →
     Execute (S n) (VariableValue ids) w
     = (Thrown (runtime_error "Invalid argument name"), w)).
Proof.
  rewrite Execute_S. cbn. unfold VariableValue_Execute. split_and!.
  - by intros ->.
  - intros r H. by apply VariableValue_Execute_resolves.
  - intros H. destruct ids as [|v ids]; [inversion H|].
    cbn [length Nat.ltb Nat.leb]. unfold bind, get.
    by apply VariableValue_loop_misses.
Qed.

Lemma VariableValue_resolution_witness :
  Execute 1 (VariableValue []) example_fields_world
  = (Thrown (runtime_error "No arguments specified"), example_fields_world)
  ∧ Execute 1 (VariableValue ["p"; "v"]) example_fields_world
    = (Normal (Own (Number 10)), example_fields_world)
  ∧ Execute 1 (VariableValue ["p"; "w"]) example_fields_world
    = (Thrown (runtime_error "Invalid argument name"), example_fields_world).
Proof.
  split_and!.
  - apply (VariableValue_resolution 0 [] example_fields_world). reflexivity.
  - apply (VariableValue_resolution 0 ["p"; "v"] example_fields_world).
    eapply resolves_field; [vm_compute; reflexivity..|].
    apply resolves_last; [vm_compute; reflexivity|].
    intros a Ha. discriminate Ha.
  - apply (VariableValue_resolution 0 ["p"; "w"] example_fields_world).
    eapply misses_field; [vm_compute; reflexivity..|].
    apply misses_here. vm_compute. reflexivity.
Defined.

(** C4, as stated, fails: when the cursor does not hold a [ClassInstance]
    the next name is not refused; it is looked up where the previous one
    was. *)
Lemma VariableValue_through_number :
  Execute 1 (VariableValue ["x"]) example_fields_world
  = (Normal (Own (Number 1)), example_fields_world)
  ∧ Execute 1 (VariableValue ["x"; "y"]) example_fields_world
    = (Normal (Own (Number 2)), example_fields_world)
  ∧ ∀ e, (Execute 1 (VariableValue ["x"; "y"]) example_fields_world).1 ≠ Thrown e.
Proof.
  split_and!; try (vm_compute; reflexivity).
  intros e. vm_compute. discriminate.
Qed.

(** *** NewInstance *)

Lemma NewInstance_returns_embedded (n : nat) (a : addr) (args : list Statement)
    (w w' : World) (r : ObjectHolder) :
  Execute (S n) (NewInstance a args) w = (Normal r, w') → r = Share a.
Proof.
  rewrite Execute_S. cbn. unfold NewInstance_Execute, bind.
  destruct (for_each _ _ _) as [[vs| | |] w1]; try done.
  destruct (instance_at a w1) as [[self| | |] w2]; try done.
  destruct (HasMethod self INIT_METHOD (length args)).
  - destruct (Call _ _ _ _ _) as [[v| | |] w3]; try done.
    cbn. by intros [= <- _].
  - cbn. by intros [= <- _].
Qed.

Lemma NewInstance_without_init (n : nat) (a : addr) (w : World)
    (self : ClassInstance) :
  instances w !! a = Some self →
  HasMethod self INIT_METHOD 0 = false →
  Execute (S n) (NewInstance a []) w = (Normal (Share a), w).
Proof.
  intros Ha Hno. rewrite Execute_S. cbn.
  unfold NewInstance_Execute, bind, instance_at. cbn.
  by rewrite Ha, Hno.
Qed.

Lemma NewInstance_Execute_returns (n : nat) (a : addr) (args : list Statement)
    (w w1 : World) (vs : list ObjectHolder) (self : ClassInstance) :
  for_each (Execute n) args w = (Normal vs, w1) →
  instances w1 !! a = Some self →
  (HasMethod self INIT_METHOD (length args) = false →
   Execute (S n) (NewInstance a args) w = (Normal (Share a), w1))
  ∧ (∀ v w2,
      HasMethod self INIT_METHOD (length args) = true →
      Call (Execute n) a INIT_METHOD vs w1 = (Normal v, w2) →
      Execute (S n) (NewInstance a args) w = (Normal (Share a), w2)).
Proof.
  intros Hargs Ha. rewrite Execute_S.
  unfold Statement_Execute, NewInstance_Execute.
  rewrite (bind_Normal _ _ _ _ _ Hargs).
  assert (instance_at a w1 = (Normal self, w1)) as Hself.
  { unfold instance_at. by rewrite Ha. }
  rewrite (bind_Normal _ _ _ _ _ Hself).
  split.
  - by intros ->.
  - intros v w2 -> Hcall. unfold bind. by rewrite Hcall.
Qed.

(** The constructor of the node makes the instance the node embeds: one
    new object of the class, without fields, at an address of its own. *)
Lemma NewInstance_new_embeds (class_ : Class) (args : list Statement)
    (w : World) :
  ∃ a,
    NewInstance_new class_ args w
    = (NewInstance a args,
       set_instances (<[a := ClassInstance_new class_]> (instances w)) w)
    ∧ instances w !! a = None.
Proof.
  exists (fresh (dom (instances w))). split; [done|].
  apply not_elem_of_dom, is_fresh.
Qed.

(** C10, as the code has it.  The constructor of a [NewInstance] node
    makes the one instance the node embeds, a new object of the class.
    Every execution of the node that returns returns the holder of that
    instance, so two executions yield the same object.  An execution
    creates nothing and resets nothing: once the arguments are evaluated
    it leaves the world as it is when the class has no [__init__] for
    them, and else runs that [__init__] on the embedded instance, fields of
    earlier executions and all.  What is read through the holder it
    returns is what the instance holds after it: a field set through the
    holder of an earlier execution is read through the holder of a later
    one when no [__init__] runs, and holds what [__init__] left in it when
    one does. *)
Theorem NewInstance_same_object (n : nat) (class_ : Class)
    (args : list Statement) (w0 : World) :
  ∃ a,
    let node := NewInstance a args in
    NewInstance_new class_ args w0
    = (node,
       set_instances (<[a := ClassInstance_new class_]> (instances w0)) w0)
    ∧ instances w0 !! a = None
    ∧ (∀ w w' r, Execute (S n) node w = (Normal r, w') → r = Share a)
    ∧ (∀ w1 w1' w2 w2' r1 r2,
        Execute (S n) node w1 = (Normal r1, w1') →
        Execute (S n) node w2 = (Normal r2, w2') →
        r1 = r2)
    ∧ (∀ w w1 vs self,
        for_each (Execute n) args w = (Normal vs, w1) →
        instances w1 !! a = Some self →
        (HasMethod self INIT_METHOD (length args) = false →
         Execute (S n) node w = (Normal (Share a), w1))
        ∧ (∀ v w2,
            HasMethod self INIT_METHOD (length args) = true →
            Call (Execute n) a INIT_METHOD vs w1 = (Normal v, w2) →
            Execute (S n) node w = (Normal (Share a), w2)))
    ∧ (∀ w w' r inst y f v,
        Execute (S n) node w = (Normal r, w') →
        instances w' !! a = Some inst →
        fields_ inst !! f = Some v →
        points_to_instance (instances w') v →
        let w'' := set_closure (<[y := r]> (closure w')) w' in
        Execute 1 (VariableValue [y; f]) w'' = (Normal v, w''))
    ∧ (∀ w self vs vs' x y f rv v,
        let w1 := set_closure (<[x := Share a]> (closure w)) w in
        let w2 :=
          set_instances
            (<[a := mkClassInstance (cls_ self) (<[f := v]> (fields_ self))]>
               (instances w1)) w1 in
        let w3 := set_closure (<[y := Share a]> (closure w2)) w2 in
        instances w !! a = Some self →
        HasMethod self INIT_METHOD (length args) = false →
        for_each (Execute n) args w = (Normal vs, w) →
        for_each (Execute n) args w2 = (Normal vs', w2) →
        Execute (S n) rv w1 = (Normal v, w1) →
        points_to_instance (instances w3) v →
        Execute (S (S (S n)))
          (Compound [Assignment x node; FieldAssignment [x] f rv;
                     Assignment y node]) w
        = (Normal ObjectHolder_None, w3)
        ∧ Execute 1 (VariableValue [y; f]) w3 = (Normal v, w3)).
Proof.
  destruct (NewInstance_new_embeds class_ args w0) as (a & Hnew & Hfresh).
  exists a. cbv zeta. split_and!; [done|done|..].
  - intros w w' r. apply NewInstance_returns_embedded.
  - intros w1 w1' w2 w2' r1 r2 H1 H2.
    apply NewInstance_returns_embedded in H1, H2. congruence.
  - intros w w1 vs self. apply NewInstance_Execute_returns.
  - intros w w' r inst y f v Hrun Ha Hf Hv.
    apply NewInstance_returns_embedded in Hrun as ->.
    change (VariableValue_Execute [y; f]
              (set_closure (<[y := Share a]> (closure w')) w')
            = (Normal v, set_closure (<[y := Share a]> (closure w')) w')).
    apply VariableValue_Execute_resolves.
    eapply resolves_field; [apply lookup_insert_eq|exact Ha|].
    by apply resolves_last.
  - intros w self vs vs' x y f rv v Ha Hno Hargs Hargs2 Hrv Hv.
    set (w1 := set_closure (<[x := Share a]> (closure w)) w).
    set (w2 :=
           set_instances
             (<[a := mkClassInstance (cls_ self) (<[f := v]> (fields_ self))]>
                (instances w1)) w1).
    set (w3 := set_closure (<[y := Share a]> (closure w2)) w2).
    assert (Execute (S (S n)) (Assignment x (NewInstance a args)) w
            = (Normal (Share a), w1)) as Hs1.
    { rewrite Execute_S. cbn. unfold Assignment_Execute.
      destruct (NewInstance_Execute_returns n a args w w vs self Hargs Ha)
        as [Hrun _].
      by rewrite (bind_Normal _ _ _ _ _ (Hrun Hno)). }
    assert (Execute (S (S n)) (FieldAssignment [x] f rv) w1
            = (Normal v, w2)) as Hs2.
    { rewrite Execute_S. cbn. unfold FieldAssignment_Execute.
      assert (VariableValue_Execute [x] w1 = (Normal (Share a), w1)) as Hx.
      { unfold VariableValue_Execute. cbn. unfold bind, get, instance_at. cbn.
        rewrite lookup_insert_eq. cbn. by rewrite Ha. }
      rewrite (bind_Normal _ _ _ _ _ Hx). rewrite (bind_Normal _ _ _ _ _ Hrv).
      cbn. unfold bind, instance_at. cbn. by rewrite Ha. }
    assert (instances w2 !! a
            = Some (mkClassInstance (cls_ self) (<[f := v]> (fields_ self))))
      as Ha2 by apply lookup_insert_eq.
    assert (Execute (S (S n)) (Assignment y (NewInstance a args)) w2
            = (Normal (Share a), w3)) as Hs3.
    { rewrite Execute_S. cbn. unfold Assignment_Execute.
      destruct (NewInstance_Execute_returns n a args w2 w2 vs' _ Hargs2 Ha2)
        as [Hrun _].
      by rewrite (bind_Normal _ _ _ _ _ (Hrun Hno)). }
    split.
    + rewrite Execute_S. cbn. unfold Compound_Execute.
      cbn [for_each].
      unfold bind at 1 2. rewrite Hs1.
      unfold bind at 1 2. rewrite Hs2.
      unfold bind at 1 2. rewrite Hs3. done.
    + change (VariableValue_Execute [y; f] w3 = (Normal v, w3)).
      apply VariableValue_Execute_resolves.
      eapply resolves_field.
      * apply lookup_insert_eq.
      * exact Ha2.
      * apply resolves_last; [apply lookup_insert_eq | exact Hv].
Qed.

(** X14.  A [ClassDefinition] binds the name of its class and leaves its
    own holder moved from, so that executing the same node again
    dereferences the null result of [TryAs<Class>]. *)
Lemma ClassDefinition_moves_its_holder (n : nat) (a : addr) (c : Class)
    (w : World) :
  holders w !! a = Some (Own (ClassObject c)) →
  let w' :=
    set_holders (<[a := ObjectHolder_None]> (holders w))
      (set_closure (<[GetName c := Own (ClassObject c)]> (closure w)) w) in
  Execute (S n) (ClassDefinition a) w = (Normal ObjectHolder_None, w')
  ∧ Execute (S n) (ClassDefinition a) w' = (Undefined, w').
Proof.
  intros Ha w'. rewrite !Execute_S. cbn. unfold ClassDefinition_Execute.
  split.
  - unfold bind, get. cbn. by rewrite Ha.
  - unfold bind, get. cbn. by rewrite lookup_insert_eq.
Qed.

Lemma NewInstance_same_object_witness :
  let w0 := mkWorld (<["x" := Own (Number 1)]> ∅) "" ∅ ∅ in
  let point := NewInstance 1%positive [VariableValue ["x"]] in
  let built :=
    set_instances
      (<[1%positive := ClassInstance_new example_point_class]> (instances w0))
      w0 in
  let initialised :=
    set_instances
      (<[1%positive := mkClassInstance example_point_class
                         (<["v" := Own (Number 1)]> ∅)]> (instances built))
      built in
  let later := set_closure (<["p" := Share 1%positive]> (closure initialised))
                           initialised in
  let node := NewInstance 1%positive [] in
  let w :=
    set_instances
      (<[1%positive := ClassInstance_new example_class]> (instances w0)) w0 in
  let w1 := set_closure (<["first" := Share 1%positive]> (closure w)) w in
  let w2 :=
    set_instances
      (<[1%positive := mkClassInstance example_class
                         (<["f" := Own (Number 1)]> ∅)]> (instances w1)) w1 in
  let w3 := set_closure (<["second" := Share 1%positive]> (closure w2)) w2 in
  NewInstance_new example_point_class [VariableValue ["x"]] w0 = (point, built)
  ∧ Execute 5 point built = (Normal (Share 1%positive), initialised)
  ∧ Execute 1 (VariableValue ["p"; "v"]) later = (Normal (Own (Number 1)), later)
  ∧ NewInstance_new example_class [] w0 = (node, w)
  ∧ Execute 5 node w = (Normal (Share 1%positive), w)
  ∧ Execute 7 (Compound [Assignment "first" node;
                         FieldAssignment ["first"] "f" (VariableValue ["x"]);
                         Assignment "second" node]) w
    = (Normal ObjectHolder_None, w3)
  ∧ Execute 1 (VariableValue ["second"; "f"]) w3 = (Normal (Own (Number 1)), w3).
Proof.
  cbv zeta.
  destruct (NewInstance_same_object 4 example_point_class [VariableValue ["x"]]
              (mkWorld (<["x" := Own (Number 1)]> ∅) "" ∅ ∅))
    as (a & Hnew & _ & _ & _ & Hrun & Hread & _).
  assert (a = 1%positive) as ->.
  { apply (f_equal fst) in Hnew. vm_compute in Hnew. by injection Hnew. }
  destruct (NewInstance_same_object 4 example_class []
              (mkWorld (<["x" := Own (Number 1)]> ∅) "" ∅ ∅))
    as (b & Hnew' & _ & _ & _ & Hrun' & _ & Hprogram).
  assert (b = 1%positive) as ->.
  { apply (f_equal fst) in Hnew'. vm_compute in Hnew'. by injection Hnew'. }
  cbv zeta in Hread, Hprogram.
  set (w0 := mkWorld (<["x" := Own (Number 1)]> ∅) "" ∅ ∅) in *.
  set (built :=
         set_instances
           (<[1%positive := ClassInstance_new example_point_class]>
              (instances w0)) w0) in *.
  set (w :=
         set_instances
           (<[1%positive := ClassInstance_new example_class]> (instances w0))
           w0) in *.
  destruct (Hrun built built [Own (Number 1)]
              (ClassInstance_new example_point_class))
    as [_ Hinit]; [vm_compute; reflexivity..|].
  specialize (Hinit ObjectHolder_None
                (set_instances
                   (<[1%positive := mkClassInstance example_point_class
                                      (<["v" := Own (Number 1)]> ∅)]>
                      (instances built)) built)
                ltac:(vm_compute; reflexivity) ltac:(vm_compute; reflexivity)).
  destruct (Hrun' w w [] (ClassInstance_new example_class))
    as [Hnoinit _]; [vm_compute; reflexivity..|].
  destruct (Hprogram w (ClassInstance_new example_class) [] []
              "first" "second" "f" (VariableValue ["x"]) (Own (Number 1)))
    as [Hcompound Hfield].
  { vm_compute. reflexivity. }
  { vm_compute. reflexivity. }
  { vm_compute. reflexivity. }
  { vm_compute. reflexivity. }
  { vm_compute. reflexivity. }
  { intros a Ha. discriminate Ha. }
  split_and!.
  - exact Hnew.
  - exact Hinit.
  - apply (Hread built _ (Share 1%positive)
             (mkClassInstance example_point_class (<["v" := Own (Number 1)]> ∅))
             "p" "v" (Own (Number 1)) Hinit).
    + vm_compute. reflexivity.
    + vm_compute. reflexivity.
    + intros a Ha. discriminate Ha.
  - exact Hnew'.
  - apply Hnoinit. vm_compute. reflexivity.
  - exact Hcompound.
  - exact Hfield.
Defined.

(** C10, as stated, fails: with an [__init__] for its arguments, a later
    execution of the node runs [__init__] again on the same instance.  The
    class [P] stores the argument of [__init__] in the field [v]; the field
    is set to [2] through the holder of the first execution, and after the
    second execution both holders read [1]. *)
Lemma NewInstance_init_overwrites :
  let node := NewInstance 2%positive [VariableValue ["x"]] in
  let two := Add (Some (VariableValue ["x"])) (Some (VariableValue ["x"])) in
  let with_v v w :=
    set_instances
      (<[2%positive := mkClassInstance example_point_class
                         (<["v" := Own (Number v)]> ∅)]> (instances w)) w in
  let w1 :=
    set_closure (<["first" := Share 2%positive]> (closure example_point_world))
                (with_v 1%Z example_point_world) in
  let w2 := with_v 2%Z w1 in
  let w3 := set_closure (<["second" := Share 2%positive]> (closure w1)) w1 in
  Execute 7 (Compound [Assignment "first" node;
                       FieldAssignment ["first"] "v" two]) example_point_world
  = (Normal ObjectHolder_None, w2)
  ∧ Execute 1 (VariableValue ["first"; "v"]) w2 = (Normal (Own (Number 2)), w2)
  ∧ Execute 7 (Assignment "second" node) w2 = (Normal (Share 2%positive), w3)
  ∧ Execute 1 (VariableValue ["second"; "v"]) w3 = (Normal (Own (Number 1)), w3)
  ∧ Execute 1 (VariableValue ["first"; "v"]) w3 = (Normal (Own (Number 1)), w3)
  ∧ (Execute 1 (VariableValue ["second"; "v"]) w3).1
    ≠ Normal (Own (Number 2)).
Proof.
  cbv zeta. split_and!; try (vm_compute; reflexivity).
  vm_compute. discriminate.
Qed.

End Evaluator.

(** ** The lexer *)
Section Lexing.
Import parse.

(** *** Tokens *)
Lemma Token_eq_true (a b : Token) : Token_eq a b = true → a = b.
Proof.
  unfold Token_eq.
  destruct a, b; cbn; try discriminate; try reflexivity.
  - intros H. by apply Z.eqb_eq in H as ->.
  - intros H. by apply String.eqb_eq in H as ->.
  - intros H. by apply String.eqb_eq in H as ->.
  - intros H. by apply Ascii.eqb_eq in H as ->.
Qed.

Lemma back_is_not_false (t : Token) (l : Lexer) :
  back_is_not t l = false → tokens_ l = [] ∨ last (tokens_ l) = Some t.
Proof.
  unfold back_is_not, Token_ne.
  destruct (last (tokens_ l)) as [b|] eqn:Hlast.
  - intros H. apply negb_false_iff, Token_eq_true in H as ->. by right.
  - intros _. left. by apply last_None.
Qed.

Lemma ParseTokens_ends_with_Eof (fuel : nat) (l l' : Lexer) :
  ParseTokens fuel l = Done l' → ends_with_Eof (tokens_ l').
Proof.
  unfold ParseTokens.
  destruct (ParseTokens_loop _ _ _) as [l1| | |]; try done.
  intros [= <-].
  destruct (back_is_not token_type.Newline l1) eqn:Hn; cbn.
  - destruct (back_is_not token_type.Dedent l1) eqn:Hd; cbn.
    + exists (tokens_ l1 ++ [token_type.Newline]). split; [done|].
      right; left. apply last_snoc.
    + exists (tokens_ l1). split; [done|].
      apply back_is_not_false in Hd as [?|?]; auto.
  - exists (tokens_ l1). split; [done|].
    apply back_is_not_false in Hn as [?|?]; auto.
Qed.

(** *** The stream *)
Lemma get_Some (input input' : istream) (c : ascii) :
  get input = (Some c, input') →
  good input = true ∧ ahead input = c :: ahead input'
  ∧ input' = mkIstream (c :: behind input) (ahead input') false false false.
Proof.
  unfold get. destruct (good input); [|done].
  destruct (ahead input) as [|c' rest]; [done|].
  intros [= -> <-]. by cbn.
Qed.

Lemma get_None (input input' : istream) :
  get input = (None, input') →
  ahead input' = ahead input ∧ failbit input' = true.
Proof.
  unfold get, good. destruct input as [b a [] [] []]; destruct a; cbn;
    by intros [= <-].
Qed.

Lemma get_ready (input : istream) (c : ascii) (rest : list ascii) :
  ready input c rest →
  get input = (Some c, mkIstream (c :: behind input) rest false false false).
Proof. intros [Hg Ha]. unfold get. by rewrite Hg, Ha. Qed.

Lemma peek_ahead (input : istream) :
  ahead (peek input).2 = ahead input.
Proof. unfold peek, good. by destruct input as [b [|c a] [] [] []]. Qed.

Lemma peek_Some (input input' : istream) (c : ascii) :
  peek input = (Some c, input') →
  input' = input ∧ good input = true ∧ ∃ rest, ahead input = c :: rest.
Proof.
  unfold peek, good. destruct input as [b [|c' a] [] [] []]; cbn; try done.
  intros [= -> <-]. eauto.
Qed.

Lemma peek_None_failed (input input' : istream) :
  peek input = (None, input') → good input' = false ∧ ahead input' = ahead input.
Proof.
  unfold peek, good. destruct input as [b a [] [] []]; destruct a; cbn;
    intros [= <-]; done.
Qed.

Lemma putback_failed (c : ascii) (input : istream) :
  failbit input = true → ahead (putback c input) = ahead input
                         ∧ failbit (putback c input) = true.
Proof.
  unfold putback, good. by destruct input as [b a [] [] []].
Qed.

Lemma good_record (input : istream) :
  good input = true →
  input = mkIstream (behind input) (ahead input) false false false.
Proof. unfold good. by destruct input as [b a [] [] []]. Qed.

Lemma putback_get (input input' : istream) (c : ascii) :
  get input = (Some c, input') → putback c input' = input.
Proof.
  intros H. apply get_Some in H as (Hg & Ha & ->).
  unfold putback. cbn. rewrite (good_record _ Hg) at 2. by rewrite Ha.
Qed.

Lemma putback_get_eof (input input' : istream) (c : ascii) :
  get input = (Some c, input') → putback c (set_eofbit input') = input.
Proof.
  intros H. apply get_Some in H as (Hg & Ha & ->).
  unfold putback. cbn. rewrite (good_record _ Hg) at 2. by rewrite Ha.
Qed.

(** *** No scanner reads backwards *)

Lemma within_suffix (a a' : list ascii) (r : Outcome) :
  within a r → a `suffix_of` a' → within a' r.
Proof. destruct r; cbn; try done. intros H1 H2. by etrans. Qed.

Lemma within_then (a : list ascii) (f g : Lexer → Outcome) (l : Lexer) :
  within a (f l) →
  (∀ l', ahead (input_ l') `suffix_of` a → within (ahead (input_ l')) (g l')) →
  within a (then_ f g l).
Proof.
  unfold then_. destruct (f l) as [l'| | |]; cbn; try done.
  intros Hf Hg. eapply within_suffix; [by apply Hg|done].
Qed.

Lemma set_input_same (l : Lexer) : set_input (input_ l) l = l.
Proof. by destruct l. Qed.

Lemma set_input_twice (i j : istream) (l : Lexer) :
  set_input i (set_input j l) = set_input i l.
Proof. done. Qed.

Lemma scan_while_within (fuel : nat) (keep : ascii → bool) (str : string)
    (input : istream) :
  length (ahead input) < fuel →
  scan_within (ahead input) (scan_while fuel keep str input).
Proof.
  revert str input. induction fuel as [|fuel IH]; intros str input Hlen; [lia|].
  cbn. destruct (get input) as [[c|] input'] eqn:Hget.
  - pose proof (putback_get _ _ _ Hget) as Hback.
    apply get_Some in Hget as (_ & Ha & _).
    destruct (keep c).
    + rewrite Ha in Hlen |- *. cbn in Hlen.
      specialize (IH (push_back str c) input' ltac:(lia)).
      destruct (scan_while _ _ _ _); cbn in *; try done.
      by apply suffix_cons_r.
    + cbn. by rewrite Hback.
  - cbn. by apply get_None in Hget as [-> _].
Qed.

Lemma SkipSpaces_loop_within (fuel : nat) (input : istream) :
  length (ahead input) < fuel →
  scan_within (ahead input) (SkipSpaces_loop fuel input).
Proof.
  revert input. induction fuel as [|fuel IH]; intros input Hlen; [lia|].
  cbn. destruct (peek input) as [[c|] input'] eqn:Hpeek.
  - apply peek_Some in Hpeek as (-> & Hgood & rest & Ha).
    destruct (Ascii.eqb c space); [|by cbn].
    rewrite (get_ready input c rest) by done. cbn.
    rewrite Ha in Hlen |- *. cbn in Hlen.
    specialize (IH (mkIstream (c :: behind input) rest false false false)
                   ltac:(cbn; lia)).
    destruct (SkipSpaces_loop _ _); cbn in *; try done.
    by apply suffix_cons_r.
  - cbn. by apply peek_None_failed in Hpeek as [_ ->].
Qed.

Lemma ParseStrings_loop_within (fuel : nat) (open_char : ascii) (str : string)
    (input : istream) :
  length (ahead input) < fuel →
  scan_within (ahead input) (ParseStrings_loop fuel open_char str input).
Proof.
  revert str input. induction fuel as [|fuel IH]; intros str input Hlen; [lia|].
  cbn. destruct (get input) as [[c|] input'] eqn:Hget.
  - apply get_Some in Hget as (_ & Ha & _).
    rewrite Ha in Hlen |- *. cbn in Hlen.
    destruct (Ascii.eqb c open_char); [by apply suffix_cons_r|].
    destruct (Ascii.eqb c backslash).
    + destruct (get input') as [[esc|] input''] eqn:Hesc.
      * apply get_Some in Hesc as (_ & Ha' & _).
        destruct (escape esc) as [unescaped|]; [|done].
        rewrite Ha' in Hlen |- *. cbn in Hlen.
        specialize (IH (push_back str unescaped) input'' ltac:(lia)).
        destruct (ParseStrings_loop _ _ _ _); cbn in *; try done.
        by do 2 apply suffix_cons_r.
      * apply get_None in Hesc as [Ha' _].
        specialize (IH str input'' ltac:(rewrite Ha'; lia)).
        destruct (ParseStrings_loop _ _ _ _); cbn in *; try done.
        apply suffix_cons_r. by rewrite <- Ha'.
    + destruct (_ || _); [done|].
      specialize (IH (push_back str c) input' ltac:(lia)).
      destruct (ParseStrings_loop _ _ _ _); cbn in *; try done.
      by apply suffix_cons_r.
  - cbn. by apply get_None in Hget as [-> _].
Qed.

(** What the loop of [ParseIndent] leaves: after a character that is not a
    space, the stream that [get] made of one with a suffix of [a] to read;
    else a failed stream. *)
Lemma ParseIndent_loop_within (fuel : nat) (count : Z) (input : istream) :
  length (ahead input) < fuel →
  match ParseIndent_loop fuel count input with
  | Finished (_, Some c) input' =>
      ∃ input0, get input0 = (Some c, input')
                ∧ ahead input0 `suffix_of` ahead input
  | Finished (_, None) input' =>
      failbit input' = true ∧ ahead input' `suffix_of` ahead input
  | Raised _ => True
  | Starved => False
  end.
Proof.
  revert count input. induction fuel as [|fuel IH]; intros count input Hlen; [lia|].
  cbn. destruct (get input) as [[c|] input'] eqn:Hget.
  - destruct (Ascii.eqb c space).
    + apply get_Some in Hget as (_ & Ha & _).
      rewrite Ha in Hlen |- *. cbn in Hlen.
      specialize (IH (count + 1)%Z input' ltac:(lia)).
      destruct (ParseIndent_loop _ _ _) as [[n [c'|]] i| |]; try done.
      * destruct IH as (i0 & Hi0 & Hs). exists i0. split; [done|].
        by apply suffix_cons_r.
      * destruct IH as [Hf Hs]. split; [done|]. by apply suffix_cons_r.
    + by exists input.
  - apply get_None in Hget as [-> Hf]. done.
Qed.

Lemma getline_within (delim : ascii) (input : istream) :
  ahead (getline delim input) `suffix_of` ahead input
  ∧ (rdstate_is_eofbit (getline delim input) = false →
     ahead (putback delim (getline delim input)) `suffix_of` ahead input).
Proof.
  unfold getline. destruct (good input) eqn:Hgood.
  2:{ split; [done|]. intros _.
      by rewrite (proj1 (putback_failed delim (set_failbit input) eq_refl)). }
  destruct (ahead input) as [|c0 rest0] eqn:Ha.
  { split; [by cbn; rewrite Ha|]. intros _.
    rewrite (proj1 (putback_failed delim (set_failbit (set_eofbit input)) eq_refl)).
    cbn. by rewrite Ha. }
  rewrite <- Ha. clear Ha c0 rest0 Hgood.
  generalize (behind input). induction (ahead input) as [|c rest IH]; intros b.
  - cbn. split; [done|]. intros [=].
  - cbn. destruct (Ascii.eqb c delim) eqn:Hc.
    + apply Ascii.eqb_eq in Hc as ->. cbn. split; [by apply suffix_cons_r|done].
    + destruct (IH (c :: b)) as [H1 H2].
      split; [by apply suffix_cons_r|]. intros H. by apply suffix_cons_r, H2.
Qed.

Lemma SkipSpaces_within (fuel : nat) (l : Lexer) :
  length (ahead (input_ l)) < fuel →
  within (ahead (input_ l)) (SkipSpaces fuel l).
Proof.
  intros Hlen. unfold SkipSpaces.
  pose proof (SkipSpaces_loop_within fuel (input_ l) Hlen) as H.
  by destruct (SkipSpaces_loop _ _).
Qed.

Lemma ParseNumbers_within (fuel : nat) (l : Lexer) :
  length (ahead (input_ l)) < fuel →
  within (ahead (input_ l)) (ParseNumbers fuel l).
Proof.
  intros Hlen. unfold ParseNumbers.
  pose proof (peek_ahead (input_ l)) as Hp.
  destruct (peek (input_ l)) as [peeked input]. cbn in Hp.
  destruct (isdigit _); [|by cbn; rewrite Hp].
  pose proof (scan_while_within fuel isdigit "" input ltac:(by rewrite Hp)) as H.
  destruct (scan_while _ _ _ _) as [num input'| |]; try done.
  destruct (stoi num); [done|]. cbn in *. by rewrite <- Hp.
Qed.

Lemma ParseId_within (fuel : nat) (l : Lexer) :
  length (ahead (input_ l)) < fuel →
  within (ahead (input_ l)) (ParseId fuel l).
Proof.
  intros Hlen. unfold ParseId.
  pose proof (peek_ahead (input_ l)) as Hp.
  destruct (peek (input_ l)) as [peeked input]. cbn in Hp.
  destruct (_ || _); [|by cbn; rewrite Hp].
  pose proof (scan_while_within fuel (λ c, isalnum c || Ascii.eqb c underscore)
                "" input ltac:(by rewrite Hp)) as H.
  destruct (scan_while _ _ _ _) as [id input'| |]; try done.
  destruct (keywords_ !! id); cbn in *; by rewrite <- Hp.
Qed.

Lemma ParseStrings_within (fuel : nat) (l : Lexer) :
  length (ahead (input_ l)) < fuel →
  within (ahead (input_ l)) (ParseStrings fuel l).
Proof.
  intros Hlen. unfold ParseStrings.
  destruct (get (input_ l)) as [[c|] input] eqn:Hget.
  - pose proof (putback_get _ _ _ Hget) as Hback.
    apply get_Some in Hget as (_ & Ha & _). cbn [to_char].
    destruct (_ || _); [|by cbn; rewrite Hback].
    rewrite Ha in Hlen |- *. cbn in Hlen.
    pose proof (ParseStrings_loop_within fuel c "" input ltac:(lia)) as H.
    destruct (ParseStrings_loop _ _ _ _); try done.
    cbn in *. by apply suffix_cons_r.
  - apply get_None in Hget as [Ha Hf]. cbn [to_char].
    destruct (_ || _).
    + pose proof (ParseStrings_loop_within fuel (ascii_of_nat 255) "" input
                    ltac:(by rewrite Ha)) as H.
      destruct (ParseStrings_loop _ _ _ _); try done.
      cbn in *. by rewrite <- Ha.
    + cbn. rewrite (proj1 (putback_failed _ _ Hf)). by rewrite Ha.
Qed.

Lemma putback_peek_get (input input' : istream) (c : ascii) :
  get input = (Some c, input') → putback c (peek input').2 = input.
Proof.
  intros Hget.
  pose proof (putback_get _ _ _ Hget) as Hback.
  pose proof (putback_get_eof _ _ _ Hget) as Hback'.
  apply get_Some in Hget as (_ & _ & Hin).
  unfold peek. rewrite Hin at 1. unfold good at 1. cbn [eofbit failbit badbit orb negb].
  by destruct (ahead input').
Qed.

Lemma ParseComparisonOperators_within (l : Lexer) :
  within (ahead (input_ l)) (ParseComparisonOperators l).
Proof.
  unfold ParseComparisonOperators.
  destruct (get (input_ l)) as [[c|] input] eqn:Hget.
  - pose proof (get_Some _ _ _ Hget) as (_ & Ha & Hin).
    assert (∀ t, within (ahead (input_ l))
              (Done (emplace_back t (set_input (get (peek input).2).2 l)))) as Hemit.
    { intros t. cbn. rewrite Ha. apply suffix_cons_r.
      destruct (get (peek input).2) as [[c'|] i'] eqn:Hg'; cbn.
      - apply get_Some in Hg' as (_ & Ha' & _). rewrite peek_ahead in Ha'.
        rewrite Ha'. by apply suffix_cons_r.
      - apply get_None in Hg' as [-> _]. by rewrite peek_ahead. }
    assert (within (ahead (input_ l))
              (Done (set_input (putback c (peek input).2) l))) as Hback''.
    { cbn. by rewrite (putback_peek_get _ _ _ Hget). }
    destruct (peek input) as [peeked input'] eqn:Hpeek. cbn [snd] in Hemit, Hback''.
    cbn [from_option id].
    repeat (destruct (_ && _); [apply Hemit|]). apply Hback''.
  - apply get_None in Hget as [Ha Hf].
    destruct (peek input) as [peeked input'] eqn:Hpeek.
    assert (failbit input' = true ∧ ahead input' = ahead input) as [Hf' Ha'].
    { revert Hpeek. unfold peek, good.
      destruct input as [b a [] [] []]; try done; cbn; by intros [= <- <-]. }
    cbn. rewrite (proj1 (putback_failed _ _ Hf')). by rewrite Ha', Ha.
Qed.

Lemma SkipComment_within (l : Lexer) (rest : list ascii) :
  ready (input_ l) hash rest → within rest (SkipComment l).
Proof.
  intros Hready. unfold SkipComment. rewrite (get_ready _ _ _ Hready).
  set (input := mkIstream _ _ _ _ _). rewrite Ascii.eqb_refl.
  destruct (getline_within newline input) as [H1 H2].
  destruct (rdstate_is_eofbit _); cbn; [done|by apply H2].
Qed.

Lemma ParseChar_within (l : Lexer) :
  within (ahead (input_ l)) (ParseChar l).
Proof.
  unfold ParseChar. destruct (peek (input_ l)) as [[c|] input] eqn:Hpeek.
  - apply peek_Some in Hpeek as (-> & Hgood & rest & Ha). cbn [to_char].
    rewrite set_input_same.
    destruct (ispunct c); [|by cbn].
    destruct (Ascii.eqb c hash) eqn:Hc.
    + apply Ascii.eqb_eq in Hc as ->.
      rewrite Ha. eapply within_suffix; [by apply (SkipComment_within l rest)|].
      by apply suffix_cons_r.
    + rewrite (get_ready (input_ l) c rest) by done. cbn. rewrite Ha.
      by apply suffix_cons_r.
  - apply peek_None_failed in Hpeek as [Hbad Ha]. cbn [to_char].
    replace (ispunct (ascii_of_nat 255)) with false by (by vm_compute).
    by cbn; rewrite Ha.
Qed.

Lemma ParseIndent_within (fuel : nat) (l : Lexer) :
  length (ahead (input_ l)) < fuel →
  within (ahead (input_ l)) (ParseIndent fuel l).
Proof.
  intros Hlen. unfold ParseIndent.
  pose proof (ParseIndent_loop_within fuel 0 (input_ l) Hlen) as H.
  destruct (ParseIndent_loop _ _ _) as [[n [c|]] input| |]; try done.
  - destruct H as (input0 & Hget & Hs).
    pose proof (putback_get _ _ _ Hget) as Hback.
    assert (rdstate_is_eofbit input = false) as ->.
    { by apply get_Some in Hget as (_ & _ & ->). }
    cbn [negb from_option id]. rewrite Hback.
    pose proof (peek_ahead input0) as Hp. destruct (peek input0) as [peeked input'].
    cbn in Hp. destruct (Ascii.eqb _ _ || _); cbn; by rewrite Hp.
  - destruct H as [Hf Hs].
    assert (rdstate_is_eofbit input = false) as ->.
    { unfold rdstate_is_eofbit. rewrite Hf. by destruct (eofbit input). }
    cbn [negb from_option id].
    set (back := putback indeterminate input).
    assert (ahead back = ahead input) as Hb by apply (putback_failed _ _ Hf).
    pose proof (peek_ahead back) as Hp. destruct (peek back) as [peeked input'].
    cbn in Hp. destruct (Ascii.eqb _ _ || _); cbn; by rewrite Hp, Hb.
Qed.

(** *** A scanner leaves a character that is not its own where it is, and
    takes one that is *)
Section Ready.
Variables (fuel : nat) (l : Lexer) (c : ascii) (rest : list ascii).
Hypothesis Hready : ready (input_ l) c rest.
Hypothesis Hfuel : length (ahead (input_ l)) < fuel.

Lemma ready_get :
  get (input_ l)
  = (Some c, mkIstream (c :: behind (input_ l)) rest false false false).
Proof. by apply get_ready. Qed.

Lemma ready_peek : peek (input_ l) = (Some c, input_ l).
Proof. destruct Hready as [Hg Ha]. unfold peek. by rewrite Hg, Ha. Qed.

Lemma ready_rest : length rest < fuel ∧ ahead (input_ l) = c :: rest.
Proof using Hready Hfuel.
  destruct Hready as [_ Ha]. rewrite Ha in Hfuel. cbn in Hfuel. split; [lia|done].
Qed.

Lemma ParseNewLine_pass :
  Ascii.eqb c newline = false → ParseNewLine fuel l = Done l.
Proof using Hready.
  intros Hc. unfold ParseNewLine. rewrite ready_get, Hc.
  by rewrite (putback_get _ _ _ ready_get), set_input_twice, set_input_same.
Qed.

Lemma ParseNewLine_eats :
  Ascii.eqb c newline = true → within rest (ParseNewLine fuel l).
Proof using Hready Hfuel.
  intros Hc. unfold ParseNewLine. rewrite ready_get, Hc.
  destruct ready_rest as [Hlen _].
  destruct (back_is_not _ _);
    match goal with |- within _ (ParseIndent _ ?l') =>
      exact (ParseIndent_within fuel l' Hlen) end.
Qed.

Lemma ParseStrings_pass :
  Ascii.eqb c single_quote = false → Ascii.eqb c double_quote = false →
  ParseStrings fuel l = Done l.
Proof using Hready.
  intros H1 H2. unfold ParseStrings. rewrite ready_get. cbn [to_char].
  rewrite H1, H2. cbn [orb].
  by rewrite (putback_get _ _ _ ready_get), set_input_same.
Qed.

Lemma ParseStrings_eats :
  Ascii.eqb c single_quote || Ascii.eqb c double_quote = true →
  within rest (ParseStrings fuel l).
Proof using Hready Hfuel.
  intros Hc. unfold ParseStrings. rewrite ready_get. cbn [to_char]. rewrite Hc.
  destruct ready_rest as [Hlen _].
  pose proof (ParseStrings_loop_within fuel c ""
    (mkIstream (c :: behind (input_ l)) rest false false false) Hlen) as H.
  by destruct (ParseStrings_loop _ _ _ _).
Qed.

Lemma scan_while_eats (keep : ascii → bool) :
  keep c = true →
  scan_within rest (scan_while fuel keep "" (input_ l)).
Proof using Hready Hfuel.
  intros Hc. destruct ready_rest as [Hlen _].
  destruct fuel as [|fuel']; [lia|]. cbn. rewrite ready_get, Hc.
  apply (scan_while_within fuel' keep _
           (mkIstream (c :: behind (input_ l)) rest false false false)).
  cbn. destruct Hready as [_ Ha]. rewrite Ha in Hfuel. cbn in Hfuel. lia.
Qed.

Lemma ParseId_pass :
  isalpha c || Ascii.eqb c underscore = false → ParseId fuel l = Done l.
Proof using Hready.
  intros Hc. unfold ParseId. rewrite ready_peek. cbn [to_char]. rewrite Hc.
  by rewrite set_input_same.
Qed.

Lemma ParseId_eats :
  isalpha c || Ascii.eqb c underscore = true → within rest (ParseId fuel l).
Proof using Hready Hfuel.
  intros Hc. unfold ParseId. rewrite ready_peek. cbn [to_char]. rewrite Hc.
  assert (isalnum c || Ascii.eqb c underscore = true) as Hkeep.
  { unfold isalnum. apply orb_true_iff in Hc as [H|H]; rewrite H; [done|].
    apply orb_true_r. }
  pose proof (scan_while_eats (λ c, isalnum c || Ascii.eqb c underscore) Hkeep) as H.
  destruct (scan_while _ _ _ _) as [id input'| |]; try done.
  by destruct (keywords_ !! id).
Qed.

Lemma ParseNumbers_pass : isdigit c = false → ParseNumbers fuel l = Done l.
Proof using Hready.
  intros Hc. unfold ParseNumbers. rewrite ready_peek. cbn [to_char]. rewrite Hc.
  by rewrite set_input_same.
Qed.

Lemma ParseNumbers_eats : isdigit c = true → within rest (ParseNumbers fuel l).
Proof using Hready Hfuel.
  intros Hc. unfold ParseNumbers. rewrite ready_peek. cbn [to_char]. rewrite Hc.
  pose proof (scan_while_eats isdigit Hc) as H.
  destruct (scan_while _ _ _ _) as [num input'| |]; try done.
  by destruct (stoi num).
Qed.

Lemma ParseChar_pass : ispunct c = false → ParseChar l = Done l.
Proof using Hready.
  intros Hc. unfold ParseChar. rewrite ready_peek. cbn [to_char].
  by rewrite Hc, set_input_same.
Qed.

Lemma ParseChar_eats : ispunct c = true → within rest (ParseChar l).
Proof using Hready.
  intros Hc. unfold ParseChar. rewrite ready_peek. cbn [to_char].
  rewrite Hc, set_input_same.
  destruct (Ascii.eqb c hash) eqn:Hh.
  - apply Ascii.eqb_eq in Hh. subst c. by apply SkipComment_within.
  - rewrite ready_get. by cbn.
Qed.

Lemma ParseComparisonOperators_ready :
  ParseComparisonOperators l = Done l
  ∨ within rest (ParseComparisonOperators l).
Proof using Hready.
  unfold ParseComparisonOperators. rewrite ready_get.
  set (input := mkIstream _ _ _ _ _).
  pose proof (putback_peek_get _ _ _ ready_get) as Hback. fold input in Hback.
  assert (∀ t, within rest
            (Done (emplace_back t (set_input (get (peek input).2).2 l)))) as Hemit.
  { intros t.
    destruct (get (peek input).2) as [[c'|] i'] eqn:Hg'; cbn [snd within input_ emplace_back set_input].
    - apply get_Some in Hg' as (_ & Ha' & _). rewrite peek_ahead in Ha'.
      cbn in Ha'. rewrite Ha'. by apply suffix_cons_r.
    - apply get_None in Hg' as [-> _]. by rewrite peek_ahead. }
  destruct (peek input) as [peeked input'] eqn:Hpeek. cbn [snd] in Hemit, Hback.
  cbn [from_option id].
  repeat (destruct (_ && _); [right; apply Hemit|]).
  left. by rewrite Hback, set_input_same.
Qed.

Lemma ParseComparisonOperators_pass :
  ispunct c = false → ParseComparisonOperators l = Done l.
Proof using Hready.
  intros Hc. unfold ParseComparisonOperators. rewrite ready_get.
  set (input := mkIstream _ _ _ _ _).
  pose proof (putback_peek_get _ _ _ ready_get) as Hback. fold input in Hback.
  destruct (peek input) as [peeked input'] eqn:Hpeek. cbn [snd] in Hback.
  cbn [from_option id]. rewrite Hback, set_input_same.
  destruct (Ascii.eqb c "=") eqn:H1; [by apply Ascii.eqb_eq in H1 as ->|].
  destruct (Ascii.eqb c ">") eqn:H2; [by apply Ascii.eqb_eq in H2 as ->|].
  destruct (Ascii.eqb c "<") eqn:H3; [by apply Ascii.eqb_eq in H3 as ->|].
  destruct (Ascii.eqb c "!") eqn:H4; [by apply Ascii.eqb_eq in H4 as ->|].
  done.
Qed.

Lemma SkipSpaces_eats :
  Ascii.eqb c space = true → within rest (SkipSpaces fuel l).
Proof using Hready Hfuel.
  intros Hc. unfold SkipSpaces. destruct ready_rest as [Hlen _].
  destruct fuel as [|fuel']; [lia|]. cbn. rewrite ready_peek, Hc, ready_get.
  cbn [snd].
  pose proof (SkipSpaces_loop_within fuel'
    (mkIstream (c :: behind (input_ l)) rest false false false)) as H.
  cbn in H. destruct Hready as [_ Ha]. rewrite Ha in Hfuel. cbn in Hfuel.
  specialize (H ltac:(lia)).
  by destruct (SkipSpaces_loop _ _).
Qed.
End Ready.

(** *** Every turn of the loop takes a character *)

Lemma lexable_cases (c : ascii) :
  lexable c = true →
  Ascii.eqb c newline = true
  ∨ Ascii.eqb c newline = false
    ∧ (Ascii.eqb c single_quote || Ascii.eqb c double_quote = true
       ∨ Ascii.eqb c single_quote = false ∧ Ascii.eqb c double_quote = false
         ∧ (isalpha c || Ascii.eqb c underscore = true
            ∨ isalpha c || Ascii.eqb c underscore = false
              ∧ (ispunct c = true
                 ∨ ispunct c = false
                   ∧ (isdigit c = true
                      ∨ isdigit c = false ∧ Ascii.eqb c space = true)))).
Proof.
  destruct c as [[] [] [] [] [] [] [] []]; vm_compute; intros H;
    first [discriminate H | tauto].
Qed.

Ltac after_it Hfuel :=
  let l' := fresh "l'" in
  let Hs := fresh "Hs" in
  intros l' Hs;
  first [ apply ParseStrings_within | apply ParseId_within
        | apply ParseComparisonOperators_within | apply ParseChar_within
        | apply ParseNumbers_within | apply SkipSpaces_within ];
  apply suffix_length in Hs; lia.

Lemma ParseTokens_body_eats (fuel : nat) (l : Lexer) (c : ascii)
    (rest : list ascii) :
  ready (input_ l) c rest →
  length (ahead (input_ l)) < fuel →
  lexable c = true →
  within rest (ParseTokens_body fuel l).
Proof.
  intros Hready Hfuel Hc.
  destruct (ready_rest fuel l c rest Hready Hfuel) as [Hlen _].
  unfold ParseTokens_body.
  destruct (lexable_cases c Hc)
    as [Hn|[Hn [Hq|(Hq1 & Hq2 & [Ha|[Ha [Hp|[Hp [Hd|[Hd Hs]]]]]])]]].
  - do 6 (apply within_then; [|after_it Hlen]).
    by eapply ParseNewLine_eats.
  - do 5 (apply within_then; [|after_it Hlen]).
    unfold then_. rewrite (ParseNewLine_pass fuel l c rest) by done.
    by eapply ParseStrings_eats.
  - do 4 (apply within_then; [|after_it Hlen]).
    unfold then_. rewrite (ParseNewLine_pass fuel l c rest) by done.
    rewrite (ParseStrings_pass fuel l c rest) by done.
    by eapply ParseId_eats.
  - destruct (ParseComparisonOperators_ready l c rest Hready) as [Hcmp|Hcmp].
    + do 2 (apply within_then; [|after_it Hlen]).
      unfold then_. rewrite (ParseNewLine_pass fuel l c rest) by done.
      rewrite (ParseStrings_pass fuel l c rest) by done.
      rewrite (ParseId_pass fuel l c rest) by done.
      rewrite Hcmp. by eapply ParseChar_eats.
    + do 3 (apply within_then; [|after_it Hlen]).
      unfold then_. rewrite (ParseNewLine_pass fuel l c rest) by done.
      rewrite (ParseStrings_pass fuel l c rest) by done.
      rewrite (ParseId_pass fuel l c rest) by done.
      done.
  - apply within_then; [|after_it Hlen].
    unfold then_. rewrite (ParseNewLine_pass fuel l c rest) by done.
    rewrite (ParseStrings_pass fuel l c rest) by done.
    rewrite (ParseId_pass fuel l c rest) by done.
    rewrite (ParseComparisonOperators_pass l c rest) by done.
    rewrite (ParseChar_pass l c rest) by done.
    by eapply ParseNumbers_eats.
  - unfold then_. rewrite (ParseNewLine_pass fuel l c rest) by done.
    rewrite (ParseStrings_pass fuel l c rest) by done.
    rewrite (ParseId_pass fuel l c rest) by done.
    rewrite (ParseComparisonOperators_pass l c rest) by done.
    rewrite (ParseChar_pass l c rest) by done.
    rewrite (ParseNumbers_pass fuel l c rest) by done.
    by eapply SkipSpaces_eats.
Qed.

Lemma ParseTokens_loop_ends (fuel turns : nat) (l : Lexer) :
  length (ahead (input_ l)) < turns →
  length (ahead (input_ l)) < fuel →
  Forall (λ c, lexable c = true) (ahead (input_ l)) →
  (∃ l', ParseTokens_loop fuel turns l = Done l')
  ∨ (∃ e, ParseTokens_loop fuel turns l = Throw e).
Proof.
  revert l. induction turns as [|turns IH]; intros l Hturns Hfuel Hall; [lia|].
  cbn. destruct (get (input_ l)) as [[c|] input] eqn:Hget; [|by eauto].
  rewrite (putback_get _ _ _ Hget), set_input_same.
  apply get_Some in Hget as (Hgood & Ha & _).
  assert (ready (input_ l) c (ahead input)) as Hready by done.
  rewrite Ha in Hall, Hturns. apply Forall_cons in Hall as [Hc Hall].
  cbn in Hturns.
  pose proof (ParseTokens_body_eats fuel l c _ Hready Hfuel Hc) as H.
  destruct (ParseTokens_body fuel l) as [l'|e| |]; cbn in H; try done; [|by eauto].
  pose proof (suffix_length _ _ H) as Hlen.
  apply IH; [lia| rewrite Ha in Hfuel; cbn in Hfuel; lia |].
  destruct H as [k Hk]. rewrite Hk in Hall. by apply Forall_app in Hall as [_ ?].
Qed.

(** On a text of newlines and printable characters the lexer comes to an
    end, with its tokens or with an exception, on fuel for one turn more
    than the text has characters. *)
Lemma Lexer_new_ends (text : list ascii) :
  Forall (λ c, lexable c = true) text →
  (∃ l', Lexer_new (S (length text)) (istream_of text) = Done l')
  ∨ (∃ e, Lexer_new (S (length text)) (istream_of text) = Throw e).
Proof.
  intros Hall. unfold Lexer_new, ParseTokens, initial_space_count.
  cbn [space_count_ input_].
  destruct (ParseTokens_loop_ends (S (length text)) (S (length text))
              (mkLexer [] 0 (istream_of text))) as [[l' ->]|[e ->]];
    cbn; eauto.
Qed.

(** *** A string literal that the input ends in *)

Lemma push_back_append (str : string) (c : ascii) (s : string) :
  push_back str c +:+ s = str +:+ String.String c s.
Proof.
  unfold push_back. induction str as [|c' str IH]; [done|].
  change (String.String c' ((str +:+ String.String c "") +:+ s)
          = String.String c' (str +:+ String.String c s)).
  by rewrite IH.
Qed.

Lemma append_empty_r (s : string) : s +:+ "" = s.
Proof.
  induction s as [|c s IH]; [done|].
  change (String.String c (s +:+ "") = String.String c s). by rewrite IH.
Qed.

Lemma ParseStrings_loop_unterminated (fuel : nat) (open_char : ascii)
    (str : string) (b body : list ascii) :
  Forall (plain open_char) body →
  length body < fuel →
  ParseStrings_loop fuel open_char str (mkIstream b body false false false)
  = Finished (str +:+ string_of_list_ascii body)
             (mkIstream (rev body ++ b) [] true true false).
Proof.
  revert fuel str b. induction body as [|c body IH]; intros fuel str b Hall Hlen.
  - destruct fuel as [|fuel]; [cbn in Hlen; lia|]. cbn.
    by rewrite append_empty_r.
  - destruct fuel as [|fuel]; [cbn in Hlen; lia|].
    apply Forall_cons in Hall as [(H1 & H2 & H3 & H4) Hall]. cbn in Hlen.
    cbn. rewrite H1, H2, H3, H4. cbn [orb].
    rewrite IH by (done || lia).
    by rewrite push_back_append, <- app_assoc.
Qed.

Lemma ParseTokens_loop_S (fuel turns : nat) (l : Lexer) :
  ParseTokens_loop fuel (S turns) l
  = match get (input_ l) with
    | (Some current_char, input) =>
        match ParseTokens_body fuel (set_input (putback current_char input) l) with
        | Done l => ParseTokens_loop fuel turns l
        | r => r
        end
    | (None, input) => Done (set_input input l)
    end.
Proof. done. Qed.

Lemma ParseTokens_body_unterminated (fuel : nat) (open_char : ascii)
    (b body : list ascii) (ts : list Token) (n : Z) :
  open_char = single_quote ∨ open_char = double_quote →
  Forall (plain open_char) body →
  length body < fuel →
  ParseTokens_body fuel
    (mkLexer ts n (mkIstream b (open_char :: body) false false false))
  = Done (mkLexer (ts ++ [token_type.String (string_of_list_ascii body)]) n
            (mkIstream (rev body ++ open_char :: b) [] false true false)).
Proof.
  intros Hq Hbody Hlen. unfold ParseTokens_body, then_.
  set (l := mkLexer _ _ _).
  assert (ready (input_ l) open_char body) as Hready by done.
  assert (Ascii.eqb open_char newline = false
          ∧ Ascii.eqb open_char single_quote || Ascii.eqb open_char double_quote
            = true) as [Hn Hquote].
  { by destruct Hq as [-> | ->]. }
  rewrite (ParseNewLine_pass fuel l open_char body Hready Hn).
  unfold ParseStrings. rewrite (get_ready _ _ _ Hready). cbn [to_char].
  rewrite Hquote, ParseStrings_loop_unterminated by done.
  destruct fuel as [|fuel]; [lia|].
  subst l. vm_compute. reflexivity.
Qed.

(** C3.  A string literal that the input ends in, before its closing
    quote, is not refused: when nothing in it is a backslash or a line end,
    the lexer is built and its tokens are the [String] of what followed the
    opening quote, [Newline] and [Eof]. *)
Theorem unterminated_string_is_a_token (open_char : ascii) (body : list ascii) :
  open_char = single_quote ∨ open_char = double_quote →
  Forall (plain open_char) body →
  ∃ l',
    Lexer_new (S (S (length body))) (istream_of (open_char :: body)) = Done l'
    ∧ tokens_ l'
      = [token_type.String (string_of_list_ascii body);
         token_type.Newline; token_type.Eof].
Proof.
  intros Hq Hbody.
  unfold Lexer_new, ParseTokens, istream_of, initial_space_count.
  cbn [space_count_ input_].
  set (l := mkLexer [] 0 (mkIstream [] (open_char :: body) false false false)).
  assert (ready (input_ l) open_char body) as Hready by done.
  rewrite ParseTokens_loop_S, (get_ready _ _ _ Hready).
  rewrite (putback_get _ _ _ (get_ready _ _ _ Hready)), set_input_same.
  subst l. rewrite ParseTokens_body_unterminated by (done || lia).
  rewrite ParseTokens_loop_S. cbn.
  eexists. split; reflexivity.
Qed.

Lemma unterminated_string_is_a_token_witness :
  ∃ l',
    Lexer_new 5 (istream_of (list_ascii_of_string "'abc")) = Done l'
    ∧ tokens_ l'
      = [token_type.String "abc"; token_type.Newline; token_type.Eof].
Proof.
  apply (unterminated_string_is_a_token single_quote ["a"; "b"; "c"]%char).
  - left. reflexivity.
  - repeat (apply List.Forall_cons; [by repeat split|]). apply List.Forall_nil.
Defined.

(** The sibling paths of the same loop do fail: an escape that is not
    known, a line end inside the literal. *)
Lemma string_literal_errors :
  Lexer_new 9 (istream_of (list_ascii_of_string "'a\q'"))
  = Throw (logic_error "Unrecognized escape sequence \q")
  ∧ Lexer_new 9 (istream_of ([single_quote; "a"; newline; "b"; single_quote]%char))
    = Throw (logic_error "Unexpected end of line")
  ∧ Lexer_new 9 (istream_of ([single_quote; "a"; carriage_return; "b"; single_quote]%char))
    = Throw (logic_error "Unexpected end of line")
  ∧ lex 9 "'a\" = Some [token_type.String "a"; token_type.Newline; token_type.Eof].
Proof. split_and!; vm_compute; reflexivity. Qed.

(** *** The end of a lex pass *)

(** A character no scanner takes keeps the loop turning: on a tab, no
    amount of fuel brings the lexer to an end. *)
Lemma Lexer_new_tab_never_ends (fuel : nat) :
  Lexer_new fuel (istream_of [tab]) = OutOfFuel.
Proof.
  unfold Lexer_new, ParseTokens, initial_space_count.
  cbn [space_count_ input_].
  assert (∀ turns, ParseTokens_loop fuel turns (mkLexer [] 0 (istream_of [tab]))
                   = OutOfFuel) as ->; [|done].
  induction turns as [|turns IH]; [done|].
  rewrite ParseTokens_loop_S.
  destruct fuel as [|fuel']; [done|].
  replace (get (input_ (mkLexer [] 0 (istream_of [tab]))))
    with (Some tab, mkIstream [tab] [] false false false) by done.
  replace (ParseTokens_body (S fuel') _)
    with (Done (mkLexer [] 0 (istream_of [tab]))) by (by vm_compute).
  exact IH.
Qed.

(** C9.  Whatever the input and the state the lexer starts in, the tokens
    of a lex pass that comes to an end end with [Eof], and before it stands
    [Newline] or [Dedent], or nothing at all; and on a text of newlines and
    printable characters the pass does come to an end, with such tokens or
    with an exception. *)
Theorem token_stream_ends_with_Eof :
  (∀ fuel l l', ParseTokens fuel l = Done l' → ends_with_Eof (tokens_ l'))
  ∧ (∀ text,
      Forall (λ c, lexable c = true) text →
      (∃ l', Lexer_new (S (length text)) (istream_of text) = Done l'
             ∧ ends_with_Eof (tokens_ l'))
      ∨ (∃ e, Lexer_new (S (length text)) (istream_of text) = Throw e)).
Proof.
  split; [apply ParseTokens_ends_with_Eof|].
  intros text Htext.
  destruct (Lexer_new_ends text Htext) as [[l' Hl]|[e He]]; [left|right; eauto].
  exists l'. split; [done|]. by eapply ParseTokens_ends_with_Eof.
Qed.

Lemma token_stream_ends_with_Eof_witness :
  let text := list_ascii_of_string "x = 1" in
  ends_with_Eof [token_type.Id "x"; token_type.Char "="; token_type.Number 1;
                 token_type.Newline; token_type.Eof]
  ∧ ((∃ l', Lexer_new 6 (istream_of text) = Done l' ∧ ends_with_Eof (tokens_ l'))
     ∨ (∃ e, Lexer_new 6 (istream_of text) = Throw e)).
Proof.
  cbv zeta.
  destruct token_stream_ends_with_Eof as [Hpartial Htotal].
  split.
  - apply (Hpartial 6 (mkLexer [] 0 (istream_of (list_ascii_of_string "x = 1")))
             (mkLexer [token_type.Id "x"; token_type.Char "="; token_type.Number 1;
                       token_type.Newline; token_type.Eof] 0
                      (mkIstream (rev (list_ascii_of_string "x = 1")) []
                                 true true false))).
    vm_compute. reflexivity.
  - apply (Htotal (list_ascii_of_string "x = 1")).
    repeat (apply List.Forall_cons; [by vm_compute|]). apply List.Forall_nil.
Defined.
(** The text
    [x = 0 / if x == 0: / print "zero" / else: / print "nonzero"], the
    bodies indented by two spaces. *)
Example lex_if_else :
  let nl := String.String newline "" in
  let dq := String.String double_quote "" in
  lex 64 ("x = 0" +:+ nl +:+ "if x == 0:" +:+ nl
          +:+ "  print " +:+ dq +:+ "zero" +:+ dq +:+ nl
          +:+ "else:" +:+ nl
          +:+ "  print " +:+ dq +:+ "nonzero" +:+ dq +:+ nl)
  = Some [token_type.Id "x"; token_type.Char "="; token_type.Number 0;
          token_type.Newline;
          token_type.If; token_type.Id "x"; token_type.Eq; token_type.Number 0;
          token_type.Char ":"; token_type.Newline;
          token_type.Indent; token_type.Print; token_type.String "zero";
          token_type.Newline;
          token_type.Dedent; token_type.Else; token_type.Char ":";
          token_type.Newline;
          token_type.Indent; token_type.Print; token_type.String "nonzero";
          token_type.Newline; token_type.Dedent; token_type.Eof].
Proof. vm_compute. reflexivity. Qed.

End Lexing.

(* ===================================================================== *)
(** * Further properties *)
(* ===================================================================== *)

(** ** Classes, instances and calls *)
Section Classes.
Import runtime ast.

Lemma declared_in_None (ms : list Method) (x : string) :
  x ∉ Method_name <$> ms → declared_in ms x = None.
Proof.
  induction ms as [|m ms IH]; [done|].
  cbn. rewrite not_elem_of_cons. intros [Hne Hnot].
  rewrite IH by done. by rewrite decide_False.
Qed.

Lemma declared_in_NoDup (ms : list Method) (m : Method) :
  NoDup (Method_name <$> ms) → m ∈ ms →
  declared_in ms (Method_name m) = Some m.
Proof.
  induction ms as [|m' ms IH]; [by intros _ ?%elem_of_nil|].
  cbn. rewrite NoDup_cons, elem_of_cons. intros [Hnot Hnd] [->|Hin].
  - rewrite declared_in_None by done. by rewrite decide_True.
  - by rewrite IH.
Qed.

Lemma declared_in_snoc (ms : list Method) (m : Method) :
  declared_in (ms ++ [m]) (Method_name m) = Some m.
Proof.
  induction ms as [|m' ms IH]; cbn.
  - by rewrite decide_True.
  - by rewrite IH.
Qed.

(** X1.  Among methods of distinct names, a method the class declares is
    the one [GetMethod] finds under its name, whatever the parent declares;
    and a method the parent declares itself is found under a name the class
    does not declare. *)
Theorem GetMethod_override_and_inherit (name : string) (ms : list Method)
    (parent : option Class) (m : Method) :
  (NoDup (Method_name <$> ms) → m ∈ ms →
   GetMethod (Class_new name ms parent) (Method_name m) = Some m)
  ∧ (∀ p,
      parent = Some p →
      NoDup (Method_name <$> Class_methods_ p) → m ∈ Class_methods_ p →
      Method_name m ∉ Method_name <$> ms →
      GetMethod (Class_new name ms parent) (Method_name m) = Some m)
  ∧ (Method_name m ∉ Method_name <$> ms →
     (∀ p, parent = Some p → Method_name m ∉ Method_name <$> Class_methods_ p) →
     GetMethod (Class_new name ms parent) (Method_name m) = None).
Proof.
  rewrite GetMethod_Class_new. split_and!.
  - intros Hnd Hin. by rewrite declared_in_NoDup.
  - intros p -> Hnd Hin Hnot. rewrite declared_in_None by done.
    by apply declared_in_NoDup.
  - intros Hnot Hp. rewrite declared_in_None by done.
    destruct parent as [p|]; [|done]. apply declared_in_None. by apply Hp.
Qed.

Lemma GetMethod_override_and_inherit_witness :
  GetMethod (Class_new "B" [mkMethod "set" ["v"] (Compound [])]
                       (Some example_class)) "get"
  = Some (mkMethod "get" [] (MethodBody (Return (VariableValue ["self"])))).
Proof.
  destruct (GetMethod_override_and_inherit
              "B" [mkMethod "set" ["v"] (Compound [])] (Some example_class)
              (mkMethod "get" [] (MethodBody (Return (VariableValue ["self"])))))
    as (_ & Hinherit & _).
  apply (Hinherit example_class).
  - reflexivity.
  - compute_done.
  - vm_compute. constructor.
  - compute_done.
Defined.

(** X2.  There is no overloading by the number of parameters: of the
    methods a class declares under one name, the one declared last is the
    only one [HasMethod] knows, so the instance has the method for exactly
    that number of arguments. *)
Theorem HasMethod_last_declaration (name : string) (ms : list Method)
    (m : Method) (parent : option Class) (fields : Closure)
    (argument_count : nat) :
  HasMethod (mkClassInstance (Class_new name (ms ++ [m]) parent) fields)
            (Method_name m) argument_count = true
  ↔ length (Method_formal_params m) = argument_count.
Proof.
  unfold HasMethod. cbn [cls_].
  rewrite GetMethod_Class_new, declared_in_snoc.
  apply Nat.eqb_eq.
Qed.

Lemma bind_params_lookup_other (c : Closure) (ps : list string)
    (vs : list ObjectHolder) (x : string) :
  x ∉ ps → bind_params c ps vs !! x = c !! x.
Proof.
  unfold bind_params. revert c vs.
  induction ps as [|p ps IH]; intros c vs Hnot; [done|].
  destruct vs as [|v vs]; [done|]. cbn.
  apply not_elem_of_cons in Hnot as [Hne Hnot].
  rewrite IH by done. by rewrite lookup_insert_ne.
Qed.

Lemma bind_params_lookup (c : Closure) (ps : list string)
    (vs : list ObjectHolder) (i : nat) (p : string) (v : ObjectHolder) :
  NoDup ps → ps !! i = Some p → vs !! i = Some v →
  bind_params c ps vs !! p = Some v.
Proof.
  unfold bind_params. revert c vs i.
  induction ps as [|p' ps IH]; intros c vs i Hnd Hp Hv; [done|].
  destruct vs as [|v' vs]; [done|]. apply NoDup_cons in Hnd as [Hnot Hnd].
  destruct i as [|i]; cbn in *.
  - injection Hp as ->. injection Hv as ->.
    pose proof (bind_params_lookup_other (<[p:=v]> c) ps vs p Hnot) as H.
    unfold bind_params in H. rewrite H. apply lookup_insert_eq.
  - by eapply IH.
Qed.

(** X4.  A call of a method the instance has runs the body of the method
    on a closure in which [self] is the instance and each formal parameter
    is bound to the argument at its place (the parameters being distinct,
    and none of them called [self]); names of the caller are not in it. *)
Theorem Call_binds_the_parameters (exec : Statement → M ObjectHolder)
    (this : addr) (method : string) (actual_args : list ObjectHolder)
    (w : World) (self : ClassInstance) (m : Method) :
  instances w !! this = Some self →
  GetMethod (cls_ self) method = Some m →
  length (Method_formal_params m) = length actual_args →
  NoDup (Method_formal_params m) →
  "self" ∉ Method_formal_params m →
  ∃ c : Closure,
    Call exec this method actual_args w = with_closure c (exec (Method_body m)) w
    ∧ c !! "self" = Some (Share this)
    ∧ (∀ i p v,
         Method_formal_params m !! i = Some p → actual_args !! i = Some v →
         c !! p = Some v)
    ∧ (∀ x, x ≠ "self" → x ∉ Method_formal_params m → c !! x = None).
Proof.
  intros Hthis Hm Hlen Hnd Hself.
  exists (bind_params {[ "self" := Share this ]} (Method_formal_params m)
            actual_args).
  split_and!.
  - unfold Call, bind, instance_at, HasMethod. rewrite Hthis. cbn.
    rewrite Hm. by rewrite (proj2 (Nat.eqb_eq _ _) Hlen).
  - rewrite bind_params_lookup_other by done. apply lookup_singleton_eq.
  - intros i p v Hp Hv. by eapply bind_params_lookup.
  - intros x Hx Hnot. rewrite bind_params_lookup_other by done.
    by apply lookup_singleton_ne.
Qed.

Lemma Call_binds_the_parameters_witness :
  let m :=
    mkMethod "__init__" ["v"]
      (MethodBody (FieldAssignment ["self"] "v" (VariableValue ["v"]))) in
  ∃ c : Closure,
    Call (Execute 3) 2%positive "__init__" [Own (Number 1)] example_point_world
    = with_closure c (Execute 3 (Method_body m)) example_point_world
    ∧ c !! "self" = Some (Share 2%positive)
    ∧ (∀ i p v,
         Method_formal_params m !! i = Some p →
         [Own (Number 1)] !! i = Some v →
         c !! p = Some v)
    ∧ (∀ x, x ≠ "self" → x ∉ Method_formal_params m → c !! x = None).
Proof.
  cbv zeta.
  apply (Call_binds_the_parameters (Execute 3) 2%positive "__init__"
           [Own (Number 1)] example_point_world
           (ClassInstance_new example_point_class)).
  - reflexivity.
  - reflexivity.
  - reflexivity.
  - compute_done.
  - compute_done.
Defined.
End Classes.

(** ** Comparison *)
Section Comparisons.
Import runtime ast.
Variable exec : Statement → M ObjectHolder.

(** X5.  On two [Number]s the six comparators are the six relations of
    the integers, on two [Bool]s those of [false < true]; nothing is
    called and nothing changes. *)
Theorem compare_Numbers_and_Bools (w : World) :
  (∀ l r : Z,
      let cmp c := compare exec c (Own (Number l)) (Own (Number r)) w in
      cmp Equal = (Normal (bool_decide (l = r)), w)
      ∧ cmp NotEqual = (Normal (bool_decide (l ≠ r)), w)
      ∧ cmp Less = (Normal (bool_decide (l < r)%Z), w)
      ∧ cmp Greater = (Normal (bool_decide (r < l)%Z), w)
      ∧ cmp LessOrEqual = (Normal (bool_decide (l ≤ r)%Z), w)
      ∧ cmp GreaterOrEqual = (Normal (bool_decide (r ≤ l)%Z), w))
  ∧ (∀ l r : bool,
      let cmp c := compare exec c (Own (Bool l)) (Own (Bool r)) w in
      cmp Equal = (Normal (bool_decide (l = r)), w)
      ∧ cmp NotEqual = (Normal (bool_decide (l ≠ r)), w)
      ∧ cmp Less = (Normal (negb l && r), w)
      ∧ cmp Greater = (Normal (l && negb r), w)
      ∧ cmp LessOrEqual = (Normal (negb l || r), w)
      ∧ cmp GreaterOrEqual = (Normal (l || negb r), w)).
Proof.
  split.
  - intros l r cmp. subst cmp. cbn.
    unfold NotEqual_, Greater_, LessOrEqual_, GreaterOrEqual_, Greater_,
      Less_, Equal_, bind, ret. cbn.
    destruct (Z.ltb_spec l r), (Z.eqb_spec l r);
      repeat case_bool_decide; cbn; split_and!; (done || lia).
  - intros l r cmp. subst cmp. cbn.
    unfold NotEqual_, Greater_, LessOrEqual_, GreaterOrEqual_, Greater_,
      Less_, Equal_, bind, ret. cbn.
    by destruct l, r.
Qed.

Lemma string_less_irrefl (a : string) : string_less a a = false.
Proof.
  induction a as [|c a IH]; [done|]. cbn -[Nat.ltb]. by rewrite Nat.ltb_irrefl.
Qed.

Lemma string_less_total (a b : string) :
  string_less a b = false → a ≠ b → string_less b a = true.
Proof.
  revert b. induction a as [|x a IH]; intros [|y b]; cbn -[Nat.ltb]; try done.
  destruct (Nat.ltb_spec (nat_of_ascii x) (nat_of_ascii y)); [done|].
  destruct (Nat.ltb_spec (nat_of_ascii y) (nat_of_ascii x)); [done|].
  assert (x = y) as ->.
  { rewrite <- (ascii_nat_embedding x), <- (ascii_nat_embedding y).
    f_equal. lia. }
  intros Hl Hne. apply IH; [done|]. by intros ->.
Qed.

Lemma string_less_asym (a b : string) :
  string_less a b = true → string_less b a = false.
Proof.
  revert b. induction a as [|x a IH]; intros [|y b]; cbn -[Nat.ltb]; try done.
  destruct (Nat.ltb_spec (nat_of_ascii x) (nat_of_ascii y)).
  - intros _. destruct (Nat.ltb_spec (nat_of_ascii y) (nat_of_ascii x)); [lia|].
    destruct (Nat.ltb_spec (nat_of_ascii x) (nat_of_ascii y)); [done|lia].
  - destruct (Nat.ltb_spec (nat_of_ascii y) (nat_of_ascii x)); [done|].
    apply IH.
Qed.

Lemma string_less_trans (a b c : string) :
  string_less a b = true → string_less b c = true → string_less a c = true.
Proof.
  revert b c. induction a as [|x a IH]; intros [|y b] [|z c]; cbn -[Nat.ltb];
    try done.
  destruct (Nat.ltb_spec (nat_of_ascii x) (nat_of_ascii y)),
           (Nat.ltb_spec (nat_of_ascii y) (nat_of_ascii z)),
           (Nat.ltb_spec (nat_of_ascii x) (nat_of_ascii z));
    try done; try lia;
    repeat match goal with
           | |- context [(?n <? ?m)%nat] => destruct (Nat.ltb_spec n m)
           end; try done; try lia.
  apply IH.
Qed.

(** X6.  [operator<] of strings, as [Less] uses it, is a strict total
    order, and on two [String]s the other comparators are the ones this
    order gives: [Greater(l, r)] is [Less(r, l)], [LessOrEqual(l, r)] is
    not [Less(r, l)], [GreaterOrEqual(l, r)] is not [Less(l, r)]. *)
Theorem compare_Strings (w : World) (l r : string) :
  let cmp c a b := compare exec c (Own (String a)) (Own (String b)) w in
  (string_less l l = false
   ∧ (∀ m, string_less l m = true → string_less m r = true →
           string_less l r = true)
   ∧ (l ≠ r → string_less l r = true ∨ string_less r l = true))
  ∧ cmp Equal l r = (Normal (bool_decide (l = r)), w)
  ∧ cmp NotEqual l r = (Normal (bool_decide (l ≠ r)), w)
  ∧ cmp Less l r = (Normal (string_less l r), w)
  ∧ cmp Greater l r = cmp Less r l
  ∧ cmp LessOrEqual l r = (Normal (negb (string_less r l)), w)
  ∧ cmp GreaterOrEqual l r = (Normal (negb (string_less l r)), w).
Proof.
  cbn zeta. split; [split_and!|].
  - apply string_less_irrefl.
  - intros m. apply string_less_trans.
  - intros Hne. destruct (string_less l r) eqn:Hlr; [by left|right].
    by apply string_less_total.
  - cbn. unfold NotEqual_, Greater_, LessOrEqual_, GreaterOrEqual_, Greater_,
      Less_, Equal_, bind, ret. cbn.
    assert (negb (string_less l r) && negb (bool_decide (l = r))
            = string_less r l) as Hgt.
    { destruct (string_less l r) eqn:Hlr; cbn.
      - symmetry. by apply string_less_asym.
      - case_bool_decide as Heq; cbn.
        + subst. symmetry. apply string_less_irrefl.
        + symmetry. by apply string_less_total. }
    destruct (string_less l r) eqn:Hlr; cbn in *; rewrite <- ?Hgt;
      repeat case_bool_decide; cbn; split_and!; done.
Qed.

(** X7.  Two empty holders are equal, and they are not ordered: every
    comparator that asks [Less] fails on them.  A left operand that is not
    a [ClassInstance] is compared with a value of its own kind only:
    otherwise [Less] fails, and so does [Equal] unless both holders are
    empty; a [ClassInstance] on the right is never asked. *)
Theorem compare_without_order (w : World) :
  (let cmp c := compare exec c ObjectHolder_None ObjectHolder_None w in
   cmp Equal = (Normal true, w)
   ∧ cmp NotEqual = (Normal false, w)
   ∧ ∀ c, c ∈ [Less; Greater; LessOrEqual; GreaterOrEqual] →
          cmp c = (Thrown (runtime_error "Cannot compare objects for less"), w))
  ∧ (∀ lhs rhs,
      TryAs_ClassInstance lhs = None →
      value_kind lhs = None ∨ value_kind lhs ≠ value_kind rhs →
      Less_ exec lhs rhs w
      = (Thrown (runtime_error "Cannot compare objects for less"), w)
      ∧ (¬ (lhs = None ∧ rhs = None) →
         Equal_ exec lhs rhs w
         = (Thrown (runtime_error "Cannot compare objects for equality"), w))).
Proof.
  split.
  - cbn zeta. split_and!; try done.
    intros c. rewrite !elem_of_cons, elem_of_nil.
    by intros [->|[->|[->|[->|[]]]]].
  - intros lhs rhs Hinst Hkind.
    destruct lhs as [[l|l|l|l|l]|], rhs as [[r|r|r|r|r]|];
      cbn in Hinst, Hkind; try done; try (by destruct Hkind);
      (split; [done|]); try done.
    intros H. by destruct H.
Qed.
End Comparisons.

Section ComparisonExamples.
Import runtime ast.

Lemma compare_without_order_witness :
  Less_ (Execute 1) (Own (Number 1)) (Own (String "1")) example_world
  = (Thrown (runtime_error "Cannot compare objects for less"), example_world)
  ∧ Equal_ (Execute 1) (Own (Number 1)) ObjectHolder_None example_world
    = (Thrown (runtime_error "Cannot compare objects for equality"),
       example_world).
Proof.
  destruct (compare_without_order (Execute 1) example_world) as [_ H].
  split.
  - apply (H (Own (Number 1)) (Own (String "1"))).
    + reflexivity.
    + right. discriminate.
  - apply (H (Own (Number 1)) ObjectHolder_None).
    + reflexivity.
    + right. discriminate.
    + intros [Hl _]. discriminate Hl.
Defined.
End ComparisonExamples.

(** ** Statements *)
Section Statements.
Import runtime ast.
Local Arguments Execute : simpl never.
Local Arguments Object_Print : simpl never.

(** X8.  What [Assignment] stores under a name is what it returns and what
    [VariableValue] of that name then yields; no other name of the closure
    changes, and nothing outside the closure. *)
Theorem Assignment_then_VariableValue (n : nat) (var : string) (rv : Statement)
    (w w1 : World) (v : ObjectHolder) :
  Execute n rv w = (Normal v, w1) →
  points_to_instance (instances w1) v →
  let w2 := set_closure (<[var := v]> (closure w1)) w1 in
  Execute (S n) (Assignment var rv) w = (Normal v, w2)
  ∧ Execute 1 (VariableValue [var]) w2 = (Normal v, w2)
  ∧ (∀ x, x ≠ var → closure w2 !! x = closure w1 !! x).
Proof.
  intros Hrv Hv w2. split_and!.
  - rewrite Execute_S. cbn. unfold Assignment_Execute.
    by rewrite (bind_Normal _ _ _ _ _ Hrv).
  - change (VariableValue_Execute [var] w2 = (Normal v, w2)).
    apply VariableValue_Execute_resolves, resolves_last; [|done].
    apply lookup_insert_eq.
  - intros x Hx. by apply lookup_insert_ne.
Qed.

Lemma Assignment_then_VariableValue_witness :
  let w2 := set_closure (<["z" := Own (Number 1)]> (closure example_world))
                        example_world in
  Execute 2 (Assignment "z" (VariableValue ["x"])) example_world
  = (Normal (Own (Number 1)), w2)
  ∧ Execute 1 (VariableValue ["z"]) w2 = (Normal (Own (Number 1)), w2)
  ∧ (∀ x, x ≠ "z" → closure w2 !! x = closure example_world !! x).
Proof.
  apply (Assignment_then_VariableValue 1 "z" (VariableValue ["x"])
           example_world example_world (Own (Number 1))).
  - reflexivity.
  - intros a Ha. discriminate Ha.
Defined.

(** X9.  [FieldAssignment] on a name that holds an instance stores the
    value in that field of the instance: it is what [name.field] then
    yields, the other fields of the instance, its class and the other
    instances are as they were.  On a name that does not hold an instance
    the right side is evaluated and then null is dereferenced. *)
Theorem FieldAssignment_then_read (n : nat) (x f : string) (rv : Statement)
    (w w1 : World) (v target : ObjectHolder) :
  closure w !! x = Some target →
  points_to_instance (instances w) target →
  Execute n rv w = (Normal v, w1) →
  (TryAs_ClassInstance target = None →
   Execute (S n) (FieldAssignment [x] f rv) w = (Undefined, w1))
  ∧ (∀ a inst,
      target = Share a →
      instances w1 !! a = Some inst →
      let w2 :=
        set_instances
          (<[a := mkClassInstance (cls_ inst) (<[f := v]> (fields_ inst))]>
             (instances w1)) w1 in
      Execute (S n) (FieldAssignment [x] f rv) w = (Normal v, w2)
      ∧ (closure w1 !! x = Some (Share a) →
         points_to_instance (instances w2) v →
         Execute 1 (VariableValue [x; f]) w2 = (Normal v, w2))
      ∧ (∀ inst2, instances w2 !! a = Some inst2 →
           cls_ inst2 = cls_ inst
           ∧ ∀ g, g ≠ f → fields_ inst2 !! g = fields_ inst !! g)
      ∧ (∀ b, b ≠ a → instances w2 !! b = instances w1 !! b)).
Proof.
  intros Hx Htarget Hrv.
  assert (VariableValue_Execute [x] w = (Normal target, w)) as Hobj.
  { apply VariableValue_Execute_resolves. by apply resolves_last. }
  split.
  - intros Hnot. rewrite Execute_S. cbn. unfold FieldAssignment_Execute.
    rewrite (bind_Normal _ _ _ _ _ Hobj), (bind_Normal _ _ _ _ _ Hrv).
    by rewrite Hnot.
  - intros a inst -> Ha w2. split_and!.
    + rewrite Execute_S. cbn. unfold FieldAssignment_Execute.
      rewrite (bind_Normal _ _ _ _ _ Hobj), (bind_Normal _ _ _ _ _ Hrv).
      cbn. unfold bind, instance_at. by rewrite Ha.
    + intros Hx1 Hv.
      change (VariableValue_Execute [x; f] w2 = (Normal v, w2)).
      apply VariableValue_Execute_resolves.
      eapply resolves_field; [exact Hx1|apply lookup_insert_eq|].
      apply resolves_last; [apply lookup_insert_eq|done].
    + intros inst2. cbn. rewrite lookup_insert_eq. intros [= <-]. cbn.
      split; [done|]. intros g Hg. by apply lookup_insert_ne.
    + intros b Hb. cbn. by apply lookup_insert_ne.
Qed.

Lemma FieldAssignment_then_read_witness :
  let w2 :=
    set_instances
      (<[1%positive := mkClassInstance example_class
                         (<["w" := Own (Number 1)]>
                            (<["v" := Own (Number 10)]> ∅))]>
         (instances example_fields_world)) example_fields_world in
  Execute 2 (FieldAssignment ["p"] "w" (VariableValue ["x"]))
          example_fields_world
  = (Normal (Own (Number 1)), w2)
  ∧ Execute 1 (VariableValue ["p"; "w"]) w2 = (Normal (Own (Number 1)), w2)
  ∧ Execute 2 (FieldAssignment ["x"] "w" (VariableValue ["y"]))
            example_fields_world
    = (Undefined, example_fields_world).
Proof.
  cbv zeta.
  destruct (FieldAssignment_then_read 1 "p" "w" (VariableValue ["x"])
              example_fields_world example_fields_world (Own (Number 1))
              (Share 1%positive)) as [_ Hinstance].
  { reflexivity. }
  { intros a [= <-]. eexists. reflexivity. }
  { reflexivity. }
  destruct (Hinstance 1%positive
              (mkClassInstance example_class (<["v" := Own (Number 10)]> ∅))
              eq_refl eq_refl) as (Hwrite & Hread & _).
  destruct (FieldAssignment_then_read 1 "x" "w" (VariableValue ["y"])
              example_fields_world example_fields_world (Own (Number 2))
              (Own (Number 1))) as [Hnull _].
  { reflexivity. }
  { intros a Ha. discriminate Ha. }
  { reflexivity. }
  split_and!.
  - exact Hwrite.
  - apply Hread; [reflexivity|]. intros a Ha. discriminate Ha.
  - apply Hnull. reflexivity.
Defined.

(** X10.  [Not] of [Not] of an expression evaluates the expression once
    and yields the [Bool] of its truth value. *)
Theorem Not_Not_is_truth (n : nat) (x : Statement) (w w1 : World)
    (v : ObjectHolder) :
  Execute n x w = (Normal v, w1) →
  Execute (S (S n)) (Not (Some (Not (Some x)))) w
  = (Normal (Own (Bool (IsTrue v))), w1).
Proof.
  intros Hx.
  assert (Execute (S n) (Not (Some x)) w
          = (Normal (Own (Bool (negb (IsTrue v)))), w1)) as Hnot.
  { rewrite Execute_S. cbn. unfold Not_Execute.
    by rewrite (bind_Normal _ _ _ _ _ Hx). }
  rewrite Execute_S. cbn. unfold Not_Execute.
  rewrite (bind_Normal _ _ _ _ _ Hnot). unfold ret. cbn.
  by destruct (IsTrue v).
Qed.

Lemma Not_Not_is_truth_witness :
  Execute 3 (Not (Some (Not (Some (VariableValue ["x"]))))) example_world
  = (Normal (Own (Bool true)), example_world).
Proof.
  apply (Not_Not_is_truth 1 (VariableValue ["x"]) example_world example_world
           (Own (Number 1))).
  reflexivity.
Defined.

(** X11.  Operands that are not both [Number]s: [Add] joins two [String]s
    and hands a left operand that is a [ClassInstance] with a one-parameter
    [__add__] over to that method; every other pair fails, and [Sub],
    [Mult] and [Div] fail on every such pair, instances with methods
    included. *)
Theorem arithmetic_without_numbers (n : nat) (lhs rhs : Statement)
    (w w1 w2 : World) (l r : ObjectHolder) :
  Execute n lhs w = (Normal l, w1) →
  Execute n rhs w1 = (Normal r, w2) →
  TryAs_Number l = None ∨ TryAs_Number r = None →
  Execute (S n) (Sub (Some lhs) (Some rhs)) w
  = (Thrown (runtime_error "Wrong types for sub operation"), w2)
  ∧ Execute (S n) (Mult (Some lhs) (Some rhs)) w
    = (Thrown (runtime_error "Wrong types for mult operation"), w2)
  ∧ Execute (S n) (Div (Some lhs) (Some rhs)) w
    = (Thrown (runtime_error "Wrong types for div operation"), w2)
  ∧ (∀ a b, l = Own (String a) → r = Own (String b) →
       Execute (S n) (Add (Some lhs) (Some rhs)) w
       = (Normal (Own (String (a +:+ b))), w2))
  ∧ (∀ a self,
       l = Share a → instances w2 !! a = Some self →
       Execute (S n) (Add (Some lhs) (Some rhs)) w
       = if HasMethod self ADD_METHOD 1
         then Call (Execute n) a ADD_METHOD [r] w2
         else (Thrown (runtime_error "Wrong types for add operation"), w2))
  ∧ (TryAs_ClassInstance l = None →
     TryAs_String l = None ∨ TryAs_String r = None →
     Execute (S n) (Add (Some lhs) (Some rhs)) w
     = (Thrown (runtime_error "Wrong types for add operation"), w2)).
Proof.
  intros Hl Hr Hnum. rewrite !Execute_S. cbn.
  unfold Sub_Execute, Mult_Execute, Div_Execute, Add_Execute.
  rewrite !(bind_Normal _ _ _ _ _ Hl), !(bind_Normal _ _ _ _ _ Hr).
  split_and!.
  - destruct Hnum as [-> | ->]; [done|]. by destruct (TryAs_Number l).
  - destruct Hnum as [-> | ->]; [done|]. by destruct (TryAs_Number l).
  - destruct Hnum as [-> | ->]; [done|]. by destruct (TryAs_Number l).
  - by intros a b -> ->.
  - intros a self -> Ha. cbn. unfold bind, instance_at. rewrite Ha.
    by destruct (HasMethod _ _ _).
  - intros Hinst Hstr.
    destruct l as [[]|], r as [[]|]; cbn in *; try done;
      by destruct Hnum, Hstr.
Qed.

Lemma arithmetic_without_numbers_witness :
  let run op :=
    Execute 2 (op (Some (VariableValue ["x"])) (Some (VariableValue ["none"])))
            example_world in
  run Sub = (Thrown (runtime_error "Wrong types for sub operation"), example_world)
  ∧ run Mult
    = (Thrown (runtime_error "Wrong types for mult operation"), example_world)
  ∧ run Div
    = (Thrown (runtime_error "Wrong types for div operation"), example_world)
  ∧ run Add
    = (Thrown (runtime_error "Wrong types for add operation"), example_world).
Proof.
  cbv zeta.
  destruct (arithmetic_without_numbers 1 (VariableValue ["x"])
              (VariableValue ["none"]) example_world example_world
              example_world (Own (Number 1)) ObjectHolder_None)
    as (Hsub & Hmult & Hdiv & _ & _ & Hadd).
  { reflexivity. }
  { reflexivity. }
  { right. reflexivity. }
  split_and!; [exact Hsub|exact Hmult|exact Hdiv|].
  apply Hadd; [reflexivity|]. left. reflexivity.
Defined.

(** X12.  [Div] on two [Number]s within the range of [int]: a zero divisor
    fails with "Division by zero"; the least [int] divided by [-1]
    overflows; every other quotient is within the range and is the
    division that truncates towards zero. *)
Theorem Div_on_Numbers (n : nat) (lhs rhs : Statement) (w w1 w2 : World)
    (l r : Z) :
  Execute n lhs w = (Normal (Own (Number l)), w1) →
  Execute n rhs w1 = (Normal (Own (Number r)), w2) →
  (int_min ≤ l ≤ int_max)%Z → (int_min ≤ r ≤ int_max)%Z →
  (r = 0%Z →
   Execute (S n) (Div (Some lhs) (Some rhs)) w
   = (Thrown (runtime_error "Division by zero"), w2))
  ∧ (l = int_min → r = (-1)%Z →
     Execute (S n) (Div (Some lhs) (Some rhs)) w = (Undefined, w2))
  ∧ (r ≠ 0%Z → ¬ (l = int_min ∧ r = (-1)%Z) →
     ∃ q,
       Execute (S n) (Div (Some lhs) (Some rhs)) w
       = (Normal (Own (Number q)), w2)
       ∧ (int_min ≤ q ≤ int_max)%Z
       ∧ (Z.abs (l - r * q) < Z.abs r)%Z
       ∧ (0 ≤ l * (l - r * q))%Z).
Proof.
  intros Hl Hr Hlb Hrb. rewrite !Execute_S. cbn. unfold Div_Execute.
  rewrite !(bind_Normal _ _ _ _ _ Hl), !(bind_Normal _ _ _ _ _ Hr). cbn.
  unfold int_min, int_max in *.
  split_and!.
  - by intros ->.
  - by intros -> ->.
  - intros Hr0 Hmin. rewrite (proj2 (Z.eqb_neq r 0) Hr0).
    exists (Z.quot l r).
    pose proof (Z.quot_rem' l r) as Hqr.
    pose proof (Z.rem_bound_abs l r Hr0) as Hrem.
    pose proof (Z.rem_sign_mul l r Hr0) as Hsign.
    assert (l - r * Z.quot l r = Z.rem l r)%Z as Hrem' by lia.
    assert (Z.abs (Z.quot l r) ≤ Z.abs l)%Z as Habs.
    { rewrite <- Z.quot_abs by done. apply Z.quot_le_upper_bound; [lia|].
      nia. }
    assert (- 2 ^ 31 ≤ Z.quot l r ≤ 2 ^ 31 - 1)%Z as Hq.
    { destruct (Z.eq_dec l (- 2 ^ 31)%Z) as [->|Hl'].
      - assert (r ≠ -1)%Z by (intros ->; by apply Hmin).
        destruct (Z.eq_dec r 1%Z) as [->|Hr1]; [rewrite Z.quot_1_r; lia|].
        assert (Z.abs (Z.quot (- 2 ^ 31) r) < 2 ^ 31)%Z; [|lia].
        rewrite <- Z.quot_abs by done.
        change (Z.abs (- 2 ^ 31)) with (2 ^ 31)%Z.
        apply Z.quot_lt_upper_bound; [lia|lia|nia].
      - lia. }
    split_and!; [|lia|lia|lia|].
    + unfold int_result, bind, ret, int_min, int_max.
      by rewrite bool_decide_true.
    + rewrite Hrem'. lia.
Qed.

Lemma Div_on_Numbers_witness :
  ∃ q,
    Execute 2 (Div (Some (VariableValue ["x"])) (Some (VariableValue ["y"])))
            example_world
    = (Normal (Own (Number q)), example_world)
    ∧ (int_min ≤ q ≤ int_max)%Z
    ∧ (Z.abs (1 - 2 * q) < Z.abs 2)%Z
    ∧ (0 ≤ 1 * (1 - 2 * q))%Z.
Proof.
  destruct (Div_on_Numbers 1 (VariableValue ["x"]) (VariableValue ["y"])
              example_world example_world example_world 1 2)
    as (_ & _ & Hquot).
  { reflexivity. }
  { reflexivity. }
  { unfold int_min, int_max. lia. }
  { unfold int_min, int_max. lia. }
  apply Hquot.
  - lia.
  - intros [_ H]. lia.
Defined.

Lemma for_each_app {A B} (f : A → M B) (xs ys : list A) (w : World) :
  for_each f (xs ++ ys) w
  = match for_each f xs w with
    | (Normal vs, w1) =>
        match for_each f ys w1 with
        | (Normal vs', w2) => (Normal (vs ++ vs'), w2)
        | (Thrown e, w2) => (Thrown e, w2)
        | (Undefined, w2) => (Undefined, w2)
        | (OutOfFuel, w2) => (OutOfFuel, w2)
        end
    | (Thrown e, w1) => (Thrown e, w1)
    | (Undefined, w1) => (Undefined, w1)
    | (OutOfFuel, w1) => (OutOfFuel, w1)
    end.
Proof.
  revert w. induction xs as [|x xs IH]; intros w.
  - cbn. by destruct (for_each f ys w) as [[]].
  - cbn [for_each app]. unfold bind, ret.
    destruct (f x w) as [[v| | |] w1]; try done. rewrite IH.
    destruct (for_each f xs w1) as [[vs| | |] w2]; try done.
    by destruct (for_each f ys w2) as [[]].
Qed.

(** X13.  A [Compound] of two sequences run one after the other is the
    [Compound] of the first and then, when that one returned, the
    [Compound] of the second in the world it left; and a [Compound] that
    returns returns [None]. *)
Theorem Compound_in_sequence (n : nat) (xs ys : list Statement) (w : World) :
  Execute (S n) (Compound (xs ++ ys)) w
  = match Execute (S n) (Compound xs) w with
    | (Normal _, w1) => Execute (S n) (Compound ys) w1
    | other => other
    end
  ∧ ∀ v w', Execute (S n) (Compound xs) w = (Normal v, w') →
            v = ObjectHolder_None.
Proof.
  rewrite !Execute_S. cbn. unfold Compound_Execute, bind, ret.
  rewrite for_each_app. split.
  - destruct (for_each (Execute n) xs w) as [[vs| | |] w1]; try done.
    by destruct (for_each (Execute n) ys w1) as [[]].
  - intros v w'. destruct (for_each (Execute n) xs w) as [[vs| | |] w1];
      try done. by intros [= <- _].
Qed.

Lemma ClassDefinition_moves_its_holder_witness :
  let w := mkWorld ∅ "" ∅ {[ 1%positive := Own (ClassObject example_class) ]} in
  let w' :=
    set_holders (<[1%positive := ObjectHolder_None]> (holders w))
      (set_closure (<["A" := Own (ClassObject example_class)]> (closure w)) w) in
  Execute 1 (ClassDefinition 1%positive) w = (Normal ObjectHolder_None, w')
  ∧ Execute 1 (ClassDefinition 1%positive) w' = (Undefined, w').
Proof.
  apply (ClassDefinition_moves_its_holder 0 1%positive example_class
           (mkWorld ∅ "" ∅ {[ 1%positive := Own (ClassObject example_class) ]})).
  reflexivity.
Defined.
End Statements.

(** ** The output stream *)
Section Output.
Import runtime ast.
Local Arguments Execute : simpl never.
Local Arguments Object_Print : simpl never.

Lemma string_append_assoc (a b c : string) : (a +:+ b) +:+ c = a +:+ b +:+ c.
Proof.
  induction a as [|x a IH]; [done|].
  change (String.String x ((a +:+ b) +:+ c) = String.String x (a +:+ b +:+ c)).
  by rewrite IH.
Qed.

Lemma appends_ret {A} (a : A) : appends (ret a).
Proof. done. Qed.
Lemma appends_throw {A} e : appends (@throw A e).
Proof. done. Qed.
Lemma appends_undefined {A} : appends (@undefined A).
Proof. done. Qed.
Lemma appends_out_of_fuel {A} : appends (@out_of_fuel A).
Proof. done. Qed.

Lemma appends_bind {A B} (m : M A) (k : A → M B) :
  appends m → (∀ a, appends (k a)) → appends (bind m k).
Proof.
  intros Hm Hk p w. unfold bind. rewrite Hm. unfold shifted.
  destruct (m w) as [[a| | |] w1]; cbn; try done. apply Hk.
Qed.

Lemma appends_get {A} (f : World → A) :
  (∀ p w, f (prepend p w) = f w) → appends (get f).
Proof. intros Hf p w. unfold get, shifted. cbn. by rewrite Hf. Qed.

Lemma appends_modify (f : World → World) :
  (∀ p w, f (prepend p w) = prepend p (f w)) → appends (modify f).
Proof. intros Hf p w. unfold modify, shifted. cbn. by rewrite Hf. Qed.

Lemma appends_write (s : string) : appends (write s).
Proof.
  apply appends_modify. intros p w. unfold prepend, set_output. cbn.
  by rewrite string_append_assoc.
Qed.

Lemma appends_with_closure {A} (c : Closure) (m : M A) :
  appends m → appends (with_closure c m).
Proof.
  intros Hm p w. unfold with_closure.
  change (set_closure c (prepend p w)) with (prepend p (set_closure c w)).
  rewrite Hm. unfold shifted. by destruct (m (set_closure c w)) as [r w1].
Qed.

Lemma appends_with_dummy_context {A} (m : M A) :
  appends (with_dummy_context m).
Proof.
  intros p w. unfold with_dummy_context.
  change (set_output "" (prepend p w)) with (set_output "" w).
  by destruct (m (set_output "" w)) as [[a| | |] w1].
Qed.

Lemma appends_instance_at (a : addr) : appends (instance_at a).
Proof.
  intros p w. unfold instance_at. cbn. by destruct (instances w !! a).
Qed.

Lemma appends_for_each {A B} (f : A → M B) (l : list A) :
  (∀ x, appends (f x)) → appends (for_each f l).
Proof.
  intros Hf. induction l as [|x l IH]; cbn; [apply appends_ret|].
  apply appends_bind; [done|]. intros v.
  apply appends_bind; [done|]. intros vs. apply appends_ret.
Qed.

Lemma appends_int_result (z : Z) : appends (int_result z).
Proof. unfold int_result. by case_bool_decide. Qed.

Ltac appends_step :=
  first
    [ assumption
    | apply appends_ret | apply appends_throw | apply appends_undefined
    | apply appends_out_of_fuel | apply appends_write
    | apply appends_instance_at | apply appends_int_result
    | apply appends_with_dummy_context
    | apply appends_with_closure
    | apply appends_for_each; intros ?
    | apply appends_get; intros ? ?; reflexivity
    | apply appends_modify; intros ? ?; reflexivity
    | apply appends_bind; [|intros ?]
    | match goal with
      | H : ∀ s, appends (?f s) |- appends (?f _) => apply H
      | |- appends (match ?x with _ => _ end) => destruct x
      | |- appends (let _ := ?x in _) => cbv zeta
      end ].

Ltac appends := repeat appends_step.

Section with_execute.
Variable exec : Statement → M ObjectHolder.
Variable print : Object → M unit.
Hypothesis exec_appends : ∀ s, appends (exec s).
Hypothesis print_appends : ∀ o, appends (print o).

Lemma appends_Call this method actual_args :
  appends (Call exec this method actual_args).
Proof using exec_appends. unfold Call. appends. Qed.

Lemma appends_Print_object o : appends (Print_object exec print o).
Proof using exec_appends print_appends.
  unfold Print_object. destruct o; appends; try apply appends_Call.
Qed.

Lemma appends_has_unary_method lhs m : appends (has_unary_method lhs m).
Proof. unfold has_unary_method. appends. Qed.

Lemma appends_call_for_bool a m rhs : appends (call_for_bool exec a m rhs).
Proof using exec_appends.
  unfold call_for_bool. apply appends_bind; [apply appends_Call|].
  intros r. appends.
Qed.

Lemma appends_Equal lhs rhs : appends (Equal_ exec lhs rhs).
Proof using exec_appends.
  unfold Equal_. appends;
    try first [apply appends_has_unary_method | apply appends_call_for_bool].
Qed.

Lemma appends_Less lhs rhs : appends (Less_ exec lhs rhs).
Proof using exec_appends.
  unfold Less_. appends;
    try first [apply appends_has_unary_method | apply appends_call_for_bool].
Qed.

Lemma appends_compare cmp lhs rhs : appends (compare exec cmp lhs rhs).
Proof using exec_appends.
  destruct cmp; cbn;
    unfold NotEqual_, Greater_, LessOrEqual_, GreaterOrEqual_, Greater_;
    repeat first
      [ apply appends_Equal | apply appends_Less | apply appends_ret
      | apply appends_bind; [|intros ?]
      | match goal with
        | |- appends (if ?b then _ else _) => destruct b
        end ].
Qed.

Lemma appends_VariableValue_loop c result ids :
  appends (VariableValue_loop c result ids).
Proof.
  revert c result. induction ids as [|v ids IH]; intros c result; cbn.
  - apply appends_ret.
  - destruct (c !! v) as [found|]; [|apply appends_throw].
    destruct (TryAs_ClassInstance found); [|apply IH].
    apply appends_bind; [apply appends_instance_at|]. intros inst. apply IH.
Qed.

Lemma appends_VariableValue_Execute ids : appends (VariableValue_Execute ids).
Proof.
  unfold VariableValue_Execute. destruct (0 <? length ids)%nat;
    [|apply appends_throw].
  apply appends_bind; [by apply appends_get|]. intros c.
  apply appends_VariableValue_loop.
Qed.

Lemma appends_Print_loop first result args :
  appends (Print_loop exec print first result args).
Proof using exec_appends print_appends.
  revert first result. induction args as [|arg args IH]; intros first result;
    cbn; [apply appends_ret|].
  appends; try apply IH.
Qed.

Lemma appends_MethodBody body : appends (MethodBody_Execute exec body).
Proof using exec_appends.
  intros p w. unfold MethodBody_Execute. rewrite exec_appends.
  unfold shifted. by destruct (exec body w) as [[v|[]| |] w1].
Qed.

Lemma appends_Statement_Execute s : appends (Statement_Execute exec print s).
Proof using exec_appends print_appends.
  destruct s; cbn.
  - unfold Assignment_Execute. appends.
  - apply appends_VariableValue_Execute.
  - unfold Print_Execute. apply appends_bind; [apply appends_Print_loop|].
    intros r. appends.
  - unfold MethodCall_Execute. appends; try apply appends_Call.
  - unfold Stringify_Execute. appends.
  - unfold Add_Execute. appends; try apply appends_Call.
  - unfold Sub_Execute. appends.
  - unfold Mult_Execute. appends.
  - unfold Div_Execute. appends.
  - unfold Compound_Execute. appends.
  - unfold Return_Execute. appends.
  - unfold ClassDefinition_Execute. appends.
  - unfold FieldAssignment_Execute.
    apply appends_bind; [apply appends_VariableValue_Execute|]. intros obj.
    appends.
  - unfold IfElse_Execute. appends.
  - unfold Or_Execute. appends.
  - unfold And_Execute. appends.
  - unfold Not_Execute. appends.
  - unfold Comparison_Execute. appends; try apply appends_compare.
  - unfold NewInstance_Execute. appends; try apply appends_Call.
  - apply appends_MethodBody.
Qed.
End with_execute.

Lemma appends_Execute (n : nat) :
  (∀ s, appends (Execute n s)) ∧ (∀ o, appends (Object_Print n o)).
Proof.
  induction n as [|n [IHe IHp]]; [by split|]. split.
  - intros s. rewrite Execute_S. by apply appends_Statement_Execute.
  - intros o. change (appends (Print_object (Execute n) (Object_Print n) o)).
    by apply appends_Print_object.
Qed.


Lemma prepend_output (w : World) : prepend (output w) (set_output "" w) = w.
Proof.
  destruct w. unfold prepend, set_output. cbn. by rewrite append_empty_r.
Qed.

(** X15.  What is already on the output stream plays no part in the
    execution of a statement and is never taken back: a run is the run on
    an empty stream, with what that one wrote added at the end. *)
Theorem Execute_only_appends_output (n : nat) (s : Statement) (w : World) :
  let r := Execute n s (set_output "" w) in
  Execute n s w = (r.1, set_output (output w +:+ output r.2) r.2).
Proof.
  intros r. rewrite <- (prepend_output w) at 1.
  by rewrite (proj1 (appends_Execute n)).
Qed.

Lemma Object_Print_shown (n : nat) (o : Object) (w : World) :
  TryAs_ClassInstance (Some o) = None →
  Object_Print (S n) o w
  = (Normal tt, set_output (output w +:+ shown (Some o)) w).
Proof.
  intros Ho.
  change (Print_object (Execute n) (Object_Print n) o w
          = (Normal tt, set_output (output w +:+ shown (Some o)) w)).
  by destruct o.
Qed.

Lemma Execute_on_output (n : nat) (s : Statement) (w w1 : World)
    (out : string) (r : Outcome ObjectHolder) :
  Execute n s (set_output "" w) = (r, w1) →
  Execute n s (set_output out w) = (r, set_output (out +:+ output w1) w1).
Proof.
  intros Hs.
  replace (set_output out w) with (prepend out (set_output "" w)).
  - by rewrite (proj1 (appends_Execute n)), Hs.
  - unfold prepend, set_output. cbn. by rewrite append_empty_r.
Qed.

Lemma Print_loop_evaluated (n : nat) (w w' : World) (args : list Statement)
    (vs : list (ObjectHolder * string)) :
  evaluated (S n) w args vs w' →
  Forall (λ r, TryAs_ClassInstance r.1 = None) vs →
  ∀ (first : bool) (result : ObjectHolder) (out : string),
    Print_loop (Execute (S n)) (Object_Print (S n)) first result args
               (set_output out w)
    = (Normal (default result (last vs.*1)),
       set_output
         (out +:+ (if first then joined (printed <$> vs)
                   else spaced (printed <$> vs))) w').
Proof.
  intros Hargs.
  induction Hargs as [w|w w1 w2 arg args v vs Harg _ IH]; intros Hvs first
    result out.
  - cbn. unfold ret. destruct first; by rewrite append_empty_r.
  - apply Forall_cons in Hvs as [Hv Hvs]. cbn [fst] in Hv.
    assert (∀ out1,
              bind (Execute (S n) arg)
                (λ r, bind match r with
                           | Some o => Object_Print (S n) o
                           | None => write "None"
                           end
                        (λ _, Print_loop (Execute (S n)) (Object_Print (S n))
                                false r args))
                (set_output out1 w)
              = (Normal (default v (last vs.*1)),
                 set_output
                   (((out1 +:+ output w1) +:+ shown v)
                    +:+ spaced (printed <$> vs)) w2)) as Hstep.
    { intros out1.
      rewrite (bind_Normal _ _ _ _ _ (Execute_on_output _ _ _ _ out1 _ Harg)).
      assert (match v with
              | Some o => Object_Print (S n) o
              | None => write "None"
              end (set_output (out1 +:+ output w1) w1)
              = (Normal tt,
                 set_output ((out1 +:+ output w1) +:+ shown v) w1)) as Hprint.
      { destruct v as [o|]; [|done]. by rewrite Object_Print_shown. }
      rewrite (bind_Normal _ _ _ _ _ Hprint). by apply IH. }
    assert (default result (last ((v, output w1) :: vs).*1)
            = default v (last vs.*1)) as ->.
    { cbn [fmap list_fmap fst]. rewrite last_cons.
      by destruct (last vs.*1). }
    cbn [Print_loop]. destruct first.
    + rewrite (bind_Normal _ _ (set_output out w) (set_output out w) tt eq_refl).
      rewrite Hstep. f_equal. f_equal.
      cbn [fmap list_fmap joined]. unfold printed at 2. cbn [fst snd].
      by rewrite !string_append_assoc.
    + assert (write " " (set_output out w)
              = (Normal tt, set_output (out +:+ " ") w)) as Hsep by done.
      rewrite (bind_Normal _ _ _ _ _ Hsep), Hstep. f_equal. f_equal.
      cbn [fmap list_fmap spaced]. unfold printed at 2. cbn [fst snd].
      by rewrite !string_append_assoc.
Qed.

(** X16.  [Print] of expressions whose values are no [ClassInstance],
    whatever their evaluation does to the closure, the instances and the
    stream: for each expression in turn it writes what the evaluation of
    the expression writes and then its value, [None] as "None", [True] and
    [False] for a [Bool], "Class " and the name for a class, with one
    space between two expressions and an end of line after the last; it
    returns the value of the last expression, and [None] when it has no
    expression, and leaves the world the evaluations leave. *)
Theorem Print_writes_the_values (n : nat) (w w' : World)
    (args : list Statement) (vs : list (ObjectHolder * string)) :
  evaluated (S n) w args vs w' →
  Forall (λ r, TryAs_ClassInstance r.1 = None) vs →
  Execute (S (S n)) (Print args) w
  = (Normal (default ObjectHolder_None (last vs.*1)),
     set_output (output w +:+ joined (printed <$> vs) +:+ endl) w').
Proof.
  intros Hargs Hvs. rewrite Execute_S. cbn [Statement_Execute].
  unfold Print_Execute.
  pose proof (Print_loop_evaluated n w w' args vs Hargs Hvs true
                ObjectHolder_None (output w)) as Hloop.
  replace (set_output (output w) w) with w in Hloop by (by destruct w).
  rewrite (bind_Normal _ _ _ _ _ Hloop). cbn.
  unfold bind, write, modify, ret, set_output. cbn.
  by rewrite string_append_assoc.
Qed.

Lemma Print_writes_the_values_witness :
  let assigned :=
    set_closure (<["z" := Own (Number 1)]> (closure example_world))
                example_world in
  Execute 3 (Print [Assignment "z" (VariableValue ["x"]);
                    Print [VariableValue ["y"]];
                    VariableValue ["none"]]) example_world
  = (Normal ObjectHolder_None,
     set_output ("1 2" +:+ endl +:+ "2 None" +:+ endl) assigned).
Proof.
  cbv zeta.
  apply (Print_writes_the_values 1 example_world
           (set_closure (<["z" := Own (Number 1)]> (closure example_world))
                        example_world)
           [Assignment "z" (VariableValue ["x"]); Print [VariableValue ["y"]];
            VariableValue ["none"]]
           [(Own (Number 1), ""); (Own (Number 2), "2" +:+ endl);
            (ObjectHolder_None, "")]).
  - apply (evaluated_cons 2 example_world
             (set_closure (<["z" := Own (Number 1)]> (closure example_world))
                          example_world));
      [vm_compute; reflexivity|].
    apply (evaluated_cons 2 _
             (set_output ("2" +:+ endl)
                (set_closure (<["z" := Own (Number 1)]> (closure example_world))
                             example_world)));
      [vm_compute; reflexivity|].
    apply (evaluated_cons 2 _
             (set_closure (<["z" := Own (Number 1)]> (closure example_world))
                          example_world));
      [vm_compute; reflexivity|].
    apply evaluated_nil.
  - repeat (apply List.Forall_cons; [reflexivity|]). apply List.Forall_nil.
Defined.

End Output.

(** ** Tokens and the cursor over them *)
Section Tokens.
Import parse.

Lemma Token_eq_refl (a : Token) : Token_eq a a = true.
Proof.
  destruct a; cbn; try done.
  - apply Z.eqb_refl.
  - apply String.eqb_refl.
  - apply String.eqb_refl.
  - apply Ascii.eqb_refl.
Qed.

(** X18.  [operator==] on tokens is equality of the alternative and of the
    value it holds, and [operator!=] is its negation. *)
Theorem Token_eq_is_equality (a b : Token) :
  (Token_eq a b = true ↔ a = b) ∧ (Token_ne a b = true ↔ a ≠ b).
Proof.
  assert (Token_eq a b = true ↔ a = b) as Heq.
  { split; [apply Token_eq_true|]. intros ->. apply Token_eq_refl. }
  split; [done|]. unfold Token_ne. rewrite negb_true_iff.
  rewrite <- Heq. by destruct (Token_eq a b).
Qed.

Lemma advanced_min (l : Lexer) (k : nat) :
  tokens_ l ≠ [] →
  advanced l k = Nat.min k (length (tokens_ l) - 1).
Proof.
  intros Hne. assert (0 < length (tokens_ l)) as Hlen.
  { destruct (tokens_ l); [done|cbn; lia]. }
  induction k as [|k IH]; [done|].
  cbn [advanced]. rewrite IH. unfold NextToken.
  destruct (Nat.eqb_spec (Nat.min k (length (tokens_ l) - 1) + 1)
                         (length (tokens_ l))); cbn [snd]; lia.
Qed.

(** X19.  The cursor over the tokens of a lex pass: [CurrentToken] is the
    first token; the [k]-th call of [NextToken] returns the token at
    distance [k] from the first while there is one, and [Eof] from then
    on, where the cursor stays on the last token; no call dereferences an
    iterator that is not one of an element. *)
Theorem NextToken_walks_the_tokens (fuel : nat) (l0 l : Lexer) :
  ParseTokens fuel l0 = Done l →
  CurrentToken l 0 = head (tokens_ l)
  ∧ is_Some (CurrentToken l 0)
  ∧ ∀ k,
      (NextToken l (advanced l k)).1
      = Some (default token_type.Eof (tokens_ l !! S k))
      ∧ CurrentToken l (advanced l (S k))
        = Some (default token_type.Eof (tokens_ l !! S k)).
Proof.
  intros Hl. apply ParseTokens_ends_with_Eof in Hl as (before & Hts & _).
  assert (tokens_ l ≠ []) as Hne by (rewrite Hts; by destruct before).
  assert (length (tokens_ l) = S (length before)) as Hlen.
  { rewrite Hts, length_app. cbn. lia. }
  assert (tokens_ l !! length before = Some token_type.Eof) as Hlast.
  { rewrite Hts. by apply list_lookup_middle. }
  split_and!.
  - unfold CurrentToken. by destruct (tokens_ l).
  - unfold CurrentToken. destruct (tokens_ l); [done|by eexists].
  - intros k.
    assert ((NextToken l (advanced l k)).1
            = Some (default token_type.Eof (tokens_ l !! S k))) as Hnext.
    { rewrite advanced_min by done. unfold NextToken. rewrite Hlen.
      destruct (Nat.eqb_spec (Nat.min k (S (length before) - 1) + 1)
                             (S (length before))) as [Hk|Hk]; cbn [fst].
      - destruct (decide (S k = S (length before - 0))) as [Hk'|Hk'].
        + rewrite Hk'. replace (length before - 0) with (length before) by lia.
          rewrite lookup_ge_None_2; [done|lia].
        + rewrite lookup_ge_None_2; [done|lia].
      - replace (Nat.min k (S (length before) - 1) + 1) with (S k) by lia.
        destruct (lookup_lt_is_Some_2 (tokens_ l) (S k)) as [t Ht]; [lia|].
        by rewrite Ht. }
    split; [done|].
    unfold CurrentToken. rewrite !advanced_min by done. rewrite Hlen.
    destruct (decide (S k < S (length before))) as [Hk|Hk].
    + replace (Nat.min (S k) (S (length before) - 1)) with (S k) by lia.
      destruct (lookup_lt_is_Some_2 (tokens_ l) (S k)) as [t Ht]; [lia|].
      by rewrite Ht.
    + replace (Nat.min (S k) (S (length before) - 1)) with (length before)
        by lia.
      rewrite Hlast. rewrite lookup_ge_None_2; [done|lia].
Qed.

Lemma NextToken_walks_the_tokens_witness :
  let l :=
    mkLexer [token_type.Id "x"; token_type.Char "="; token_type.Number 1;
             token_type.Newline; token_type.Eof] 0
            (mkIstream (rev (list_ascii_of_string "x = 1")) [] true true false) in
  CurrentToken l 0 = head (tokens_ l)
  ∧ is_Some (CurrentToken l 0)
  ∧ ∀ k,
      (NextToken l (advanced l k)).1
      = Some (default token_type.Eof (tokens_ l !! S k))
      ∧ CurrentToken l (advanced l (S k))
        = Some (default token_type.Eof (tokens_ l !! S k)).
Proof.
  apply (NextToken_walks_the_tokens 6
           (mkLexer [] 0 (istream_of (list_ascii_of_string "x = 1")))).
  vm_compute. reflexivity.
Defined.
End Tokens.

(** ** The scanners *)
Section Scanners.
Import parse.





(** *** The longest match *)

Lemma scan_while_takes (fuel : nat) (keep : ascii → bool) (w rest : list ascii)
    (str : string) (input : istream) :
  good input = true → ahead input = w ++ rest →
  Forall (λ c, keep c = true) w → stops keep rest →
  length w < fuel →
  ∃ input',
    scan_while fuel keep str input
    = Finished (str +:+ string_of_list_ascii w) input'
    ∧ ahead input' = rest
    ∧ behind input' = rev w ++ behind input
    ∧ (rest ≠ [] → good input' = true).
Proof.
  revert w str input. induction fuel as [|fuel IH];
    intros w str input Hgood Ha Hw Hrest Hlen; [lia|].
  destruct w as [|c w].
  - cbn [app] in Ha. cbn [scan_while string_of_list_ascii rev app].
    rewrite append_empty_r.
    destruct rest as [|c rest].
    + exists (set_failbit (set_eofbit input)). unfold get.
      rewrite Hgood, Ha. by cbn.
    + rewrite (get_ready input c rest) by done. cbn in Hrest. rewrite Hrest.
      exists input. split_and!; try done.
      pose proof (putback_get input _ c (get_ready input c rest (conj Hgood Ha)))
        as ->. done.
  - cbn [app] in Ha. cbn [scan_while].
    rewrite (get_ready input c (w ++ rest)) by done.
    apply Forall_cons in Hw as [Hc Hw]. rewrite Hc.
    destruct (IH w (push_back str c)
                (mkIstream (c :: behind input) (w ++ rest) false false false))
      as (input' & Hscan & Ha' & Hb' & Hg'); try done; [cbn in Hlen; lia|].
    exists input'. rewrite Hscan. split_and!; try done.
    + by rewrite push_back_append.
    + rewrite Hb'. cbn. by rewrite <- app_assoc.
Qed.

(** X21.  [ParseId] takes the longest run of letters, digits and
    underscores at a letter or an underscore and puts back the character
    that ends it: a keyword is a keyword only as a whole word, every other
    run is one [Id]. *)
Theorem ParseId_longest_match (fuel : nat) (l : Lexer) (c : ascii)
    (w rest : list ascii) :
  good (input_ l) = true →
  ahead (input_ l) = c :: w ++ rest →
  isalpha c || Ascii.eqb c underscore = true →
  Forall (λ c, id_char c = true) w → stops id_char rest →
  S (length w) < fuel →
  ∃ l',
    ParseId fuel l = Done l'
    ∧ tokens_ l'
      = tokens_ l
        ++ [default (token_type.Id (string_of_list_ascii (c :: w)))
                    (keywords_ !! string_of_list_ascii (c :: w))]
    ∧ ahead (input_ l') = rest
    ∧ space_count_ l' = space_count_ l.
Proof.
  intros Hgood Ha Hc Hw Hrest Hfuel.
  assert (id_char c = true) as Hkeep.
  { unfold id_char, isalnum. apply orb_true_iff in Hc as [H|H]; rewrite H;
      [done|apply orb_true_r]. }
  unfold ParseId. rewrite (ready_peek l c (w ++ rest)) by done.
  cbn [to_char]. rewrite Hc.
  destruct (scan_while_takes fuel id_char (c :: w) rest "" (input_ l))
    as (input' & Hscan & Ha' & _); try done; [by apply Forall_cons|].
  unfold id_char in Hscan. rewrite Hscan.
  change ("" +:+ string_of_list_ascii (c :: w))
    with (string_of_list_ascii (c :: w)).
  destruct (keywords_ !! string_of_list_ascii (c :: w)) as [k|];
    eexists; split_and!; done.
Qed.

Lemma ParseId_longest_match_witness :
  ∃ l',
    ParseId 9 (mkLexer [] 0 (istream_of (list_ascii_of_string "if_1 x")))
    = Done l'
    ∧ tokens_ l' = [] ++ [token_type.Id "if_1"]
    ∧ ahead (input_ l') = list_ascii_of_string " x"
    ∧ space_count_ l' = 0%Z.
Proof.
  apply (ParseId_longest_match 9
           (mkLexer [] 0 (istream_of (list_ascii_of_string "if_1 x")))
           "i"%char (list_ascii_of_string "f_1") (list_ascii_of_string " x")).
  - reflexivity.
  - reflexivity.
  - reflexivity.
  - repeat (apply List.Forall_cons; [reflexivity|]). apply List.Forall_nil.
  - reflexivity.
  - cbn. lia.
Defined.

Lemma decimal_digits (w : list ascii) (acc : Z) :
  Forall (λ c, isdigit c = true) w → (0 ≤ acc)%Z →
  (0 ≤ decimal acc (string_of_list_ascii w))%Z.
Proof.
  revert acc. induction w as [|c w IH]; intros acc Hw Hacc; [done|].
  apply Forall_cons in Hw as [Hc Hw]. cbn. apply IH; [done|].
  unfold isdigit, between in Hc. unfold digit_value.
  apply andb_true_iff in Hc as [Hc _]. apply Nat.leb_le in Hc. lia.
Qed.

(** X22.  [ParseNumbers] takes the longest run of digits and puts back
    the character that ends it; the run is read in base ten, and one
    whose value does not fit an [int] makes [std::stoi] throw
    [std::out_of_range]. *)
Theorem ParseNumbers_longest_match (fuel : nat) (l : Lexer) (c : ascii)
    (w rest : list ascii) :
  good (input_ l) = true →
  ahead (input_ l) = c :: w ++ rest →
  Forall (λ c, isdigit c = true) (c :: w) → stops isdigit rest →
  S (length w) < fuel →
  let value := decimal 0 (string_of_list_ascii (c :: w)) in
  (0 ≤ value)%Z
  ∧ ((2 ^ 31 - 1 < value)%Z →
     ParseNumbers fuel l = Throw (out_of_range "stoi"))
  ∧ ((value ≤ 2 ^ 31 - 1)%Z →
     ∃ l',
       ParseNumbers fuel l = Done l'
       ∧ tokens_ l' = tokens_ l ++ [token_type.Number value]
       ∧ ahead (input_ l') = rest
       ∧ space_count_ l' = space_count_ l).
Proof.
  intros Hgood Ha Hw Hrest Hfuel value.
  assert (isdigit c = true) as Hc by (by apply Forall_cons in Hw as [? _]).
  assert (0 ≤ value)%Z as Hvalue by (by apply decimal_digits).
  destruct (scan_while_takes fuel isdigit (c :: w) rest "" (input_ l))
    as (input' & Hscan & Ha' & _); try done.
  assert (ParseNumbers fuel l
          = match stoi (string_of_list_ascii (c :: w)) with
            | inr result_num =>
                Done (emplace_back (token_type.Number result_num)
                                   (set_input input' l))
            | inl e => Throw e
            end) as ->.
  { unfold ParseNumbers. rewrite (ready_peek l c (w ++ rest)) by done.
    cbn [to_char]. by rewrite Hc, Hscan. }
  unfold stoi. fold value. split_and!; [done| |].
  - intros Hbig. by rewrite (proj2 (Z.leb_gt _ _) Hbig).
  - intros Hfits. rewrite (proj2 (Z.leb_le _ _) Hfits).
    eexists; split_and!; done.
Qed.

Lemma ParseNumbers_longest_match_witness :
  let l := mkLexer [] 0 (istream_of (list_ascii_of_string "2147483648+1")) in
  (0 ≤ 2147483648)%Z
  ∧ ((2 ^ 31 - 1 < 2147483648)%Z →
     ParseNumbers 12 l = Throw (out_of_range "stoi"))
  ∧ ((2147483648 ≤ 2 ^ 31 - 1)%Z →
     ∃ l',
       ParseNumbers 12 l = Done l'
       ∧ tokens_ l' = tokens_ l ++ [token_type.Number 2147483648]
       ∧ ahead (input_ l') = list_ascii_of_string "+1"
       ∧ space_count_ l' = space_count_ l).
Proof.
  apply (ParseNumbers_longest_match 12
           (mkLexer [] 0 (istream_of (list_ascii_of_string "2147483648+1")))
           "2"%char (list_ascii_of_string "147483648")
           (list_ascii_of_string "+1")).
  - reflexivity.
  - reflexivity.
  - repeat (apply List.Forall_cons; [reflexivity|]). apply List.Forall_nil.
  - reflexivity.
  - cbn. lia.
Defined.
End Scanners.

(** ** Operators and spaces *)
Section Operators.
Import parse.

(** X29.  [ParseComparisonOperators] takes two characters or none: [==],
    [>=], [<=] and [!=] become their token, and before every other pair
    of characters, and before a last character, the lexer is left as it
    was. *)
Theorem ParseComparisonOperators_takes_two (l : Lexer) (a : ascii)
    (rest : list ascii) :
  good (input_ l) = true →
  ahead (input_ l) = a :: rest →
  (∀ t rest',
      comparison_token a = Some t → rest = "="%char :: rest' →
      ParseComparisonOperators l
      = Done (mkLexer (tokens_ l ++ [t]) (space_count_ l)
                (mkIstream ("="%char :: a :: behind (input_ l)) rest'
                           false false false)))
  ∧ (comparison_token a = None ∨ head rest ≠ Some "="%char →
     ParseComparisonOperators l = Done l).
Proof.
  intros Hgood Ha.
  pose proof (get_ready _ _ _ (conj Hgood Ha)) as Hget.
  split.
  - intros t rest' Ht ->. unfold ParseComparisonOperators. rewrite Hget.
    unfold comparison_token in Ht. cbn.
    destruct (Ascii.eqb a "=")%char; [by injection Ht as <-|].
    destruct (Ascii.eqb a ">")%char; [by injection Ht as <-|].
    destruct (Ascii.eqb a "<")%char; [by injection Ht as <-|].
    destruct (Ascii.eqb a "!")%char; [by injection Ht as <-|].
    done.
  - intros Hno. unfold ParseComparisonOperators. rewrite Hget.
    set (input := mkIstream _ _ _ _ _).
    pose proof (putback_peek_get _ _ _ Hget) as Hback. fold input in Hback.
    assert (comparison_token a = None
            ∨ Ascii.eqb (to_char (peek input).1) "="%char = false) as Hno'.
    { destruct Hno as [?|Hrest]; [by left|right].
      subst input. destruct rest as [|b rest]; [done|]. cbn.
      apply Ascii.eqb_neq. intros ->. by apply Hrest. }
    destruct (peek input) as [peeked input'] eqn:Hpeek.
    cbn [fst snd] in Hno', Hback. cbn [from_option id].
    rewrite Hback, set_input_same.
    unfold comparison_token in Hno'.
    destruct (Ascii.eqb (to_char peeked) "=")%char.
    + destruct Hno' as [Hno'|]; [|done].
      destruct (Ascii.eqb a "=")%char; [done|].
      destruct (Ascii.eqb a ">")%char; [done|].
      destruct (Ascii.eqb a "<")%char; [done|].
      by destruct (Ascii.eqb a "!")%char.
    + by rewrite !andb_false_r.
Qed.

Lemma ParseComparisonOperators_takes_two_witness :
  ParseComparisonOperators
    (mkLexer [token_type.Id "x"] 0 (istream_of (list_ascii_of_string "!=1")))
  = Done (mkLexer [token_type.Id "x"; token_type.NotEq] 0
            (mkIstream ["="%char; "!"%char] ["1"%char] false false false))
  ∧ ParseComparisonOperators
      (mkLexer [token_type.Id "x"] 0 (istream_of (list_ascii_of_string "=>1")))
    = Done (mkLexer [token_type.Id "x"] 0
              (istream_of (list_ascii_of_string "=>1"))).
Proof.
  split.
  - destruct (ParseComparisonOperators_takes_two
                (mkLexer [token_type.Id "x"] 0
                         (istream_of (list_ascii_of_string "!=1")))
                "!"%char (list_ascii_of_string "=1") eq_refl eq_refl)
      as [Htwo _].
    apply (Htwo token_type.NotEq ["1"%char]); reflexivity.
  - destruct (ParseComparisonOperators_takes_two
                (mkLexer [token_type.Id "x"] 0
                         (istream_of (list_ascii_of_string "=>1")))
                "="%char (list_ascii_of_string ">1") eq_refl eq_refl)
      as [_ Hnone].
    apply Hnone. right. discriminate.
Defined.

Lemma SkipSpaces_loop_spaces (fuel k : nat) (rest : list ascii)
    (input : istream) :
  good input = true →
  ahead input = replicate k space ++ rest →
  head rest ≠ Some space →
  k < fuel →
  ∃ input',
    SkipSpaces_loop fuel input = Finished tt input'
    ∧ ahead input' = rest
    ∧ behind input' = replicate k space ++ behind input.
Proof.
  revert k input. induction fuel as [|fuel IH];
    intros k input Hgood Ha Hrest Hk; [lia|].
  destruct k as [|k].
  - cbn [replicate app] in Ha. cbn [SkipSpaces_loop]. unfold peek.
    rewrite Hgood, Ha. destruct rest as [|c rest].
    + eexists. split_and!; [reflexivity|done..].
    + replace (Ascii.eqb c space) with false.
      * eexists. split_and!; [reflexivity|done..].
      * symmetry. apply Ascii.eqb_neq. intros ->. by apply Hrest.
  - cbn [replicate app] in Ha. cbn [SkipSpaces_loop]. unfold peek.
    rewrite Hgood, Ha. rewrite Ascii.eqb_refl.
    rewrite (get_ready input space _ (conj Hgood Ha)). cbn [snd].
    destruct (IH k (mkIstream (space :: behind input)
                      (replicate k space ++ rest) false false false))
      as (input' & Hloop & Ha' & Hb'); [done|done|done|lia|].
    exists input'. split_and!; [done|done|]. rewrite Hb'. cbn [behind].
    change (replicate (S k) space) with (space :: replicate k space).
    by rewrite replicate_cons_app, <- app_assoc.
Qed.

(** X30.  [SkipSpaces] drops the spaces the text goes on with, all of them
    and nothing else, and adds no token. *)
Theorem SkipSpaces_drops_the_spaces (fuel : nat) (l : Lexer) (k : nat)
    (rest : list ascii) :
  good (input_ l) = true →
  ahead (input_ l) = replicate k space ++ rest →
  head rest ≠ Some space →
  k < fuel →
  ∃ l',
    SkipSpaces fuel l = Done l'
    ∧ ahead (input_ l') = rest
    ∧ tokens_ l' = tokens_ l
    ∧ space_count_ l' = space_count_ l.
Proof.
  intros Hgood Ha Hrest Hk. unfold SkipSpaces.
  destruct (SkipSpaces_loop_spaces fuel k rest (input_ l))
    as (input' & -> & Ha' & _); try done.
  eexists. split_and!; done.
Qed.

Lemma SkipSpaces_drops_the_spaces_witness :
  ∃ l',
    SkipSpaces 9 (mkLexer [token_type.Id "x"] 0
                          (istream_of (list_ascii_of_string "   = 1")))
    = Done l'
    ∧ ahead (input_ l') = list_ascii_of_string "= 1"
    ∧ tokens_ l' = [token_type.Id "x"]
    ∧ space_count_ l' = 0%Z.
Proof.
  apply (SkipSpaces_drops_the_spaces 9
           (mkLexer [token_type.Id "x"] 0
                    (istream_of (list_ascii_of_string "   = 1")))
           3 (list_ascii_of_string "= 1")).
  - reflexivity.
  - reflexivity.
  - discriminate.
  - lia.
Defined.
(** *** A comparison on a char that was never set *)

Lemma get_at_the_end (input : istream) :
  ahead input = [] → (get input).1 = None.
Proof. unfold get. intros ->. by destruct (good input). Qed.

Lemma name_start_cases (c : ascii) :
  isalpha c || Ascii.eqb c underscore = true →
  Ascii.eqb c newline = false
  ∧ Ascii.eqb c single_quote = false ∧ Ascii.eqb c double_quote = false.
Proof.
  destruct c as [[] [] [] [] [] [] [] []]; vm_compute; intros H;
    first [discriminate H | tauto].
Qed.

(** X28.  When [get] fails at its entry, [ParseComparisonOperators]
    compares the [char] that [get] left unset.  Whatever that [char]
    holds, the outcome is the one the embedding gives: no token is added,
    the characters of the stream are as they were, and the stream has
    failed.  A lex pass does come to that comparison: at the end of a text
    that ends in a name, [ParseNewLine], [ParseStrings] and [ParseId] hand
    [ParseComparisonOperators] a stream whose [get] fails. *)
Theorem ParseComparisonOperators_on_unset_char :
  (∀ unset l,
      ParseComparisonOperators_reading unset l = ParseComparisonOperators l)
  ∧ (∀ unset l,
      (get (input_ l)).1 = None →
      ∃ input',
        ParseComparisonOperators_reading unset l = Done (set_input input' l)
        ∧ ahead input' = ahead (input_ l)
        ∧ behind input' = behind (input_ l)
        ∧ failbit input' = true)
  ∧ (∀ fuel l c w,
      good (input_ l) = true →
      ahead (input_ l) = c :: w →
      isalpha c || Ascii.eqb c underscore = true →
      Forall (λ c, id_char c = true) w →
      S (length w) < fuel →
      ∃ l1,
        (ParseNewLine fuel >> ParseStrings fuel >> ParseId fuel) l = Done l1
        ∧ (get (input_ l1)).1 = None).
Proof.
  assert (∀ unset l,
            (get (input_ l)).1 = None →
            ParseComparisonOperators_reading unset l
            = Done (set_input
                      (putback unset (set_failbit (get (input_ l)).2)) l)
            ∧ failbit (get (input_ l)).2 = true
            ∧ ahead (get (input_ l)).2 = ahead (input_ l)
            ∧ behind (get (input_ l)).2 = behind (input_ l)) as Hfailed.
  { intros unset l. unfold ParseComparisonOperators_reading.
    destruct (input_ l) as [b a e f d] eqn:Hinput.
    unfold get, good. cbn [eofbit failbit badbit ahead behind].
    destruct e, f, d, a as [|c a]; cbn; try done;
      intros _; by rewrite ?andb_false_r. }
  split_and!.
  - intros unset l.
    destruct (get (input_ l)) as [[c|] input] eqn:Hget.
    + unfold ParseComparisonOperators_reading, ParseComparisonOperators.
      by rewrite Hget.
    + destruct (Hfailed unset l) as (-> & Hf & _); [by rewrite Hget|].
      destruct (Hfailed indeterminate l) as (Hmodel & _); [by rewrite Hget|].
      assert (ParseComparisonOperators_reading indeterminate l
              = ParseComparisonOperators l) as <-.
      { unfold ParseComparisonOperators_reading, ParseComparisonOperators.
        by rewrite Hget. }
      by rewrite Hmodel.
  - intros unset l Hget. destruct (Hfailed unset l Hget) as (-> & Hf & Ha & Hb).
    eexists. split; [done|].
    destruct (get (input_ l)).2 as [b a e f d]. cbn in *. subst f.
    unfold putback, good. by destruct e, d.
  - intros fuel l c w Hgood Ha Hc Hw Hfuel.
    destruct (name_start_cases c Hc) as (Hn & Hq1 & Hq2).
    assert (id_char c = true) as Hkeep.
    { unfold id_char, isalnum. apply orb_true_iff in Hc as [H|H]; rewrite H;
        [done|apply orb_true_r]. }
    unfold then_.
    rewrite (ParseNewLine_pass fuel l c w) by done.
    rewrite (ParseStrings_pass fuel l c w) by done.
    unfold ParseId. rewrite (ready_peek l c w) by done.
    cbn [to_char]. rewrite Hc.
    destruct (scan_while_takes fuel id_char (c :: w) [] "" (input_ l))
      as (input' & Hscan & Ha' & _); try done.
    { by rewrite app_nil_r. }
    { by apply Forall_cons. }
    unfold id_char in Hscan. rewrite Hscan.
    destruct (keywords_ !! _); eexists; (split; [done|]);
      by apply get_at_the_end.
Qed.

Lemma ParseComparisonOperators_on_unset_char_witness :
  ∃ l1,
    (ParseNewLine 9 >> ParseStrings 9 >> ParseId 9)
      (mkLexer [] 0 (istream_of (list_ascii_of_string "x = y")))
    = Done (mkLexer [token_type.Id "x"] 0
              (mkIstream ["x"%char] (list_ascii_of_string " = y")
                         false false false))
    ∧ (ParseNewLine 9 >> ParseStrings 9 >> ParseId 9)
        (mkLexer [token_type.Id "x"; token_type.Char "="] 0
           (mkIstream (rev (list_ascii_of_string "x = ")) ["y"%char]
                      false false false))
      = Done l1
    ∧ (get (input_ l1)).1 = None
    ∧ ParseComparisonOperators_reading "="%char l1
      = ParseComparisonOperators l1.
Proof.
  destruct ParseComparisonOperators_on_unset_char as (Hsame & _ & Hreach).
  destruct (Hreach 9
              (mkLexer [token_type.Id "x"; token_type.Char "="] 0
                 (mkIstream (rev (list_ascii_of_string "x = ")) ["y"%char]
                            false false false))
              "y"%char []) as (l1 & Hl1 & Hget).
  { reflexivity. }
  { reflexivity. }
  { reflexivity. }
  { apply List.Forall_nil. }
  { cbn. lia. }
  exists l1. split_and!.
  - reflexivity.
  - exact Hl1.
  - exact Hget.
  - apply Hsame.
Defined.
End Operators.

(** ** String literals, comments, indentation *)
Section Literals.
Import parse.

Lemma ParseStrings_loop_spelled (fuel : nat) (open_char : ascii)
    (s rest : list ascii) (str : string) (input : istream) :
  open_char = single_quote ∨ open_char = double_quote →
  good input = true →
  ahead input = flat_map spelled s ++ open_char :: rest →
  length s < fuel →
  ∃ input',
    ParseStrings_loop fuel open_char str input
    = Finished (str +:+ string_of_list_ascii s) input'
    ∧ good input' = true ∧ ahead input' = rest.
Proof.
  intros Hopen. revert s str input.
  induction fuel as [|fuel IH]; intros s str input Hgood Ha Hlen; [lia|].
  destruct s as [|c s].
  - cbn [flat_map app] in Ha. cbn [ParseStrings_loop].
    rewrite (get_ready input open_char rest) by done.
    rewrite Ascii.eqb_refl. cbn [string_of_list_ascii].
    rewrite append_empty_r. eexists. split_and!; [reflexivity|done..].
  - cbn [flat_map] in Ha. rewrite <- app_assoc in Ha.
    cbn [length] in Hlen.
    assert (∀ input1,
              good input1 = true →
              ahead input1 = flat_map spelled s ++ open_char :: rest →
              ∃ input',
                ParseStrings_loop fuel open_char (push_back str c) input1
                = Finished (str +:+ string_of_list_ascii (c :: s)) input'
                ∧ good input' = true ∧ ahead input' = rest) as Hnext.
    { intros input1 Hg1 Ha1.
      destruct (IH s (push_back str c) input1 Hg1 Ha1 ltac:(lia))
        as (input' & Hloop & ?). exists input'.
      by rewrite Hloop, push_back_append. }
    assert (∀ e, spelled c = [backslash; e] → escape e = Some c →
              ∃ input',
                ParseStrings_loop (S fuel) open_char str input
                = Finished (str +:+ string_of_list_ascii (c :: s)) input'
                ∧ good input' = true ∧ ahead input' = rest) as Hescaped.
    { intros e He Hesc. rewrite He in Ha. cbn [app] in Ha.
      cbn [ParseStrings_loop].
      rewrite (get_ready input backslash _ (conj Hgood Ha)).
      replace (Ascii.eqb backslash open_char) with false
        by (by destruct Hopen as [-> | ->]).
      rewrite Ascii.eqb_refl.
      rewrite (get_ready _ e (flat_map spelled s ++ open_char :: rest))
        by done.
      rewrite Hesc. by apply Hnext. }
    unfold spelled in Ha, Hescaped.
    destruct (Ascii.eqb c newline) eqn:H1;
      [apply Ascii.eqb_eq in H1 as ->; by eapply Hescaped|].
    destruct (Ascii.eqb c tab) eqn:H2;
      [apply Ascii.eqb_eq in H2 as ->; by eapply Hescaped|].
    destruct (Ascii.eqb c carriage_return) eqn:H3;
      [apply Ascii.eqb_eq in H3 as ->; by eapply Hescaped|].
    destruct (Ascii.eqb c double_quote) eqn:H4;
      [apply Ascii.eqb_eq in H4 as ->; by eapply Hescaped|].
    destruct (Ascii.eqb c single_quote) eqn:H5;
      [apply Ascii.eqb_eq in H5 as ->; by eapply Hescaped|].
    destruct (Ascii.eqb c backslash) eqn:H6;
      [apply Ascii.eqb_eq in H6 as ->; by eapply Hescaped|].
    cbn [app] in Ha. cbn [ParseStrings_loop].
    rewrite (get_ready input c _ (conj Hgood Ha)).
    replace (Ascii.eqb c open_char) with false
      by (by destruct Hopen as [-> | ->]).
    rewrite H6, H1, H3. cbn [orb]. by apply Hnext.
Qed.

(** X23.  A string literal read back: whatever the characters of a text,
    [ParseStrings] turns the literal that spells it, in single or in
    double quotes, into one [String] token with that text, and stops
    behind the closing quote. *)
Theorem ParseStrings_reads_back (fuel : nat) (l : Lexer) (open_char : ascii)
    (s rest : list ascii) :
  open_char = single_quote ∨ open_char = double_quote →
  good (input_ l) = true →
  ahead (input_ l) = literal open_char s ++ rest →
  length s < fuel →
  ∃ l',
    ParseStrings fuel l = Done l'
    ∧ tokens_ l' = tokens_ l ++ [token_type.String (string_of_list_ascii s)]
    ∧ ahead (input_ l') = rest
    ∧ space_count_ l' = space_count_ l.
Proof.
  intros Hopen Hgood Ha Hlen. unfold literal in Ha.
  cbn [app] in Ha. rewrite <- app_assoc in Ha. cbn [app] in Ha.
  unfold ParseStrings. rewrite (get_ready _ _ _ (conj Hgood Ha)).
  cbn [to_char].
  replace (Ascii.eqb open_char single_quote || Ascii.eqb open_char double_quote)
    with true by (by destruct Hopen as [-> | ->]).
  destruct (ParseStrings_loop_spelled fuel open_char s rest ""
              (mkIstream (open_char :: behind (input_ l))
                 (flat_map spelled s ++ open_char :: rest) false false false))
    as (input' & Hloop & Hg' & Ha'); try done.
  rewrite Hloop. eexists. split_and!; done.
Qed.

Lemma ParseStrings_reads_back_witness :
  let s := ["a"%char; newline; single_quote; backslash; double_quote] in
  let l :=
    mkLexer [] 0 (istream_of (literal single_quote s ++ [" "%char])) in
  ∃ l',
    ParseStrings 9 l = Done l'
    ∧ tokens_ l' = tokens_ l ++ [token_type.String (string_of_list_ascii s)]
    ∧ ahead (input_ l') = [" "%char]
    ∧ space_count_ l' = space_count_ l.
Proof.
  cbv zeta.
  apply (ParseStrings_reads_back 9
           (mkLexer [] 0
              (istream_of
                 (literal single_quote
                    ["a"%char; newline; single_quote; backslash; double_quote]
                  ++ [" "%char])))
           single_quote
           ["a"%char; newline; single_quote; backslash; double_quote]
           [" "%char]).
  - left. reflexivity.
  - reflexivity.
  - reflexivity.
  - cbn. lia.
Defined.

(** *** Comments *)

Lemma getline_scan_line (delim : ascii) (body rest before : list ascii) :
  delim ∉ body →
  getline_scan delim before (body ++ delim :: rest)
  = mkIstream (delim :: rev body ++ before) rest false false false.
Proof.
  revert before. induction body as [|c body IH]; intros before Hbody.
  - cbn. by rewrite Ascii.eqb_refl.
  - apply not_elem_of_cons in Hbody as [Hc Hbody]. cbn.
    replace (Ascii.eqb c delim) with false
      by (symmetry; apply Ascii.eqb_neq; congruence).
    rewrite IH by done. by rewrite <- app_assoc.
Qed.

Lemma getline_scan_end (delim : ascii) (body before : list ascii) :
  delim ∉ body →
  getline_scan delim before body
  = mkIstream (rev body ++ before) [] true false false.
Proof.
  revert before. induction body as [|c body IH]; intros before Hbody; [done|].
  apply not_elem_of_cons in Hbody as [Hc Hbody]. cbn.
  replace (Ascii.eqb c delim) with false
    by (symmetry; apply Ascii.eqb_neq; congruence).
  rewrite IH by done. by rewrite <- app_assoc.
Qed.

(** X24.  A comment: at a [#], [ParseChar] drops the characters up to the
    end of the line and leaves the newline to be read, or drops all that
    is left of a text that has no newline any more; it adds no token. *)
Theorem ParseChar_skips_a_comment (l : Lexer) (body tail : list ascii) :
  good (input_ l) = true →
  ahead (input_ l) = hash :: body ++ tail →
  newline ∉ body →
  tail = [] ∨ head tail = Some newline →
  ∃ l',
    ParseChar l = Done l'
    ∧ tokens_ l' = tokens_ l
    ∧ space_count_ l' = space_count_ l
    ∧ ahead (input_ l') = tail.
Proof.
  intros Hgood Ha Hbody Htail.
  unfold ParseChar. rewrite (ready_peek l hash (body ++ tail)) by done.
  cbn [to_char]. rewrite set_input_same.
  replace (ispunct hash) with true by done. rewrite Ascii.eqb_refl.
  unfold SkipComment. rewrite (get_ready _ _ _ (conj Hgood Ha)).
  rewrite Ascii.eqb_refl. unfold getline. cbn [good eofbit failbit badbit orb negb ahead behind].
  destruct Htail as [-> | Htail].
  - rewrite app_nil_r. destruct body as [|c body].
    + eexists. split_and!; done.
    + rewrite getline_scan_end by done. eexists. split_and!; done.
  - destruct tail as [|c rest]; [done|]. injection Htail as ->.
    assert (getline_scan newline (hash :: behind (input_ l))
              (body ++ newline :: rest)
            = mkIstream (newline :: rev body ++ hash :: behind (input_ l))
                        rest false false false) as Hline
      by (by apply getline_scan_line).
    destruct (body ++ newline :: rest) eqn:Hb; [by destruct body|].
    rewrite Hline. eexists. split_and!; done.
Qed.

Lemma ParseChar_skips_a_comment_witness :
  let l :=
    mkLexer [token_type.Id "x"] 0
            (istream_of (hash :: list_ascii_of_string " note" ++ [newline; "y"%char])) in
  ∃ l',
    ParseChar l = Done l'
    ∧ tokens_ l' = tokens_ l
    ∧ space_count_ l' = space_count_ l
    ∧ ahead (input_ l') = [newline; "y"%char].
Proof.
  cbv zeta.
  apply (ParseChar_skips_a_comment
           (mkLexer [token_type.Id "x"] 0
              (istream_of
                 (hash :: list_ascii_of_string " note" ++ [newline; "y"%char])))
           (list_ascii_of_string " note") [newline; "y"%char]).
  - reflexivity.
  - reflexivity.
  - compute_done.
  - right. reflexivity.
Defined.

(** *** Indentation *)

Lemma ParseIndent_loop_spaces (fuel : nat) (k : nat) (c : ascii)
    (rest : list ascii) (count : Z) (input : istream) :
  good input = true →
  ahead input = replicate k space ++ c :: rest →
  Ascii.eqb c space = false →
  k < fuel →
  ParseIndent_loop fuel count input
  = Finished ((count + Z.of_nat k)%Z, Some c)
      (mkIstream (c :: replicate k space ++ behind input) rest
                 false false false).
Proof.
  revert k count input. induction fuel as [|fuel IH];
    intros k count input Hgood Ha Hc Hk; [lia|].
  destruct k as [|k].
  - cbn [replicate app] in Ha |- *. cbn [ParseIndent_loop].
    rewrite (get_ready input c rest) by done. rewrite Hc.
    by rewrite Z.add_0_r.
  - cbn [replicate app] in Ha. cbn [ParseIndent_loop].
    rewrite (get_ready input space _ (conj Hgood Ha)).
    rewrite Ascii.eqb_refl.
    rewrite (IH k (count + 1)%Z
               (mkIstream (space :: behind input)
                          (replicate k space ++ c :: rest) false false false));
      [|done|done|done|lia].
    f_equal; [f_equal; lia|]. cbn [behind]. f_equal. f_equal.
    change (replicate (S k) space) with (space :: replicate k space).
    by rewrite replicate_cons_app, <- app_assoc.
Qed.

(** X25.  [ParseIndent] at a line that begins with [k] spaces and then
    another character: on a line that is empty or holds only a comment,
    nothing but the spaces being read happens; on every other line the
    current indent becomes [k] and one [Indent], or one [Dedent], is
    added for every two spaces the indent grew, or fell, a single space
    of difference counting for nothing. *)
Theorem ParseIndent_counts_in_twos (fuel : nat) (l : Lexer) (k : nat)
    (c : ascii) (rest : list ascii) :
  good (input_ l) = true →
  ahead (input_ l) = replicate k space ++ c :: rest →
  Ascii.eqb c space = false →
  k < fuel →
  ∃ l',
    ParseIndent fuel l = Done l'
    ∧ ahead (input_ l') = c :: rest
    ∧ good (input_ l') = true
    ∧ (c = newline ∨ c = hash →
       tokens_ l' = tokens_ l ∧ space_count_ l' = space_count_ l)
    ∧ (c ≠ newline → c ≠ hash →
       let indents_count := Z.quot (Z.of_nat k - space_count_ l) 2 in
       space_count_ l' = Z.of_nat k
       ∧ tokens_ l'
         = tokens_ l
           ++ replicate (Z.to_nat (Z.abs indents_count))
                (if (0 <? indents_count)%Z then token_type.Indent
                 else token_type.Dedent)).
Proof.
  intros Hgood Ha Hc Hk. unfold ParseIndent.
  rewrite (ParseIndent_loop_spaces fuel k c rest 0 (input_ l)) by done.
  cbn [rdstate_is_eofbit eofbit andb negb from_option id].
  set (input1 := mkIstream _ _ _ _ _).
  assert (putback c input1
          = mkIstream (replicate k space ++ behind (input_ l)) (c :: rest)
                      false false false) as -> by done.
  unfold peek. cbn [good eofbit failbit badbit orb negb ahead to_char].
  cbn [set_input input_ tokens_ space_count_ set_space_count].
  destruct (Ascii.eqb c newline) eqn:Hn.
  { apply Ascii.eqb_eq in Hn as ->. eexists. by split_and!. }
  destruct (Ascii.eqb c hash) eqn:Hh.
  { apply Ascii.eqb_eq in Hh as ->. eexists. by split_and!. }
  cbn [orb]. eexists. split_and!; try done.
  apply Ascii.eqb_neq in Hn, Hh. by intros [-> | ->].
Qed.

Lemma ParseIndent_counts_in_twos_witness :
  let l := mkLexer [token_type.Newline] 0
                   (istream_of (list_ascii_of_string "     x")) in
  ∃ l',
    ParseIndent 9 l = Done l'
    ∧ ahead (input_ l') = ["x"%char]
    ∧ good (input_ l') = true
    ∧ ("x"%char = newline ∨ "x"%char = hash →
       tokens_ l' = tokens_ l ∧ space_count_ l' = space_count_ l)
    ∧ ("x"%char ≠ newline → "x"%char ≠ hash →
       let indents_count := Z.quot (Z.of_nat 5 - space_count_ l) 2 in
       space_count_ l' = Z.of_nat 5
       ∧ tokens_ l'
         = tokens_ l
           ++ replicate (Z.to_nat (Z.abs indents_count))
                (if (0 <? indents_count)%Z then token_type.Indent
                 else token_type.Dedent)).
Proof.
  cbv zeta.
  apply (ParseIndent_counts_in_twos 9
           (mkLexer [token_type.Newline] 0
                    (istream_of (list_ascii_of_string "     x")))
           5 "x"%char []).
  - reflexivity.
  - reflexivity.
  - reflexivity.
  - lia.
Defined.
End Literals.

(** ** The token stream as a whole *)
Section TokenStream.
Import parse.

Lemma lines_snoc (ts : list Token) (t : Token) :
  lines ts →
  (t = token_type.Newline →
   ts ≠ [] ∧ last ts ≠ Some token_type.Newline) →
  lines (ts ++ [t]).
Proof.
  intros [Hhead Hts] Ht. split.
  - destruct ts as [|t0 ts]; [|done]. cbn. intros [= ->].
    by destruct (Ht eq_refl).
  - intros i Hi Hi'.
    destruct (decide (S i < length ts)) as [Hlt|Hge].
    + rewrite lookup_app_l in Hi by lia. rewrite lookup_app_l in Hi' by lia.
      by apply (Hts i).
    + destruct (decide (S i = length ts)) as [Heq|Hne].
      * rewrite lookup_app_l in Hi by lia.
        rewrite lookup_app_r in Hi' by lia.
        replace (S i - length ts) with 0 in Hi' by lia. cbn in Hi'.
        injection Hi' as ->. destruct (Ht eq_refl) as [_ Hlast].
        apply Hlast. rewrite last_lookup.
        by replace (pred (length ts)) with i by lia.
      * apply lookup_lt_Some in Hi'. rewrite length_app in Hi'. cbn in Hi'.
        lia.
Qed.

Lemma lines_app (ts new : list Token) :
  lines ts → Forall inline new → lines (ts ++ new).
Proof.
  intros Hts Hnew. revert ts Hts.
  induction Hnew as [|t new [_ Ht] _ IH]; intros ts Hts.
  - by rewrite app_nil_r.
  - rewrite cons_middle, app_assoc. apply IH. by apply lines_snoc.
Qed.

Lemma emits_then (f g : Lexer → Outcome) :
  emits f → emits g → emits (then_ f g).
Proof.
  intros Hf Hg l l'. unfold then_.
  destruct (f l) as [l1| | |] eqn:Hfl; try done. intros Hgl.
  destruct (Hf _ _ Hfl) as (new1 & E1 & H1).
  destruct (Hg _ _ Hgl) as (new2 & E2 & H2).
  exists (new1 ++ new2).
  split; [by rewrite E2, E1, app_assoc|by apply Forall_app].
Qed.

Lemma emits_nothing (l : Lexer) (input : istream) :
  ∃ new, tokens_ (set_input input l) = tokens_ l ++ new ∧ Forall inline new.
Proof. exists []. split; [by rewrite app_nil_r|done]. Qed.

Lemma emits_one (l : Lexer) (input : istream) (t : Token) :
  inline t →
  ∃ new,
    tokens_ (emplace_back t (set_input input l)) = tokens_ l ++ new
    ∧ Forall inline new.
Proof. intros Ht. exists [t]. split; [done|by apply Forall_singleton]. Qed.

Lemma emits_SkipSpaces (fuel : nat) : emits (SkipSpaces fuel).
Proof.
  intros l l'. unfold SkipSpaces.
  destruct (SkipSpaces_loop _ _); try done. intros [= <-].
  apply emits_nothing.
Qed.

Lemma emits_SkipComment : emits SkipComment.
Proof.
  intros l l'. unfold SkipComment.
  destruct (get _) as [[c|] input]; [|done].
  destruct (Ascii.eqb c hash); [destruct (negb _)|]; intros [= <-];
    apply emits_nothing.
Qed.

Lemma emits_ParseChar : emits ParseChar.
Proof.
  intros l l'. unfold ParseChar.
  destruct (peek (input_ l)) as [[c|] input] eqn:Hpeek.
  - apply peek_Some in Hpeek as (-> & Hgood & rest & Ha). cbn [to_char].
    rewrite set_input_same.
    destruct (ispunct c) eqn:Hp; [|intros [= <-]; exists []; split;
                                   [by rewrite app_nil_r|done]].
    destruct (Ascii.eqb c hash) eqn:Hh; [apply emits_SkipComment|].
    rewrite (get_ready (input_ l) c rest) by done. intros [= <-].
    apply emits_one. split; [|done]. cbn. by rewrite Hp, Hh.
  - cbn [to_char].
    replace (ispunct (ascii_of_nat 255)) with false by (by vm_compute).
    intros [= <-]. apply emits_nothing.
Qed.

Lemma emits_ParseComparisonOperators : emits ParseComparisonOperators.
Proof.
  intros l l'. unfold ParseComparisonOperators.
  destruct (get _) as [current input]. destruct (peek _) as [peeked input'].
  repeat (destruct (_ && _); [intros [= <-]; by apply emits_one|]).
  intros [= <-]. apply emits_nothing.
Qed.

Lemma emits_ParseStrings (fuel : nat) : emits (ParseStrings fuel).
Proof.
  intros l l'. unfold ParseStrings. destruct (get _) as [got input].
  destruct (_ || _); [|intros [= <-]; apply emits_nothing].
  destruct (ParseStrings_loop _ _ _ _); try done.
  intros [= <-]. by apply emits_one.
Qed.

Lemma scan_while_kept (fuel : nat) (keep : ascii → bool) (str s : string)
    (input input' : istream) :
  scan_while fuel keep str input = Finished s input' →
  ∃ w, s = str +:+ string_of_list_ascii w ∧ Forall (λ c, keep c = true) w.
Proof.
  revert str input. induction fuel as [|fuel IH]; intros str input; [done|].
  cbn [scan_while]. destruct (get input) as [[c|] input1].
  - destruct (keep c) eqn:Hc.
    + intros Hscan. destruct (IH _ _ Hscan) as (w & -> & Hw).
      exists (c :: w). split; [by rewrite push_back_append|].
      by apply Forall_cons.
    + intros [= <- _]. exists []. split; [by rewrite append_empty_r|done].
  - intros [= <- _]. exists []. split; [by rewrite append_empty_r|done].
Qed.

Lemma scan_while_first (fuel : nat) (keep : ascii → bool) (s : string)
    (input input' : istream) (c : ascii) (rest : list ascii) :
  ready input c rest → keep c = true →
  scan_while fuel keep "" input = Finished s input' →
  ∃ w, s = string_of_list_ascii (c :: w) ∧ Forall (λ c, keep c = true) w.
Proof.
  intros Hready Hc. destruct fuel as [|fuel]; [done|]. cbn [scan_while].
  rewrite (get_ready _ _ _ Hready), Hc. intros Hscan.
  destruct (scan_while_kept _ _ _ _ _ _ Hscan) as (w & -> & Hw).
  exists w. split; [|done]. by rewrite push_back_append.
Qed.

Lemma list_ascii_of_string_of_list (w : list ascii) :
  list_ascii_of_string (string_of_list_ascii w) = w.
Proof. induction w as [|c w IH]; [done|]. cbn. by rewrite IH. Qed.

Lemma keywords_inline (id : string) (keyword : Token) :
  keywords_ !! id = Some keyword → inline keyword.
Proof.
  intros H. unfold keywords_ in H.
  apply elem_of_list_to_map_2 in H.
  repeat (apply elem_of_cons in H as [[= -> ->]|H]; [by split|]).
  by apply elem_of_nil in H.
Qed.

Lemma emits_ParseId (fuel : nat) : emits (ParseId fuel).
Proof.
  intros l l'. unfold ParseId.
  destruct (peek (input_ l)) as [[c|] input] eqn:Hpeek.
  - apply peek_Some in Hpeek as (-> & Hgood & rest & Ha). cbn [to_char].
    destruct (isalpha c || Ascii.eqb c underscore) eqn:Hc;
      [|intros [= <-]; apply emits_nothing].
    assert (isalnum c || Ascii.eqb c underscore = true) as Hkeep.
    { unfold isalnum. apply orb_true_iff in Hc as [H|H]; rewrite H; [done|].
      apply orb_true_r. }
    destruct (scan_while _ _ _ _) as [id input'| |] eqn:Hscan; try done.
    destruct (scan_while_first _ _ _ _ _ c rest (conj Hgood Ha) Hkeep Hscan)
      as (w & -> & Hw).
    destruct (keywords_ !! _) as [keyword|] eqn:Hk; intros [= <-];
      apply emits_one; [by eapply keywords_inline|].
    split; [|done]. cbn [token_ok is_identifier string_of_list_ascii].
    rewrite Hc, list_ascii_of_string_of_list. cbn [andb].
    apply andb_true_iff. split; [|by apply bool_decide_eq_true].
    apply List.forallb_forall. intros x Hx.
    rewrite Forall_forall in Hw. apply Hw. by apply list_elem_of_In.
  - cbn [to_char].
    replace (isalpha (ascii_of_nat 255) || Ascii.eqb (ascii_of_nat 255) underscore)
      with false by (by vm_compute).
    intros [= <-]. apply emits_nothing.
Qed.

Lemma emits_ParseNumbers (fuel : nat) : emits (ParseNumbers fuel).
Proof.
  intros l l'. unfold ParseNumbers.
  destruct (peek (input_ l)) as [peeked input].
  destruct (isdigit _); [|intros [= <-]; apply emits_nothing].
  destruct (scan_while _ _ _ _) as [num input'| |] eqn:Hscan; try done.
  destruct (scan_while_kept _ _ _ _ _ _ Hscan) as (w & -> & Hw).
  unfold stoi.
  destruct (Z.leb_spec (decimal 0 ("" +:+ string_of_list_ascii w)) (2 ^ 31 - 1));
    [|done].
  intros [= <-]. apply emits_one. split; [|done]. cbn [token_ok].
  apply andb_true_iff. split; [|by apply Z.leb_le].
  apply Z.leb_le. by apply decimal_digits.
Qed.

Lemma emits_ParseIndent (fuel : nat) : emits (ParseIndent fuel).
Proof.
  intros l l'. unfold ParseIndent.
  destruct (ParseIndent_loop _ _ _) as [[n c] input| |]; try done.
  destruct (peek _) as [peeked input'].
  destruct (_ || _); [intros [= <-]; apply emits_nothing|].
  intros [= <-]. cbn [tokens_ set_space_count set_input].
  eexists. split; [done|]. apply Forall_replicate.
  by destruct (0 <? _)%Z.
Qed.

Lemma ParseNewLine_lines (fuel : nat) (l l' : Lexer) :
  ParseNewLine fuel l = Done l' →
  Forall (λ t, token_ok t = true) (tokens_ l) → lines (tokens_ l) →
  Forall (λ t, token_ok t = true) (tokens_ l') ∧ lines (tokens_ l').
Proof.
  unfold ParseNewLine. destruct (get _) as [[c|] input]; [|done].
  destruct (Ascii.eqb c newline); [|by intros [= <-]].
  intros Hindent Hok Hlines.
  destruct (emits_ParseIndent _ _ _ Hindent) as (new & -> & Hnew).
  assert (Forall (λ t, token_ok t = true) new) as Hnew'.
  { eapply Forall_impl; [exact Hnew|]. by intros t [? _]. }
  destruct (back_is_not token_type.Newline (set_input input l)) eqn:Hback.
  - cbn [tokens_ emplace_back set_input]. split.
    + repeat (apply Forall_app; split); try done. by apply Forall_singleton.
    + apply lines_app; [|done]. apply lines_snoc; [done|]. intros _.
      unfold back_is_not in Hback. cbn [tokens_ set_input] in Hback.
      destruct (last (tokens_ l)) as [b|] eqn:Hlast; [|done]. split.
      * intros Hnil. by rewrite Hnil in Hlast.
      * intros [= ->]. unfold Token_ne in Hback.
        by rewrite Token_eq_refl in Hback.
  - cbn [tokens_ set_input]. split; [by apply Forall_app|by apply lines_app].
Qed.

Lemma ParseTokens_body_lines (fuel : nat) (l l' : Lexer) :
  ParseTokens_body fuel l = Done l' →
  Forall (λ t, token_ok t = true) (tokens_ l) → lines (tokens_ l) →
  Forall (λ t, token_ok t = true) (tokens_ l') ∧ lines (tokens_ l').
Proof.
  unfold ParseTokens_body.
  assert (emits (ParseStrings fuel >> ParseId fuel >> ParseComparisonOperators
                 >> ParseChar >> ParseNumbers fuel >> SkipSpaces fuel))
    as Hrest.
  { repeat apply emits_then;
      first [ apply emits_ParseStrings | apply emits_ParseId
            | apply emits_ParseComparisonOperators | apply emits_ParseChar
            | apply emits_ParseNumbers | apply emits_SkipSpaces ]. }
  assert (∀ l, (ParseNewLine fuel >> ParseStrings fuel >> ParseId fuel
                >> ParseComparisonOperators >> ParseChar
                >> ParseNumbers fuel >> SkipSpaces fuel) l
               = match ParseNewLine fuel l with
                 | Done l1 =>
                     (ParseStrings fuel >> ParseId fuel
                      >> ParseComparisonOperators >> ParseChar
                      >> ParseNumbers fuel >> SkipSpaces fuel) l1
                 | r => r
                 end) as ->.
  { intros l0. unfold then_. by destruct (ParseNewLine fuel l0). }
  destruct (ParseNewLine fuel l) as [l1| | |] eqn:Hnl; try done.
  intros Hbody Hok Hlines.
  destruct (ParseNewLine_lines _ _ _ Hnl Hok Hlines) as [Hok1 Hlines1].
  destruct (Hrest _ _ Hbody) as (new & -> & Hnew). split.
  - apply Forall_app. split; [done|].
    eapply Forall_impl; [exact Hnew|]. by intros t [? _].
  - by apply lines_app.
Qed.

Lemma ParseTokens_loop_lines (fuel turns : nat) (l l' : Lexer) :
  ParseTokens_loop fuel turns l = Done l' →
  Forall (λ t, token_ok t = true) (tokens_ l) → lines (tokens_ l) →
  Forall (λ t, token_ok t = true) (tokens_ l') ∧ lines (tokens_ l').
Proof.
  revert l. induction turns as [|turns IH]; intros l; [done|].
  rewrite ParseTokens_loop_S.
  destruct (get (input_ l)) as [[c|] input]; [|by intros [= <-]].
  destruct (ParseTokens_body _ _) as [l1| | |] eqn:Hbody; try done.
  intros Hloop Hok Hlines.
  destruct (ParseTokens_body_lines _ _ _ Hbody) as [Hok1 Hlines1]; [done..|].
  by apply (IH l1).
Qed.

(** The tokens of a lex pass: the tokens of the loop, all of them of the
    kinds the scanners build and none of them [Eof], with no [Newline]
    first or after a [Newline]; then [Eof]. *)
Lemma ParseTokens_lines (fuel : nat) (l l' : Lexer) :
  ParseTokens fuel l = Done l' →
  ∃ before,
    tokens_ l' = before ++ [token_type.Eof]
    ∧ Forall (λ t, token_ok t = true) before ∧ lines before.
Proof.
  unfold ParseTokens.
  destruct (ParseTokens_loop _ _ _) as [l1| | |] eqn:Hloop; try done.
  apply ParseTokens_loop_lines in Hloop as [Hok Hlines];
    [|done|by split; [|intros i]].
  intros [= <-].
  destruct (back_is_not token_type.Newline l1) eqn:Hn;
    [destruct (back_is_not token_type.Dedent l1)|];
    cbn [andb tokens_ emplace_back]; eexists; (split; [done|]);
    try done.
  split.
  - apply Forall_app. split; [done|]. by apply Forall_singleton.
  - apply lines_snoc; [done|]. intros _. unfold back_is_not in Hn.
    destruct (last (tokens_ l1)) as [b|] eqn:Hlast; [|done]. split.
    + intros Hnil. by rewrite Hnil in Hlast.
    + intros [= ->]. unfold Token_ne in Hn. by rewrite Token_eq_refl in Hn.
Qed.

(** X26.  The values of the tokens of a lex pass, whatever the input: an
    [Id] holds a letter or an underscore followed by letters, digits and
    underscores, and never a keyword; a [Number] holds a value from [0] to
    the greatest [int]; a [Char] holds a punctuation character, and never
    the [#]. *)
Theorem token_values_are_well_formed (fuel : nat) (l l' : Lexer) :
  ParseTokens fuel l = Done l' →
  ∀ t, t ∈ tokens_ l' →
    match t with
    | token_type.Id s => is_identifier s = true ∧ keywords_ !! s = None
    | token_type.Number v => (0 ≤ v ≤ 2 ^ 31 - 1)%Z
    | token_type.Char c => ispunct c = true ∧ c ≠ hash
    | _ => True
    end.
Proof.
  intros Hl t Ht.
  destruct (ParseTokens_lines _ _ _ Hl) as (before & Hts & Hok & _).
  rewrite Hts in Ht. apply elem_of_app in Ht as [Ht|Ht].
  - rewrite Forall_forall in Hok. specialize (Hok t Ht).
    destruct t; try done; cbn in Hok.
    + apply andb_true_iff in Hok as [H1 H2].
      apply Z.leb_le in H1, H2. lia.
    + apply andb_true_iff in Hok as [H1 H2]. split; [done|].
      by apply bool_decide_eq_true in H2.
    + apply andb_true_iff in Hok as [H1 H2]. split; [done|].
      apply negb_true_iff in H2. by apply Ascii.eqb_neq.
  - by apply list_elem_of_singleton in Ht as ->.
Qed.

Lemma token_values_are_well_formed_witness :
  is_identifier "x_1" = true ∧ keywords_ !! "x_1" = None.
Proof.
  apply (token_values_are_well_formed 9
           (mkLexer [] 0 (istream_of (list_ascii_of_string "x_1 = 12")))
           (mkLexer [token_type.Id "x_1"; token_type.Char "=";
                     token_type.Number 12; token_type.Newline; token_type.Eof]
                    0
                    (mkIstream (rev (list_ascii_of_string "x_1 = 12")) []
                               true true false))
           eq_refl (token_type.Id "x_1")).
  constructor.
Defined.

(** X27.  The lines of the tokens of a lex pass, whatever the input: [Eof]
    is the last token and no other; no [Newline] is the first token and
    none follows a [Newline]. *)
Theorem token_lines_are_not_empty (fuel : nat) (l l' : Lexer) :
  ParseTokens fuel l = Done l' →
  ∃ before,
    tokens_ l' = before ++ [token_type.Eof]
    ∧ (token_type.Eof ∉ before)
    ∧ head (tokens_ l') ≠ Some token_type.Newline
    ∧ ∀ i, tokens_ l' !! i = Some token_type.Newline →
           tokens_ l' !! S i ≠ Some token_type.Newline.
Proof.
  intros Hl.
  destruct (ParseTokens_lines _ _ _ Hl) as (before & Hts & Hok & Hlines).
  exists before. split; [done|].
  assert (lines (before ++ [token_type.Eof])) as [Hhead Hnext]
    by (by apply lines_snoc).
  rewrite Hts. split_and!; [|done..].
  intros Heof. rewrite Forall_forall in Hok. by specialize (Hok _ Heof).
Qed.

Lemma token_lines_are_not_empty_witness :
  let text := [newline; newline; "x"%char; newline; space; newline; hash;
               newline; "y"%char] in
  let ts := [token_type.Id "x"; token_type.Newline; token_type.Id "y";
             token_type.Newline; token_type.Eof] in
  lex 12 (string_of_list_ascii text) = Some ts
  ∧ ∃ before,
      ts = before ++ [token_type.Eof]
      ∧ (token_type.Eof ∉ before)
      ∧ head ts ≠ Some token_type.Newline
      ∧ ∀ i, ts !! i = Some token_type.Newline →
             ts !! S i ≠ Some token_type.Newline.
Proof.
  cbv zeta. split; [vm_compute; reflexivity|].
  apply (token_lines_are_not_empty 12
           (mkLexer [] 0
              (istream_of [newline; newline; "x"%char; newline; space; newline;
                           hash; newline; "y"%char]))
           (mkLexer [token_type.Id "x"; token_type.Newline; token_type.Id "y";
                     token_type.Newline; token_type.Eof] 0
              (mkIstream
                 (rev [newline; newline; "x"%char; newline; space; newline;
                       hash; newline; "y"%char]) [] false true false))).
  vm_compute. reflexivity.
Defined.
End TokenStream.
